(** * Schedule generation and drift-tolerant delivery of the presale bot

    A shallow embedding of [src/index.js]: the schedule generator
    ([generateSchedule], [generateFullSchedule], [enforceUniqueIntervals]),
    the delivery loop ([sendNextIfDue]), the startup sequence of [main],
    the time source and the state file writer.

    Conventions of the embedding.
    - Instants are [Z] milliseconds since the epoch.  An ISO-8601 string
      and the instant it denotes are identified ([new Date(iso).getTime()]
      and [toISOString()] are inverse on the strings the program produces),
      so sorting ISO strings is sorting instants.  The configuration
      signature is the exception: it is a string made from the values
      as they are spelled ([Delivery.getConfigSignature]).
    - JavaScript numbers that hold money or weights are rationals [Q] and
      the arithmetic on them is exact; counts and indices are [Z] or [nat].
      Statements about sums of money use the sums the code computes,
      term by term, and no closed form.
    - The configuration appears twice: [ConfigMerge.Defaulted] is the
      object [defaulted] with its JavaScript values, which [main] builds
      and [getConfigSignature] serializes; [Config] is the same object
      as the generator and the delivery loop read it.
    - [Math.random()] is a finite supply of draws, consumed in order; a
      computation that needs more draws than supplied yields [None].
    - Effects (state file writes, log lines, notifier calls, timers) are
      recorded in order in a trace. *)

From Stdlib Require Import ZArith QArith Qround List Lia String.
From stdpp Require Import base strings gmap sets list sorting.

Local Open Scope Z_scope.

(** ** Numeric helpers *)

Module Js.

(** [Math.round(d / 1000)] for an integer [d]: half-way cases go up. *)
Definition roundDiv1000 (d : Z) : Z := (d + 500) / 1000.

(** [Math.ceil(d / 1000)] for an integer [d]. *)
Definition ceilDiv1000 (d : Z) : Z := - ((- d) / 1000).

(** [Math.floor(d / 1000)] for an integer [d]. *)
Definition floorDiv1000 (d : Z) : Z := d / 1000.

(** [Math.ceil(a / b)] for integers [a] and [b > 0]. *)
Definition ceilDiv (a b : Z) : Z := - ((- a) / b).

(** [Math.round(x)]: the integer nearest to [x], half-way cases up. *)
Definition round (x : Q) : Z := Qfloor (x + (1 # 2)).

End Js.

(** ** IntervalDeduplicator: [enforceUniqueIntervals] *)

Module Intervals.

Definition floorToHourTs (timestampMs : Z) : Z :=
  timestampMs / 3600000 * 3600000.

Definition secondOfHour (timestampMs : Z) : Z :=
  Js.floorDiv1000 (timestampMs - floorToHourTs timestampMs).

(** [Math.max(1, Math.round((a - b) / 1000))] *)
Definition gapSeconds (a b : Z) : Z := Z.max 1 (Js.roundDiv1000 (a - b)).

(** The three mutable objects of the function: the array [times], the
    set [usedIntervals] and the map [hourToSeconds]. *)
Record Loop := mkLoop {
  times : list Z;
  usedIntervals : gset Z;
  hourToSeconds : gmap Z (gset Z)
}.

(** Body of the first [for] loop: register the second of [t] in its hour. *)
Definition recordSecond (m : gmap Z (gset Z)) (t : Z) : gmap Z (gset Z) :=
  let hourKey := floorToHourTs t in
  let sec := secondOfHour t in
  <[hourKey := {[sec]} ∪ default ∅ (m !! hourKey)]> m.

(** The test both candidate loops apply to a candidate second; on success
    the new instant and its gap. *)
Definition acceptable (used usedSecsInHour : gset Z) (hourStart prev candSec : Z)
  : option (Z * Z) :=
  if decide (candSec ∈ usedSecsInHour) then None
  else
    let candTs := hourStart + candSec * 1000 in
    let candDelta := gapSeconds candTs prev in
    if decide (candDelta ∈ used) then None else Some (candTs, candDelta).

(** First accepted candidate of a list visited in order ([found] and
    [break]). *)
Fixpoint firstAcceptable (used usedSecsInHour : gset Z) (hourStart prev : Z)
    (cands : list Z) : option (Z * Z) :=
  match cands with
  | [] => None
  | c :: cs =>
      match acceptable used usedSecsInHour hourStart prev c with
      | Some r => Some r
      | None => firstAcceptable used usedSecsInHour hourStart prev cs
      end
  end.

(** The array [candidates] built at radius [r]. *)
Definition candidatesAt (baseSec lbSec ubSec r : Z) : list Z :=
  (if decide (baseSec + r <= ubSec) then [baseSec + r] else [])
  ++ (if decide (baseSec - r >= lbSec) then [baseSec - r] else []).

Definition radiusLimit : Z := 300.

(** Candidates in the order the radius loop visits them, r = 1 .. 300. *)
Definition radiusCandidates (baseSec lbSec ubSec : Z) : list Z :=
  concat (map (candidatesAt baseSec lbSec ubSec) (seqZ 1 radiusLimit)).

(** Candidates of the fallback scan, sec = lbSec .. ubSec. *)
Definition scanCandidates (lbSec ubSec : Z) : list Z :=
  seqZ lbSec (ubSec - lbSec + 1).

(** One iteration of the main loop, at index [i >= 1]. *)
Definition relocate (l : Loop) (i : nat) : Loop :=
  match times l !! (i - 1)%nat, times l !! i with
  | Some prev, Some curr =>
      let deltaSec := gapSeconds curr prev in
      if decide (deltaSec ∈ usedIntervals l) then
        let hourKey := floorToHourTs curr in
        let hourStart := hourKey in
        let hourEnd := hourStart + 3600000 - 1 in
        let lowerBound := Z.max hourStart (prev + 1000) in
        let upperBound :=
          match times l !! (i + 1)%nat with
          | Some next => Z.min hourEnd (next - 1000)
          | None => hourEnd
          end in
        if decide (lowerBound > upperBound) then
          mkLoop (times l) ({[deltaSec]} ∪ usedIntervals l) (hourToSeconds l)
        else
          let usedSecsInHour :=
            default ∅ (hourToSeconds l !! hourKey) ∖ {[secondOfHour curr]} in
          let baseSec := secondOfHour curr in
          let lbSec := Js.ceilDiv1000 (lowerBound - hourStart) in
          let ubSec := Js.floorDiv1000 (upperBound - hourStart) in
          let search := firstAcceptable (usedIntervals l) usedSecsInHour hourStart prev in
          let chosen :=
            match search (radiusCandidates baseSec lbSec ubSec) with
            | Some r => r
            | None =>
                match search (scanCandidates lbSec ubSec) with
                | Some r => r
                | None => (curr, deltaSec)
                end
            end in
          mkLoop (<[i := chosen.1]> (times l))
                 ({[chosen.2]} ∪ usedIntervals l)
                 (<[hourKey := {[secondOfHour chosen.1]} ∪ usedSecsInHour]>
                    (hourToSeconds l))
      else
        mkLoop (times l) ({[deltaSec]} ∪ usedIntervals l) (hourToSeconds l)
  | _, _ => l
  end.

Definition enforceUniqueIntervals (scheduleIsoArray : list Z) : list Z :=
  if decide (length scheduleIsoArray <= 1)%nat then scheduleIsoArray
  else
    let init := mkLoop scheduleIsoArray ∅ (foldl recordSecond ∅ scheduleIsoArray) in
    times (foldl relocate init (seq 1 (length scheduleIsoArray - 1))).

(** Non-decreasing order, stated on adjacent cells of the array. *)
Definition sortedTimes (l : list Z) : Prop :=
  ∀ (i : nat) (a b : Z), l !! i = Some a → l !! S i = Some b → a <= b.

(** The consecutive gaps of a sequence, in whole seconds. *)
Fixpoint gaps (l : list Z) : list Z :=
  match l with
  | a :: ((b :: _) as tl) => gapSeconds b a :: gaps tl
  | _ => []
  end.

(** A relocated cell lies strictly between its neighbours. *)
Definition strictAt (l : list Z) (j : nat) : Prop :=
  ∀ b, l !! j = Some b →
    (∀ p, (1 <= j)%nat → l !! (j - 1)%nat = Some p → p < b)
    ∧ (∀ n, l !! S j = Some n → b < n).

(** Loop invariant: [k] is the next index to be visited, [orig] the
    array the function was called with. *)
Record Inv (orig : list Z) (k : nat) (l : list Z) : Prop := mkInv {
  inv_length : length l = length orig;
  inv_sorted : sortedTimes l;
  inv_hours : floorToHourTs <$> l = floorToHourTs <$> orig;
  inv_rest : ∀ j, (k <= j)%nat → l !! j = orig !! j;
  inv_strict : ∀ j, l !! j ≠ orig !! j → strictAt l j
}.

End Intervals.

(** ** The random source *)

Module Random.

(** The successive results of [Math.random()] still to be consumed. *)
Definition Rng : Type := list Q.

(** Computations that draw random numbers: the result and the draws
    left, or [None] when the supply ran out first. *)
Definition M (A : Type) : Type := Rng → option (A * Rng).

Definition ret {A} (a : A) : M A := λ rng, Some (a, rng).

Definition bind {A B} (m : M A) (k : A → M B) : M B :=
  λ rng, match m rng with
         | Some (a, rng') => k a rng'
         | None => None
         end.

(** [Math.random()] *)
Definition random : M Q :=
  λ rng, match rng with
         | [] => None
         | x :: rng' => Some (x, rng')
         end.

(** The loop [for (...) out.push(f(x))] over a list. *)
Fixpoint forEach {A B} (f : A → M B) (l : list A) : M (list B) :=
  match l with
  | [] => ret []
  | x :: l' => bind (f x) (λ y, bind (forEach f l') (λ ys, ret (y :: ys)))
  end.

(** [Math.random()] returns a number in [0, 1). *)
Definition validDraw (x : Q) : Prop := (0 <= x)%Q ∧ (x < 1)%Q.
Definition validDraws (rng : Rng) : Prop := Forall validDraw rng.

(** A computation that, run on draws in [0, 1), returns a result with
    property [P] and leaves draws in [0, 1). *)
Definition preserves {A} (m : M A) (P : A → Prop) : Prop :=
  ∀ rng a rng', validDraws rng → m rng = Some (a, rng') → P a ∧ validDraws rng'.

(** A computation for which some finite supply of draws in [0, 1) is
    enough: it consumes exactly that supply and returns. *)
Definition productive {A} (m : M A) : Prop :=
  ∃ pre a, validDraws pre ∧ ∀ rest, m (pre ++ rest) = Some (a, rest).

End Random.

Notation "'let*' x ':=' m 'in' k" := (Random.bind m (λ x, k))
  (at level 10, x pattern, m at level 100, k at level 200).

(** ** SecondSampler: [sampleUniqueSeconds], [sampleUniqueSecondsWithinHour] *)

Module Sampler.
Import Random.

(** [while (picked.size < count) picked.add(Math.floor(Math.random() * max))] *)
Fixpoint pickUntil (count max : Z) (picked : gset Z) (rng : Rng)
  : option (gset Z * Rng) :=
  if decide (Z.of_nat (size picked) < count) then
    match rng with
    | [] => None
    | x :: rng' =>
        pickUntil count max ({[Qfloor (x * inject_Z max)]} ∪ picked) rng'
    end
  else Some (picked, rng).

(** The body the two samplers share; [max] is the number of seconds
    available. *)
Definition sampleUnique (count max : Z) : M (list Z) :=
  if decide (count >= max) then ret (seqZ 0 max)
  else
    let* picked := pickUntil count max ∅ in
    ret (merge_sort Z.le (elements picked)).

Definition sampleUniqueSecondsWithinHour (count : Z) : M (list Z) :=
  sampleUnique count 3600.

Definition sampleUniqueSeconds (count spanSeconds : Z) : M (list Z) :=
  sampleUnique count (Z.max 1 spanSeconds).

(** The draw that makes [Math.floor(Math.random() * max)] equal to [k]. *)
Definition drawFor (max k : Z) : Q := (inject_Z k / inject_Z max)%Q.

End Sampler.

(** ** Configuration *)

Record SpecialPhase := mkSpecialPhase {
  enabled : bool;
  countdownStartUtc : Z;
  presaleStartUtc : Z;
  (** an absent field reads as 0: both are falsy for [||] *)
  initialBurstMinutes : Z;
  initialBurstCount : Z
}.

Record Config := mkConfig {
  startTimeUtc : Z;
  endTimeUtc : Z;
  targetTotalUsd : Q;
  amountPerMessageUsd : Q;
  minPerHour : Z;
  maxPerHour : Z;
  tokensPerHundred : Q;
  startRaisedUsd : Q;
  enforceHardStopAtEnd : bool;
  specialPhase : option SpecialPhase
}.

(** [{ ...config, startTimeUtc: s, targetTotalUsd: t }] *)
Definition withStartAndTarget (config : Config) (s : Z) (t : Q) : Config :=
  mkConfig s (endTimeUtc config) t (amountPerMessageUsd config)
           (minPerHour config) (maxPerHour config) (tokensPerHundred config)
           (startRaisedUsd config) (enforceHardStopAtEnd config)
           (specialPhase config).

(** ** WeightGenerator and CountAllocator: [generateSchedule] *)

Module Generator.
Import Random Sampler Intervals.

(** [getUTCHours()] and [getUTCDay()] (0 is Sunday; the epoch was a
    Thursday). *)
Definition utcHours (ts : Z) : Z := (ts / 3600000) mod 24.
Definition utcDay (ts : Z) : Z := (ts / 86400000 + 4) mod 7.

(** [0.95 + 0.35 * Math.sin((2 * Math.PI * (hour + 2)) / 24)] for
    hour = 0 .. 23, each value rounded to eight decimals. *)
Definition diurnalTable : list Q :=
  [ 1.125; 1.19748737; 1.25310889; 1.28807404; 1.3; 1.28807404;
    1.25310889; 1.19748737; 1.125; 1.04058667; 0.95; 0.85941333;
    0.775; 0.70251263; 0.64689111; 0.61192596; 0.6; 0.61192596;
    0.64689111; 0.70251263; 0.775; 0.85941333; 0.95; 1.04058667 ]%Q.

Definition diurnal (hour : Z) : Q := nth (Z.to_nat hour) diurnalTable 0%Q.

Definition weekdayBiasTable : list Q := [0.9; 0.95; 1.0; 1.05; 1.1; 1.2; 1.25]%Q.

Definition weekdayBias (day : Z) : Q := nth (Z.to_nat day) weekdayBiasTable 0%Q.

Definition generatePerHourWeights (start : Z) (hours : Z) : M (list Q) :=
  forEach (λ i : Z,
    let d := start + i * 3600000 in
    let hour := utcHours d in
    let day := utcDay d in
    let* r := random in
    let noise := (0.9 + r * 0.3)%Q in
    ret (diurnal hour * weekdayBias day * noise)%Q)
  (seqZ 0 hours).

(** [Math.ceil(config.targetTotalUsd / amountPerMessage)] *)
Definition totalMessagesNeeded (config : Config) : Z :=
  Qceiling (targetTotalUsd config / amountPerMessageUsd config).

(** The number of hours the schedule spans, after the extension. *)
Definition scheduleHours (config : Config) : Z :=
  let initialHours := Js.ceilDiv (endTimeUtc config - startTimeUtc config) 3600000 in
  let hours := Z.max 1 initialHours in
  let maxPossible := hours * maxPerHour config in
  if decide (maxPossible < totalMessagesNeeded config) then
    let additionalHours :=
      Js.ceilDiv (totalMessagesNeeded config - maxPossible) (maxPerHour config) in
    hours + additionalHours
  else hours.

(** [a.reduce((a, b) => a + b, 0)] on rationals and on integers. *)
Definition sumQ (l : list Q) : Q := foldl Qplus 0%Q l.
Definition sumZ (l : list Z) : Z := foldl Z.add 0 l.

(** Body of the loop that hands out the shortfall; the pair is
    ([perHour], [diff]).  After [break] nothing changes any more. *)
Definition addStep (maxPerHour : Z) (acc : list Z * Z) (i : nat) : list Z * Z :=
  let '(perHour, diff) := acc in
  if decide (diff <= 0) then acc
  else
    match perHour !! i with
    | Some n =>
        let headroom := maxPerHour - n in
        if decide (headroom > 0) then
          let add := Z.min headroom diff in
          (<[i := n + add]> perHour, diff - add)
        else acc
    | None => acc
    end.

(** Body of the loop that takes back the excess; the pair is
    ([perHour], [remaining]). *)
Definition removeStep (acc : list Z * Z) (i : nat) : list Z * Z :=
  let '(perHour, remaining) := acc in
  if decide (remaining <= 0) then acc
  else
    match perHour !! i with
    | Some n =>
        let reducible := Z.max 0 (n - 0) in
        if decide (reducible > 0) then
          let r := Z.min reducible remaining in
          (<[i := n - r]> perHour, remaining - r)
        else acc
    | None => acc
    end.

(** The block guarded by [currentTotal !== totalMessagesNeeded].
    [shuffle] is what the sort with the random comparator does to the
    index array; it is an input because the comparisons a sort makes are
    the engine's choice. *)
Definition reconcile (maxPerHour total hours : Z) (shuffle : list nat → list nat)
    (perHour : list Z) : list Z :=
  let currentTotal := sumZ perHour in
  if decide (currentTotal ≠ total) then
    let perHour := (λ n, Z.min n maxPerHour) <$> perHour in
    let currentTotal := sumZ perHour in
    let diff := total - currentTotal in
    if decide (diff > 0) then
      let idxs := shuffle (seq 0 (Z.to_nat hours)) in
      (foldl (addStep maxPerHour) (perHour, diff) idxs).1
    else if decide (diff < 0) then
      let remaining := - diff in
      let idxs := shuffle (seq 0 (Z.to_nat hours)) in
      (foldl removeStep (perHour, remaining) idxs).1
    else perHour
  else perHour.

(** The rounded shares
    [weights.map(w => Math.round((w / sumWeights) * totalMessagesNeeded))]. *)
Definition roundedShares (weights : list Q) (total : Z) : list Z :=
  let sumWeights := sumQ weights in
  (λ w, Js.round (w / sumWeights * inject_Z total)%Q) <$> weights.

(** The array [perHour] at the point where the schedule is laid out. *)
Definition perHourQuotas (config : Config) (shuffle : list nat → list nat)
  : M (list Z) :=
  let total := totalMessagesNeeded config in
  let hours := scheduleHours config in
  let* weights := generatePerHourWeights (startTimeUtc config) hours in
  let perHour := roundedShares weights total in
  ret (reconcile (maxPerHour config) total hours shuffle perHour).

(** Body of the loop over the hours: the instants of hour [h].  Reading
    [perHour[h]] out of range gives [undefined], for which the sampler
    returns the empty array. *)
Definition hourEvents (start : Z) (perHour : list Z) (h : Z) : M (list Z) :=
  let hourStart := start + h * 3600000 in
  match perHour !! Z.to_nat h with
  | Some quota =>
      let* seconds := sampleUniqueSecondsWithinHour quota in
      ret ((λ s, hourStart + s * 1000) <$> seconds)
  | None => ret []
  end.

Definition generateSchedule (config : Config) (shuffle : list nat → list nat)
  : M (list Z * Z * Z) :=
  let start := startTimeUtc config in
  let hours := scheduleHours config in
  let* perHour := perHourQuotas config shuffle in
  let* perHourEvents := forEach (hourEvents start perHour) (seqZ 0 hours) in
  let schedule := merge_sort Z.le (concat perHourEvents) in
  let uniqueSchedule := enforceUniqueIntervals schedule in
  let effectiveEnd := start + hours * 3600000 in
  ret (uniqueSchedule, effectiveEnd, totalMessagesNeeded config).

(** Invariant of the two redistribution loops.  [visited] tells which
    indices the loop has been through, [target] is the value a visited
    cell has reached unless the amount still to move is 0, and [sign]
    is 1 for the loop that adds and -1 for the loop that takes back. *)
Record Moving (maxPerHour total sign target : Z) (visited : nat → Prop)
    (acc : list Z * Z) : Prop := mkMoving {
  mv_range : Forall (λ n, 0 <= n <= maxPerHour) acc.1;
  mv_sum : sumZ acc.1 + sign * acc.2 = total;
  mv_left : 0 <= acc.2;
  mv_visited : acc.2 = 0
               ∨ ∀ i, visited i → (i < length acc.1)%nat → acc.1 !! i = Some target
}.

End Generator.

(** ** SpecialPhaseInjector: [generateFullSchedule] *)

Inductive Kind :=
  | KCountdown
  | KStart
  | KBuy
  | KOther (name : string).

(** The display text of an entry; the wording itself plays no role. *)
Inductive Text :=
  | CountdownText (minutes : Z)
  | LaunchText.

(** A schedule entry [{ at, kind, text, image }]. *)
Record Event := mkEvent {
  at_ : Z;
  kind : Kind;
  text : option Text;
  image : option string
}.

Module FullSchedule.
Import Random Sampler Generator.

Definition countdownMessages : list (Z * string) :=
  [ (59, "59.png"); (30, "30.png"); (15, "15.png"); (5, "5.png");
    (4, "4.png"); (3, "3.png"); (2, "2.png"); (1, "1.png") ]%string.

Definition countdownEvent (presaleStart : Z) (m : Z * string) : Event :=
  mkEvent (presaleStart - m.1 * 60000) KCountdown (Some (CountdownText m.1)) (Some m.2).

Definition startEvent (presaleStart : Z) : Event :=
  mkEvent presaleStart KStart (Some LaunchText) (Some "live.png"%string).

Definition buyEvent (t : Z) : Event := mkEvent t KBuy None None.

(** [entries.sort((a, b) => new Date(a.at) - new Date(b.at))]: the sort
    of an array is stable, so entries with equal instants keep their
    order. *)
Fixpoint insertByAt (e : Event) (l : list Event) : list Event :=
  match l with
  | [] => [e]
  | x :: l' => if decide (at_ e <= at_ x) then e :: l else x :: insertByAt e l'
  end.

Definition sortByAt (entries : list Event) : list Event :=
  foldr insertByAt [] entries.

(** The block guarded by [config.specialPhase && config.specialPhase.enabled]:
    the entries pushed, the new [remainingMessages] and [normalStartIso]. *)
Definition specialEntries (sp : SpecialPhase) (remainingMessages : Z)
  : M (list Event * Z * Z) :=
  let presaleStart := presaleStartUtc sp in
  let initialBurstMinutes :=
    if decide (initialBurstMinutes sp = 0) then 10 else initialBurstMinutes sp in
  let initialBurstCount := initialBurstCount sp in
  let entries :=
    (countdownEvent presaleStart <$> countdownMessages) ++ [startEvent presaleStart] in
  if decide (initialBurstCount > 0) then
    let burstStart := presaleStart in
    let burstSpanSec := initialBurstMinutes * 60 in
    let* secs := sampleUniqueSeconds initialBurstCount burstSpanSec in
    ret (entries ++ ((λ s, buyEvent (burstStart + s * 1000)) <$> secs),
         remainingMessages - Z.min initialBurstCount remainingMessages,
         burstStart + burstSpanSec * 1000)
  else ret (entries, remainingMessages, presaleStart).

Definition specialPhaseOn (config : Config) : option SpecialPhase :=
  match specialPhase config with
  | Some sp => if enabled sp then Some sp else None
  | None => None
  end.

Definition generateFullSchedule (config : Config) (shuffle : list nat → list nat)
  : M (list Event * Z) :=
  let amountPerMessage := amountPerMessageUsd config in
  let totalMessagesNeeded := totalMessagesNeeded config in
  let* (entries, remainingMessages, normalStartIso) :=
    match specialPhaseOn config with
    | Some sp => specialEntries sp totalMessagesNeeded
    | None => ret ([], totalMessagesNeeded, startTimeUtc config)
    end in
  if decide (remainingMessages > 0) then
    let normalConfig :=
      withStartAndTarget config normalStartIso
        (inject_Z remainingMessages * amountPerMessage)%Q in
    let* (schedule, effectiveEnd, _) := generateSchedule normalConfig shuffle in
    ret (sortByAt (entries ++ (buyEvent <$> schedule)), effectiveEnd)
  else
    let entries := sortByAt entries in
    let lastAt :=
      match last entries with
      | Some e => at_ e
      | None => startTimeUtc config
      end in
    ret (entries, lastAt).

(** The length in seconds of the burst window:
    [(config.specialPhase.initialBurstMinutes || 10) * 60]. *)
Definition burstSpanSec (sp : SpecialPhase) : Z :=
  (if decide (initialBurstMinutes sp = 0) then 10 else initialBurstMinutes sp) * 60.

Definition isBuy (e : Event) : bool :=
  match kind e with KBuy => true | _ => false end.

(** Number of [buy] entries of a schedule. *)
Definition buyCount (entries : list Event) : nat := length (filter isBuy entries).

(** Entries in non-decreasing order of their instants. *)
Definition sortedByAt (l : list Event) : Prop :=
  Sorted (λ a b, at_ a <= at_ b) l.

(** The instants of the countdown and of the start, relative to the
    launch. *)
Definition specialInstants (presaleStart : Z) : list Z :=
  [ presaleStart - 59 * 60000; presaleStart - 30 * 60000;
    presaleStart - 15 * 60000; presaleStart - 5 * 60000;
    presaleStart - 4 * 60000; presaleStart - 3 * 60000;
    presaleStart - 2 * 60000; presaleStart - 1 * 60000; presaleStart ].

End FullSchedule.

(** ** The configuration [main] builds: environment over file over defaults *)

Module ConfigMerge.

(** The values a property of [fileConfig], [envConfig] or [merged] can
    hold. *)
#[warnings="-register-all"] Inductive JsValue :=
  | VUndefined
  | VNull
  | VBool (b : bool)
  | VNumber (x : Q)
  | VNaN
  | VString (s : string)
  | VObject (properties : list (string * JsValue))
  | VArray (items : list JsValue).

(** An object, as the map of its own properties. *)
Abbreviation JsObject := (gmap string JsValue).

(** The values that count as true in [!v], [v ? a : b] and [v || d]. *)
Definition truthy (v : JsValue) : bool :=
  match v with
  | VUndefined | VNull | VNaN => false
  | VBool b => b
  | VNumber x => negb (Qeq_bool x 0)
  | VString s => bool_decide (s ≠ ""%string)
  | VObject _ | VArray _ => true
  end.

(** [v || d] *)
Definition or_ (v d : JsValue) : JsValue := if truthy v then v else d.

(** [v ?? d] *)
Definition nullish (v d : JsValue) : JsValue :=
  match v with
  | VUndefined | VNull => d
  | _ => v
  end.

(** [value !== undefined] *)
Definition defined (v : JsValue) : bool :=
  match v with
  | VUndefined => false
  | _ => true
  end.

(** [o.key] *)
Definition prop (o : JsObject) (key : string) : JsValue :=
  default VUndefined (o !! key).

(** The object [defaulted]. *)
Record Defaulted := mkDefaulted {
  startTimeUtc : JsValue;
  endTimeUtc : JsValue;
  targetTotalUsd : JsValue;
  amountPerMessageUsd : JsValue;
  minPerHour : JsValue;
  maxPerHour : JsValue;
  tokensPerHundred : JsValue;
  startRaisedUsd : JsValue;
  enforceHardStopAtEnd : JsValue;
  BOT_TOKEN : JsValue;
  TARGET_CHANNEL_ID : JsValue;
  specialPhase : JsValue
}.

Section Main.

(** [Number(s)] for a string, [None] standing for NaN; the environment
    [process.env], whose values are strings; and what
    [readJsonFile(CONFIG_FILE, {})] returned. *)
Variable Number : string → option Q.
Variable env : gmap string string.
Variable fileConfig : JsObject.

(** [process.env.NAME] *)
Definition envVar (name : string) : JsValue :=
  match env !! name with
  | Some s => VString s
  | None => VUndefined
  end.

(** [process.env.NAME ? Number(process.env.NAME) : undefined] *)
Definition envNumber (name : string) : JsValue :=
  if truthy (envVar name) then
    match env !! name with
    | Some s =>
        match Number s with
        | Some x => VNumber x
        | None => VNaN
        end
    | None => VUndefined
    end
  else VUndefined.

(** The entries of [envConfig], in the order of the object literal. *)
Definition envConfig : list (string * JsValue) :=
  [ ("BOT_TOKEN", envVar "BOT_TOKEN");
    ("TARGET_CHANNEL_ID", envVar "TARGET_CHANNEL_ID");
    ("startTimeUtc", envVar "START_TIME_UTC");
    ("endTimeUtc", envVar "END_TIME_UTC");
    ("targetTotalUsd", envNumber "TARGET_TOTAL_USD");
    ("amountPerMessageUsd", envNumber "AMOUNT_PER_MESSAGE_USD");
    ("tokensPerHundred", envNumber "TOKENS_PER_HUNDRED");
    ("startRaisedUsd", envNumber "START_RAISED_USD");
    ("minPerHour", envNumber "MIN_PER_HOUR");
    ("maxPerHour", envNumber "MAX_PER_HOUR");
    ("enforceHardStopAtEnd",
     VBool (bool_decide (env !! "ENFORCE_HARD_STOP"%string = Some "true"%string))) ]%string.

(** [Object.fromEntries(Object.entries(envConfig).filter(([key, value]) =>
    value !== undefined))] *)
Definition cleanEnvConfig : JsObject :=
  list_to_map (filter (λ kv, defined kv.2 = true) envConfig).

(** [{ ...fileConfig, ...cleanEnvConfig }]: the later spread wins. *)
Definition merged : JsObject := cleanEnvConfig ∪ fileConfig.

Definition defaulted : Defaulted :=
  {| startTimeUtc := or_ (prop merged "startTimeUtc") (VString "2025-08-08T17:45:00Z");
     endTimeUtc := or_ (prop merged "endTimeUtc") (VString "2025-08-16T12:00:00Z");
     targetTotalUsd := nullish (prop merged "targetTotalUsd") (VNumber 1400000);
     amountPerMessageUsd := nullish (prop merged "amountPerMessageUsd") (VNumber 100);
     minPerHour := nullish (prop merged "minPerHour") (VNumber 30);
     maxPerHour := nullish (prop merged "maxPerHour") (VNumber 60);
     tokensPerHundred := nullish (prop merged "tokensPerHundred") (VNumber 714.28);
     startRaisedUsd := nullish (prop merged "startRaisedUsd") (VNumber 0);
     enforceHardStopAtEnd := nullish (prop merged "enforceHardStopAtEnd") (VBool false);
     BOT_TOKEN := prop merged "BOT_TOKEN";
     TARGET_CHANNEL_ID := prop merged "TARGET_CHANNEL_ID";
     specialPhase := prop merged "specialPhase" |}.

(** [!defaulted.BOT_TOKEN || !defaulted.TARGET_CHANNEL_ID]: when true,
    [main] prints the request for the credentials and exits with
    code 1. *)
Definition credentialsMissing : bool :=
  negb (truthy (BOT_TOKEN defaulted)) || negb (truthy (TARGET_CHANNEL_ID defaulted)).

(** The rule for a numeric option, in words: the environment variable
    when it is set to a non-empty string, else the value of the file
    unless it is absent or null, else the built-in value. *)
Definition numberOption (envName key : string) (builtin : Q) : JsValue :=
  let fromFile := nullish (prop fileConfig key) (VNumber builtin) in
  match env !! envName with
  | Some s =>
      if bool_decide (s = ""%string) then fromFile
      else match Number s with
           | Some x => VNumber x
           | None => VNaN
           end
  | None => fromFile
  end.

(** The rule for the two instants, in words: the environment variable
    when it is set, even to the empty string; else the value of the
    file; and the built-in value when what was found is falsy. *)
Definition instantOption (envName key builtin : string) : JsValue :=
  match env !! envName with
  | Some s => if bool_decide (s = ""%string) then VString builtin else VString s
  | None => or_ (prop fileConfig key) (VString builtin)
  end.

(** The rule for a credential: the environment variable when it is set,
    even to the empty string; else the value of the file. *)
Definition credential (envName : string) : JsValue :=
  match env !! envName with
  | Some s => VString s
  | None => prop fileConfig envName
  end.

End Main.

End ConfigMerge.

(** ** StateStore and DeliveryLoop: [main] and [sendNextIfDue] *)

Module Delivery.
Import Random Generator FullSchedule.

(** [getConfigSignature] returns a string, and [main] compares two such
    strings with [!==]. *)
Definition Signature : Type := string.

(** [v.key] for a value that is neither null nor undefined: a property
    of an object, and undefined for the keys below on anything else. *)
Definition field (v : ConfigMerge.JsValue) (key : string) : ConfigMerge.JsValue :=
  match v with
  | ConfigMerge.VObject properties =>
      default ConfigMerge.VUndefined (snd <$> find (λ kv, bool_decide (kv.1 = key)) properties)
  | _ => ConfigMerge.VUndefined
  end.

(** The object [shallow], its properties in the order of the literal.
    [config] is the object [defaulted] as [main] built it, with the
    values as they are spelled in the environment or in the file. *)
Definition shallow (config : ConfigMerge.Defaulted) : ConfigMerge.JsValue :=
  ConfigMerge.VObject
    [ ("startTimeUtc", ConfigMerge.startTimeUtc config);
      ("endTimeUtc", ConfigMerge.endTimeUtc config);
      ("targetTotalUsd", ConfigMerge.targetTotalUsd config);
      ("minPerHour", ConfigMerge.minPerHour config);
      ("maxPerHour", ConfigMerge.maxPerHour config);
      ("amountPerMessageUsd", ConfigMerge.amountPerMessageUsd config);
      ("tokensPerHundred", ConfigMerge.tokensPerHundred config);
      ("enforceHardStopAtEnd", ConfigMerge.enforceHardStopAtEnd config);
      ("specialPhase",
       let sp := ConfigMerge.specialPhase config in
       if ConfigMerge.truthy sp then
         ConfigMerge.VObject
           [ ("enabled", ConfigMerge.VBool (ConfigMerge.truthy (field sp "enabled")));
             ("countdownStartUtc", field sp "countdownStartUtc");
             ("presaleStartUtc", field sp "presaleStartUtc");
             ("initialBurstMinutes", field sp "initialBurstMinutes");
             ("initialBurstCount", field sp "initialBurstCount") ]
       else ConfigMerge.VNull) ]%string.

(** [getConfigSignature(config)]; [stringify] is [JSON.stringify]. *)
Definition getConfigSignature (stringify : ConfigMerge.JsValue → string)
    (config : ConfigMerge.Defaulted) : Signature :=
  stringify (shallow config).

(** An element of [state.schedule]: a bare ISO string (read as a buy) or
    an entry object. *)
Inductive Item :=
  | ItemIso (iso : Z)
  | ItemEvent (e : Event).

(** [typeof item === 'string' ? item : item.at] *)
Definition itemAt (item : Item) : Z :=
  match item with
  | ItemIso iso => iso
  | ItemEvent e => at_ e
  end.

(** [typeof nextRaw === 'string' ? { kind: 'buy', at: nextIso } : { ...nextRaw }] *)
Definition itemEvent (item : Item) : Event :=
  match item with
  | ItemIso iso => mkEvent iso KBuy None None
  | ItemEvent e => e
  end.

Record State := mkState {
  configSignature : Signature;
  schedule : list Item;
  effectiveEnd : Z;
  sentCount : nat;
  totalUsdRaised : Q;
  completed : bool
}.

Definition setSentCount (st : State) (n : nat) : State :=
  mkState (configSignature st) (schedule st) (effectiveEnd st) n
          (totalUsdRaised st) (completed st).

Definition setTotalUsdRaised (st : State) (q : Q) : State :=
  mkState (configSignature st) (schedule st) (effectiveEnd st) (sentCount st)
          q (completed st).

Definition setCompleted (st : State) (b : bool) : State :=
  mkState (configSignature st) (schedule st) (effectiveEnd st) (sentCount st)
          (totalUsdRaised st) b.

Definition setSchedule (st : State) (l : list Item) : State :=
  mkState (configSignature st) l (effectiveEnd st) (sentCount st)
          (totalUsdRaised st) (completed st).

(** What is handed to [sendDiscordMessage]: the embed built for a buy
    from the current time and the new total, or a text with its image. *)
Inductive Message :=
  | BuyMessage (now : Z) (nextTotalUsd tokensPerHundred : Q)
  | TextMessage (k : Kind) (msg : option Text) (img : option string).

(** The observable actions, in the order they happen. *)
Inductive Effect :=
  | Write (st : State)              (* writeJsonFile(STATE_FILE, state) *)
  | Log (level message : string)    (* log(level, message, ...) *)
  | Send (index : nat) (m : Message)
      (* sendDiscordMessage(...) is called for state.schedule[index] *)
  | SetTimeout (ms : Z).            (* setTimeout(sendNextIfDue, ms) *)

Definition MAX_ALLOWED_DELAY_MS : Z := 30 * 1000.

(** How the [while] loop that skips stale events is left. *)
Inductive SkipResult :=
  | AllSent (st : State) (tr : list Effect)
  | Head (st : State) (nextEvent : Event) (msUntil : Z) (tr : list Effect).

(** The [while] loop.  Each turn advances [sentCount], so the number of
    entries left bounds the turns; [fuel] is that bound, and the branch
    for no fuel left is never taken when the loop is started with it.
    [nextEvent] is the copy made before the loop: only its [kind] and
    [at] are refreshed. *)
Fixpoint skipStale (fuel : nat) (now : Z) (st : State) (nextEvent : Event)
    (msUntil : Z) (tr : list Effect) : SkipResult :=
  if decide (msUntil < - MAX_ALLOWED_DELAY_MS
             ∧ (sentCount st < length (schedule st))%nat) then
    match fuel with
    | O => Head st nextEvent msUntil tr
    | S fuel' =>
        let tr := tr ++ [Log "WARN" "Skipping past event (too old)"] in
        let st := setSentCount st (S (sentCount st)) in
        let tr := tr ++ [Write st] in
        if decide (length (schedule st) <= sentCount st)%nat then
          let st := setCompleted st true in
          AllSent st (tr ++ [Write st; Log "INFO" "All messages sent"])
        else
          match schedule st !! sentCount st with
          | Some nr =>
              let ne := itemEvent nr in
              let nextEvent :=
                mkEvent (at_ ne) (kind ne) (text nextEvent) (image nextEvent) in
              skipStale fuel' now st nextEvent (itemAt nr - now) tr
          | None => Head st nextEvent msUntil tr
          end
    end
  else Head st nextEvent msUntil tr.

(** The [try] block.  [sendOk] tells whether the call of the notifier
    returns ([true]) or throws ([false]). *)
Definition deliver (defaulted : Config) (now : Z) (sendOk : bool) (st : State)
    (nextEvent : Event) : State * list Effect :=
  let index := sentCount st in
  match kind nextEvent with
  | KBuy =>
      let nextTotal := (totalUsdRaised st + amountPerMessageUsd defaulted)%Q in
      let m := BuyMessage now nextTotal (tokensPerHundred defaulted) in
      if sendOk then
        let st := setTotalUsdRaised (setSentCount st (S (sentCount st))) nextTotal in
        (st, [Send index m; Log "INFO" "Buy sent"; Write st])
      else (st, [Send index m; Log "ERROR" "Send failed, will retry shortly"])
  | KCountdown | KStart =>
      let msg :=
        match text nextEvent, kind nextEvent with
        | None, KStart => Some LaunchText
        | t, _ => t
        end in
      let m := TextMessage (kind nextEvent) msg (image nextEvent) in
      if sendOk then
        let st := setSentCount st (S (sentCount st)) in
        (st, [Send index m; Log "INFO" "Event sent"; Write st])
      else (st, [Send index m; Log "ERROR" "Send failed, will retry shortly"])
  | KOther _ =>
      let st := setSentCount st (S (sentCount st)) in
      (st, [Write st])
  end.

(** One run of [sendNextIfDue] at the corrected time [now]: the new
    value of [state] and the trace. *)
Definition sendNextIfDue (defaulted : Config) (now : Z) (sendOk : bool)
    (st : State) : State * list Effect :=
  if completed st then (st, [])
  else if decide (length (schedule st) <= sentCount st)%nat then
    let st := setCompleted st true in
    (st, [Write st; Log "INFO" "All messages sent"])
  else
    match schedule st !! sentCount st with
    | None => (st, [])
    | Some nextRaw =>
        let nextEvent := itemEvent nextRaw in
        let msUntil := itemAt nextRaw - now in
        match skipStale (length (schedule st) - sentCount st) now st
                nextEvent msUntil [] with
        | AllSent st tr => (st, tr)
        | Head st nextEvent msUntil tr =>
            if decide (msUntil <= 0) then
              let '(st', tr') := deliver defaulted now sendOk st nextEvent in
              (st', tr ++ tr' ++ [SetTimeout 1000])
            else
              (st, tr ++ [Log "INFO" "Waiting for next event";
                          SetTimeout (Z.min msUntil 5000)])
        end
    end.

(** The state built when the schedule is generated; [configSig] is the
    constant of that name in [main], [getConfigSignature(defaulted)]. *)
Definition freshState (configSig : Signature) (defaulted : Config)
    (entries : list Event) (effectiveEnd : Z) : State :=
  mkState configSig (ItemEvent <$> entries) effectiveEnd
          0 (startRaisedUsd defaulted) false.

(** The part of [main] that reads the state file and decides whether to
    regenerate; [persisted] is what [readJsonFile(STATE_FILE, null)]
    returned.  The two signatures are compared as strings. *)
Definition loadOrGenerate (configSig : Signature) (defaulted : Config)
    (shuffle : list nat → list nat) (persisted : option State)
  : M (State * list Effect) :=
  let regenerate :=
    let* (entries, effectiveEnd) := generateFullSchedule defaulted shuffle in
    let state := freshState configSig defaulted entries effectiveEnd in
    ret (state, [Write state; Log "INFO" "Planned schedule"]) in
  match persisted with
  | Some state =>
      if bool_decide (configSignature state ≠ configSig) then regenerate
      else ret (state, [])
  | None => regenerate
  end.

(** The block guarded by [defaulted.enforceHardStopAtEnd]. *)
Definition hardStop (defaulted : Config) (st : State) : State * list Effect :=
  if enforceHardStopAtEnd defaulted then
    let endTs := endTimeUtc defaulted in
    let st := setSchedule st (filter (λ item, itemAt item <= endTs) (schedule st)) in
    (st, [Write st])
  else (st, []).

(** [main] from the reading of the state file to the first call of
    [sendNextIfDue]. *)
Definition startup (configSig : Signature) (defaulted : Config)
    (shuffle : list nat → list nat) (persisted : option State)
  : M (State * list Effect) :=
  let* (st, tr) := loadOrGenerate configSig defaulted shuffle persisted in
  let '(st', tr') := hardStop defaulted st in
  ret (st', tr ++ tr').

(** The states written to the state file by a trace. *)
Definition writes (tr : list Effect) : list State :=
  omap (λ e, match e with Write st => Some st | _ => None end) tr.

(** The calls of the notifier made by a trace: the index of the entry
    and the message. *)
Definition sends (tr : list Effect) : list (nat * Message) :=
  omap (λ e, match e with Send i m => Some (i, m) | _ => None end) tr.

(** The kinds the generator produces. *)
Definition knownKind (k : Kind) : Prop :=
  match k with
  | KOther _ => False
  | _ => True
  end.

#[global] Instance knownKind_dec (k : Kind) : Decision (knownKind k).
Proof. destruct k; simpl; apply _. Defined.

(** The timers armed by a trace. *)
Definition timers (tr : list Effect) : list Z :=
  omap (λ e, match e with SetTimeout ms => Some ms | _ => None end) tr.

(** The states of a deployment run under one configuration, across
    restarts: [loaded] are the values of [state] once the state file has
    been read or the schedule generated, [running] the values the delivery
    loop sees (after the hard stop of the startup), [persisted] the
    contents of the state file. *)
Inductive loaded (configSig : Signature) (defaulted : Config) : State → Prop :=
  | loaded_fresh entries effectiveEnd :
      loaded configSig defaulted (freshState configSig defaulted entries effectiveEnd)
  | loaded_resume st :
      persisted configSig defaulted st → loaded configSig defaulted st
with running (configSig : Signature) (defaulted : Config) : State → Prop :=
  | running_start st :
      loaded configSig defaulted st → running configSig defaulted (hardStop defaulted st).1
  | running_tick st now sendOk :
      running configSig defaulted st →
      running configSig defaulted (sendNextIfDue defaulted now sendOk st).1
with persisted (configSig : Signature) (defaulted : Config) : State → Prop :=
  | persisted_fresh entries effectiveEnd :
      persisted configSig defaulted (freshState configSig defaulted entries effectiveEnd)
  | persisted_hardStop st s :
      loaded configSig defaulted st → s ∈ writes (hardStop defaulted st).2 →
      persisted configSig defaulted s
  | persisted_tick st now sendOk s :
      running configSig defaulted st →
      s ∈ writes (sendNextIfDue defaulted now sendOk st).2 →
      persisted configSig defaulted s.

Scheme loaded_mut := Minimality for loaded Sort Prop
  with running_mut := Minimality for running Sort Prop
  with persisted_mut := Minimality for persisted Sort Prop.

Combined Scheme runs_mutind from loaded_mut, running_mut, persisted_mut.

(** [ev] and [msUntil] describe the entry under the cursor. *)
Definition headOf (now : Z) (st : State) (ev : Event) (msUntil : Z) : Prop :=
  ∃ item, schedule st !! sentCount st = Some item
          ∧ at_ ev = itemAt item
          ∧ kind ev = kind (itemEvent item)
          ∧ msUntil = itemAt item - now.

(** An entry is stale when it is more than 30 seconds in the past. *)
Definition stale (now : Z) (item : Item) : Prop :=
  itemAt item - now < - MAX_ALLOWED_DELAY_MS.

(** Two states agree on everything but the cursor and the flag. *)
Definition sameData (a b : State) : Prop :=
  configSignature b = configSignature a
  ∧ schedule b = schedule a
  ∧ effectiveEnd b = effectiveEnd a
  ∧ totalUsdRaised b = totalUsdRaised a.

(** The cursor is within the schedule, and the flag is set only at its end. *)
Definition cursorOk (st : State) : Prop :=
  (sentCount st <= length (schedule st))%nat
  ∧ (completed st = true → sentCount st = length (schedule st)).

(** The effects the skipping loop may have, started in [st]. *)
Definition skipEffect (st : State) (e : Effect) : Prop :=
  match e with
  | Log _ _ => True
  | Write s => sameData st s ∧ (sentCount st < sentCount s)%nat ∧ cursorOk s
  | Send _ _ => False
  | SetTimeout _ => False
  end.

(** What the skipping loop does between the state [st] it starts in and
    the state [st'] it leaves: only the cursor moves, over stale entries,
    and the last state written is the one left. *)
Record SkipSpec (now : Z) (st st' : State) (tr : list Effect) : Prop := mkSkipSpec {
  ss_data : sameData st st';
  ss_count : (sentCount st <= sentCount st' <= length (schedule st))%nat;
  ss_effects : Forall (skipEffect st) tr;
  ss_skipped : ∀ j item, (sentCount st <= j < sentCount st')%nat →
                 schedule st !! j = Some item → stale now item;
  ss_last : last (st :: writes tr) = Some st'
}.

(** How a run leaves the skipping loop and what follows. *)
Definition afterSkip (defaulted : Config) (now : Z) (sendOk : bool) (r : SkipResult)
  : State * list Effect :=
  match r with
  | AllSent st tr => (st, tr)
  | Head st nextEvent msUntil tr =>
      if decide (msUntil <= 0) then
        let '(st', tr') := deliver defaulted now sendOk st nextEvent in
        (st', tr ++ tr' ++ [SetTimeout 1000])
      else
        (st, tr ++ [Log "INFO" "Waiting for next event";
                    SetTimeout (Z.min msUntil 5000)])
  end.

(** No entry lies after the end when the hard stop is on. *)
Definition pruned (defaulted : Config) (st : State) : Prop :=
  enforceHardStopAtEnd defaulted = true →
  Forall (λ item, itemAt item <= endTimeUtc defaulted) (schedule st).

(** What holds of a state in memory before the hard stop and of a state
    in the file: the cursor is fine, and the schedule has been cut or
    the state is a fresh one. *)
Definition storedOk (defaulted : Config) (st : State) : Prop :=
  cursorOk st
  ∧ (pruned defaulted st ∨ (sentCount st = 0%nat ∧ completed st = false)).

End Delivery.

(** ** Concrete inputs used in examples *)

Module Examples.
Import Delivery FullSchedule.

(** 2025-08-12T22:00:00Z, a Tuesday. *)
Definition tuesday22h : Z := 1755036000000.

(** Two hours, 20 messages of 100 USD, at most 10 an hour. *)
Definition smallConfig : Config :=
  mkConfig tuesday22h (tuesday22h + 2 * 3600000) 2000 100 1 10 714.28 0 false None.

(** The object [defaulted] that [smallConfig] is read from. *)
Definition smallRaw : ConfigMerge.Defaulted :=
  ConfigMerge.mkDefaulted
    (ConfigMerge.VString "2025-08-12T22:00:00Z") (ConfigMerge.VString "2025-08-13T00:00:00Z")
    (ConfigMerge.VNumber 2000) (ConfigMerge.VNumber 100)
    (ConfigMerge.VNumber 1) (ConfigMerge.VNumber 10)
    (ConfigMerge.VNumber 714.28) (ConfigMerge.VNumber 0) (ConfigMerge.VBool false)
    (ConfigMerge.VString "token") (ConfigMerge.VString "channel")
    ConfigMerge.VUndefined.

(** The same configuration with the start spelled with milliseconds. *)
Definition respelledRaw : ConfigMerge.Defaulted :=
  ConfigMerge.mkDefaulted
    (ConfigMerge.VString "2025-08-12T22:00:00.000Z") (ConfigMerge.VString "2025-08-13T00:00:00Z")
    (ConfigMerge.VNumber 2000) (ConfigMerge.VNumber 100)
    (ConfigMerge.VNumber 1) (ConfigMerge.VNumber 10)
    (ConfigMerge.VNumber 714.28) (ConfigMerge.VNumber 0) (ConfigMerge.VBool false)
    (ConfigMerge.VString "token") (ConfigMerge.VString "channel")
    ConfigMerge.VUndefined.

(** A stand-in for [JSON.stringify] in the examples: it prints the
    strings among the properties of an object, each followed by a
    semicolon. *)
Definition stringsOf (v : ConfigMerge.JsValue) : string :=
  match v with
  | ConfigMerge.VObject properties =>
      foldr (λ kv acc, match kv.2 with
                       | ConfigMerge.VString s => s +:+ ";" +:+ acc
                       | _ => acc
                       end) ""%string properties
  | _ => ""%string
  end.

Definition smallSig : Signature := getConfigSignature stringsOf smallRaw.

(** A state with one buy at instant 0 and one at 100 s, cursor at 0. *)
Definition twoBuys : State :=
  freshState smallSig smallConfig [buyEvent 0; buyEvent 100000] 3600000.

(** The special phase with a burst of 100 buys in one minute, for a
    total of 50 messages. *)
Definition burstPhase : SpecialPhase := mkSpecialPhase true 0 tuesday22h 1 100.

Definition burstConfig : Config :=
  mkConfig tuesday22h (tuesday22h + 2 * 3600000) 5000 100 1 10 714.28 0 false
           (Some burstPhase).

(** The special phase without a burst, and a total of 3 messages in
    the hour after the launch. *)
Definition countdownPhase : SpecialPhase := mkSpecialPhase true 0 tuesday22h 10 0.

Definition countdownConfig : Config :=
  mkConfig tuesday22h (tuesday22h + 3600000) 300 100 1 10 714.28 0 false
           (Some countdownPhase).

(** Draws for [countdownConfig]: the noise of the single hour, then
    three seconds of that hour (360, 1800 and 3240). *)
Definition countdownDraws : Random.Rng := [0.5; 0.1; 0.5; 0.9]%Q.

(** Draws for [smallConfig]: the noise of the two hours (1.17 and 0.93),
    then the seconds 0 .. 10 of the first hour and 0 .. 8 of the
    second. *)
Definition smallDraws : Random.Rng :=
  [0.9; 0.1]%Q
  ++ ((λ k, inject_Z k / 3600)%Q <$> seqZ 0 11)
  ++ ((λ k, inject_Z k / 3600)%Q <$> seqZ 0 9).

(** A state with a countdown entry at instant 0 and the start entry at
    100 s, cursor at 0. *)
Definition countdownThenStart : State :=
  freshState smallSig smallConfig
    [countdownEvent 60000 (1, "1.png"%string); startEvent 100000]
    3600000.

(** The state generated for a launch at [tuesday22h], before any run:
    the countdown entries and the start entry. *)
Definition atLaunch : State :=
  freshState "launch" countdownConfig
    ((countdownEvent tuesday22h <$> countdownMessages) ++ [startEvent tuesday22h])
    (tuesday22h + 3600000).

(** A state with a single buy at instant 0. *)
Definition oneBuy : State := freshState smallSig smallConfig [buyEvent 0] 3600000.

End Examples.

(** ** TimeSource: [initializeTimeOffset] and [getCurrentUtcTime] *)

Module TimeSource.

(** A JavaScript number that is an instant or a difference of instants. *)
Inductive JsNumber :=
  | Num (z : Z)
  | NaN.

Definition jsSub (a b : JsNumber) : JsNumber :=
  match a, b with
  | Num x, Num y => Num (x - y)
  | _, _ => NaN
  end.

Definition jsAdd (a b : JsNumber) : JsNumber :=
  match a, b with
  | Num x, Num y => Num (x + y)
  | _, _ => NaN
  end.

(** The values of [res.data.utc_datetime] followed here, in a body that
    was received: the service documents an ISO 8601 string; a body
    without the property, with null or with an integer number stands
    for the other JSON values, which [new Date] converts to a number
    in the same way. *)
Inductive DatetimeField :=
  | FieldUndefined            (* the body has no such property *)
  | FieldNull
  | FieldNumber (n : Z)
  | FieldString (s : string).

(** The greatest time value of a [Date]. *)
Definition maxTime : Z := 8640000000000000.

(** [new Date(value).getTime()]: a string is parsed ([parse] is
    [Date.parse], NaN when the string is not a date), anything else is
    converted to a number, undefined to NaN and null to 0. *)
Definition newDate (parse : string → JsNumber) (value : DatetimeField) : JsNumber :=
  match value with
  | FieldUndefined => NaN
  | FieldNull => Num 0
  | FieldNumber n => if decide (- maxTime <= n <= maxTime) then Num n else NaN
  | FieldString s => parse s
  end.

(** The outcomes of [axios.get(..., { timeout: 8000 })]. *)
Inductive Fetched :=
  | RequestFails                    (* timeout, network error, error status *)
  | NoBody                          (* res.data is null or undefined *)
  | Body (utc_datetime : DatetimeField).

(** A response as the service documents it. *)
Definition wellFormed (fetched : Fetched) : Prop :=
  ∃ s, fetched = Body (FieldString s).

(** [toISOString()] throws a RangeError on an invalid date. *)
Definition toISOString (t : JsNumber) : option Z :=
  match t with
  | Num z => Some z
  | NaN => None
  end.

(** The module variable [timeOffset]: [None] is [null]. *)
Definition TimeOffset : Type := option JsNumber.

(** [initializeTimeOffset()], given the local clock at the call and the
    outcome of the request: the new [timeOffset] and the levels of the
    lines logged.  The success line calls [internetTime.toISOString()],
    which throws on an invalid date: the [catch] then takes over. *)
Definition initializeTimeOffset (parse : string → JsNumber) (systemTime : Z)
    (fetched : Fetched) (timeOffset : TimeOffset) : TimeOffset * list string :=
  match timeOffset with
  | Some _ => (timeOffset, [])
  | None =>
      let fallback := (Some (Num 0), ["INFO"; "INFO"; "WARN"; "WARN"]%string) in
      match fetched with
      | RequestFails => fallback
      | NoBody => fallback
      | Body utc_datetime =>
          let internetTime := newDate parse utc_datetime in
          let timeOffset := Some (jsSub internetTime (Num systemTime)) in
          match toISOString internetTime with
          | Some _ => (timeOffset, ["INFO"; "INFO"; "INFO"]%string)
          | None => fallback
          end
      end
  end.

(** [getCurrentUtcTime()], given [Date.now()]: [None] when it throws. *)
Definition getCurrentUtcTime (dateNow : Z) (timeOffset : TimeOffset)
  : option JsNumber :=
  match timeOffset with
  | None => None
  | Some offset => Some (jsAdd (Num dateNow) offset)
  end.

(** A run calls [initializeTimeOffset] some number of times. *)
Definition initializeAll (parse : string → JsNumber) (calls : list (Z * Fetched))
    (timeOffset : TimeOffset) : TimeOffset :=
  foldl (λ off c, (initializeTimeOffset parse c.1 c.2 off).1) timeOffset calls.

(** The offset a first call of [initializeTimeOffset] settles on. *)
Definition settledOffset (parse : string → JsNumber) (systemTime : Z)
    (fetched : Fetched) : Z :=
  match fetched with
  | Body utc_datetime =>
      match newDate parse utc_datetime with
      | Num internetTime => internetTime - systemTime
      | NaN => 0
      end
  | _ => 0
  end.

End TimeSource.

(** ** The state file: [writeJsonFile] *)

Module Fs.

Inductive FsOp :=
  | WriteFileSync (path data : string)
  | RenameSync (oldPath newPath : string).

(** [writeJsonFile(filePath, data)]; [json] is [JSON.stringify(data, null, 2)]. *)
Definition writeJsonFile (filePath json : string) : list FsOp :=
  [WriteFileSync filePath json].

(** The files of the data directory. *)
Abbreviation Files := (gmap string string).

(** All the prefixes of a string, shortest first. *)
Fixpoint prefixes (s : string) : list string :=
  match s with
  | EmptyString => [EmptyString]
  | String c s' => EmptyString :: (String c <$> prefixes s')
  end.

(** The file system after an operation has completed. *)
Definition runOp (op : FsOp) (fs : Files) : Files :=
  match op with
  | WriteFileSync path data => <[path := data]> fs
  | RenameSync oldPath newPath =>
      match fs !! oldPath with
      | Some d => <[newPath := d]> (delete oldPath fs)
      | None => fs
      end
  end.

(** The file systems a crash in the middle of an operation can leave:
    [writeFileSync] opens the file with flag [w], which truncates it,
    and then writes the data from the front; a rename is atomic. *)
Definition crashedIn (op : FsOp) (fs : Files) : list Files :=
  match op with
  | WriteFileSync path data => (λ d, <[path := d]> fs) <$> prefixes data
  | RenameSync _ _ => []
  end.

(** The file systems a crash at any point of a sequence of operations can
    leave, the start and the end included. *)
Fixpoint crashStates (ops : list FsOp) (fs : Files) : list Files :=
  match ops with
  | [] => [fs]
  | op :: ops' => fs :: crashedIn op fs ++ crashStates ops' (runOp op fs)
  end.

(** A save is atomic when every crash leaves the complete old or the
    complete new content in the file. *)
Definition atomicSave (ops : list FsOp) (fs : Files) (path json : string) : Prop :=
  ∀ fs', fs' ∈ crashStates ops fs → fs' !! path = fs !! path ∨ fs' !! path = Some json.

(** Modelled from the spec: the save the design notes ask for, which the
    source does not contain: write a temporary file, then rename it over
    the state file. *)
Definition writeTempThenRename (filePath json : string) : list FsOp :=
  let tmp := (filePath +:+ ".tmp") in
  [WriteFileSync tmp json; RenameSync tmp filePath].

(** A data directory holding an earlier state. *)
Definition stateFile : string := "data/state.json".

Definition filesBefore : Files := {[ stateFile := "old-state"%string ]}.

End Fs.

(** ** Small utilities *)

Module Util.

(** [clamp(value, min, max)]: [Math.max(min, Math.min(max, value))]. *)
Definition clamp (value min max : Z) : Z := Z.max min (Z.min max value).

End Util.

(** ** The gaps [enforceUniqueIntervals] works on *)

Module IntervalGaps.
Import Intervals.

(** The gap, in whole seconds, between cell [i] and the cell before it:
    [Math.max(1, Math.round((times[i] - times[i - 1]) / 1000))]. *)
Definition gapAt (l : list Z) (i : nat) : option Z :=
  match l !! (i - 1)%nat, l !! i with
  | Some prev, Some curr => Some (gapSeconds curr prev)
  | _, _ => None
  end.

(** Invariant of the main loop on its three objects: [k] is the next
    index to visit and [orig] the array the function was called with.
    [usedIntervals] holds exactly the gaps of the cells visited, the
    cells not yet visited are untouched, and a visited cell was either
    left where it was or given a gap that no earlier cell has. *)
Record GapInv (orig : list Z) (k : nat) (l : Loop) : Prop := mkGapInv {
  gi_length : length (times l) = length orig;
  gi_rest : ∀ j, (k <= j)%nat → times l !! j = orig !! j;
  gi_used : ∀ g, g ∈ usedIntervals l
                 ↔ ∃ j, (1 <= j < k)%nat ∧ gapAt (times l) j = Some g;
  gi_fresh : ∀ i g, (1 <= i < k)%nat → gapAt (times l) i = Some g →
               (∀ j, (1 <= j < i)%nat → gapAt (times l) j ≠ Some g)
               ∨ times l !! i = orig !! i
}.

End IntervalGaps.

(** ** What the layout loop of [generateSchedule] does with a quota *)

Module Layout.

(** The number of instants [sampleUniqueSecondsWithinHour(quota)]
    returns: the quota, cut to the 3600 seconds of an hour, and nothing
    for a negative quota. *)
Definition laidOut (quota : Z) : Z := Z.max 0 (Z.min quota 3600).

(** The hour of index [h] of a schedule that starts at [start]. *)
Definition inHour (start h t : Z) : Prop :=
  start + h * 3600000 <= t < start + (h + 1) * 3600000.

End Layout.

(** ** The chain of runs *)

Module DeliveryLoop.
Import Delivery.

(** The runs of [sendNextIfDue] that follow one another through
    [setTimeout(sendNextIfDue, ...)]: each element of [ticks] is the
    corrected time at which a run reads the clock and whether the
    notifier accepts the message in that run.  A run that arms no timer
    is the last one. *)
Fixpoint sendLoop (defaulted : Config) (ticks : list (Z * bool)) (st : State)
  : State * list Effect :=
  match ticks with
  | [] => (st, [])
  | (now, sendOk) :: ticks' =>
      let '(st1, tr1) := sendNextIfDue defaulted now sendOk st in
      match timers tr1 with
      | [] => (st1, tr1)
      | _ :: _ =>
          let '(st2, tr2) := sendLoop defaulted ticks' st1 in
          (st2, tr1 ++ tr2)
      end
  end.

(** Every entry of the schedule is due (or overdue) at time [now]. *)
Definition allDue (now : Z) (st : State) : Prop :=
  Forall (λ item, itemAt item <= now) (schedule st).

End DeliveryLoop.

(** ** The figures of the purchase embed: [buildDiscordMessage] *)

Module Embed.

(** [Math.floor(nextTotalUsd / 100)]; the quotient is exact here, and
    what is stated of it below are bounds and order, which the rounded
    quotient of the code has as well. *)
Definition totalInvestors (nextTotalUsd : Q) : Z := Qfloor (nextTotalUsd / 100).

(** [totalInvestors * tokensPerHundred] *)
Definition totalTokensSold (nextTotalUsd tokensPerHundred : Q) : Q :=
  (inject_Z (totalInvestors nextTotalUsd) * tokensPerHundred)%Q.

(** [Math.max(0, 14000 - totalInvestors)] *)
Definition spotsRemaining (nextTotalUsd : Q) : Z :=
  Z.max 0 (14000 - totalInvestors nextTotalUsd).

End Embed.

(** ** The status endpoint of [main] *)

Module Status.
Import Delivery.

(** The object [resp] that a status request is answered with; its
    fields [totalUsdRaised], [sentCount], [completed], [effectiveEnd],
    [countdownStartUtc] and [presaleStartUtc] carry the prefix [resp]
    here. *)
Record StatusResp := mkStatusResp {
  respTotalUsdRaised : Q;
  respSentCount : nat;
  remaining : Z;
  respCompleted : bool;
  respEffectiveEnd : Z;
  nextAt : option Z;
  respCountdownStartUtc : option Z;
  respPresaleStartUtc : option Z
}.

Inductive Body :=
  | NoContent
  | StatusJson (resp : StatusResp)
  | ErrorJson (error : string).

(** What the handler of [http.createServer] answers: the status code of
    [res.writeHead] and the body of [res.end]. *)
Record Response := mkResponse {
  statusCode : Z;
  body : Body
}.

(** [url.startsWith('/status')] *)
Definition startsWith (url searchString : string) : bool :=
  String.prefix searchString url.

(** The request handler; [url] is [None] when [req.url] is undefined.
    [state] and [defaulted] are the variables of [main] at the time of
    the request.  On a state with all its fields nothing in the handler
    throws, so the answer 500 of the [catch] does not occur. *)
Definition handleRequest (defaulted : Config) (state : State)
    (method : string) (url : option string) : Response :=
  if bool_decide (method = "OPTIONS"%string) then mkResponse 204 NoContent
  else if bool_decide (method = "GET"%string)
          && match url with
             | Some u => bool_decide (u ≠ ""%string) && startsWith u "/status"
             | None => false
             end
  then
    let remaining :=
      Z.max 0 (Z.of_nat (length (schedule state)) - Z.of_nat (sentCount state)) in
    let firstPending :=
      if decide (sentCount state < length (schedule state))%nat then
        match schedule state !! sentCount state with
        | Some item => Some (itemAt item)
        | None => None
        end
      else None in
    mkResponse 200
      (StatusJson
         (mkStatusResp (totalUsdRaised state) (sentCount state) remaining
            (completed state) (effectiveEnd state) firstPending
            (match specialPhase defaulted with
             | Some sp => Some (countdownStartUtc sp)
             | None => None
             end)
            (match specialPhase defaulted with
             | Some sp => Some (presaleStartUtc sp)
             | None => None
             end)))
  else mkResponse 404 (ErrorJson "Not Found").

End Status.

(** ** The notifier: [sendDiscordMessage] *)

Module Notifier.

(** What a promise of the Discord client settles to and what the
    function throws. *)
Inductive JsError :=
  | Thrown (error : string)   (* an error raised by the client library *)
  | ChannelNotFound           (* new Error('Channel not found') *)
  | NullPermissions.          (* TypeError: [permissions] is null *)

Section Notifier.

(** The types of the message text, of an embed and of an attachment. *)
Variables Content Embed File : Type.

(** The object [messageOptions]; [None] is a key that was not set. *)
Record MessageOptions := mkMessageOptions {
  content : Content;
  embeds : option (list Embed);
  files : option (list File)
}.

(** The channel [client.channels.fetch] resolves to: [guild] is [None]
    for a channel outside a guild and otherwise holds what
    [channel.permissionsFor(botMember)] returns, [None] standing for
    null; [send] tells whether [channel.send] rejects, and with what. *)
Record Channel := mkChannel {
  guild : option (option (string → bool));
  send : MessageOptions → option string
}.

Inductive Fetch :=
  | FetchRejects (error : string)
  | FetchResolves (channel : option Channel).   (* [None] is a null channel *)

Inductive Effect :=
  | Log (level message : string)
  | ChannelSend (options : MessageOptions).

Inductive Outcome :=
  | Resolved
  | Rejected (error : JsError).

(** The [catch] block: one line logged, the error thrown again. *)
Definition failed (tr : list Effect) (error : JsError) : list Effect * Outcome :=
  (tr ++ [Log "ERROR" "Failed to send Discord message"], Rejected error).

Definition sendDiscordMessage (fetched : Fetch) (content : Content)
    (embeds : list Embed) (files : list File) : list Effect * Outcome :=
  let tr := [Log "INFO" "Attempting to fetch channel"] in
  match fetched with
  | FetchRejects error => failed tr (Thrown error)
  | FetchResolves None => failed tr ChannelNotFound
  | FetchResolves (Some channel) =>
      let tr := tr ++ [Log "INFO" "Channel found, checking permissions"] in
      match guild channel with
      | Some None => failed tr NullPermissions
      | g =>
          let tr :=
            match g with
            | Some _ => tr ++ [Log "INFO" "Bot permissions in channel"]
            | None => tr
            end in
          let messageOptions :=
            mkMessageOptions content
              (match embeds with [] => None | _ :: _ => Some embeds end)
              (match files with [] => None | _ :: _ => Some files end) in
          match send channel messageOptions with
          | Some error => failed (tr ++ [ChannelSend messageOptions]) (Thrown error)
          | None =>
              (tr ++ [ChannelSend messageOptions; Log "INFO" "Message sent successfully"],
               Resolved)
          end
      end
  end.

(** The calls of [channel.send] in a trace and its error lines. *)
Definition sent (tr : list Effect) : list MessageOptions :=
  omap (λ e, match e with ChannelSend o => Some o | _ => None end) tr.

Definition errorLines (tr : list Effect) : list string :=
  omap (λ e, match e with
             | Log level message =>
                 if bool_decide (level = "ERROR"%string) then Some message else None
             | _ => None
             end) tr.

End Notifier.

Arguments mkMessageOptions {Content Embed File}.
Arguments content {Content Embed File}.
Arguments embeds {Content Embed File}.
Arguments files {Content Embed File}.
Arguments mkChannel {Content Embed File}.
Arguments guild {Content Embed File}.
Arguments send {Content Embed File}.
Arguments FetchRejects {Content Embed File}.
Arguments FetchResolves {Content Embed File}.
Arguments Log {Content Embed File}.
Arguments ChannelSend {Content Embed File}.
Arguments sendDiscordMessage {Content Embed File}.
Arguments sent {Content Embed File}.
Arguments errorLines {Content Embed File}.

End Notifier.

(** ** Reading a JSON file: [readJsonFile] *)

Module JsonFile.
Import Fs.

(** U+FEFF as the three bytes it takes in a file in UTF-8; strings are
    sequences of bytes here. *)
Definition BOM : string :=
  String (Ascii.ascii_of_nat 239)
    (String (Ascii.ascii_of_nat 187) (String (Ascii.ascii_of_nat 191) EmptyString)).

(** [raw.replace(/^\uFEFF/, '')]: one mark at the front is removed. *)
Definition stripBom (raw : string) : string :=
  if String.prefix BOM raw then String.substring 3 (String.length raw - 3) raw
  else raw.

(** [readJsonFile(filePath, fallback)] on the files [fs]; [parse] is
    [JSON.parse], [None] when it throws.  Reading a file that does not
    exist throws as well, and every error ends in the fallback. *)
Definition readJsonFile {J : Type} (parse : string → option J) (fs : Files)
    (filePath : string) (fallback : J) : J :=
  match fs !! filePath with
  | Some raw =>
      match parse (stripBom raw) with
      | Some value => value
      | None => fallback
      end
  | None => fallback
  end.

End JsonFile.

(** ** The totals shown by the buy messages *)

Module DeliveryTotals.
Import Delivery.

(** The totals raised that the buy messages of a trace show, in the
    order of the calls of the notifier. *)
Definition buyTotals (tr : list Effect) : list Q :=
  omap (λ jm : nat * Message,
          match jm.2 with
          | BuyMessage _ nextTotalUsd _ => Some nextTotalUsd
          | TextMessage _ _ _ => None
          end) (sends tr).

(** The totals [n] buys in a row show, each the one before plus the
    amount of a message, added as the code adds them:
    [state.totalUsdRaised + defaulted.amountPerMessageUsd]. *)
Fixpoint runningTotals (total amount : Q) (n : nat) : list Q :=
  match n with
  | O => []
  | S n' => (total + amount)%Q :: runningTotals (total + amount)%Q amount n'
  end.

(** Every entry of the schedule has one of the kinds the generator
    produces. *)
Definition knownKinds (st : State) : Prop :=
  Forall (λ item, knownKind (kind (itemEvent item))) (schedule st).

End DeliveryTotals.

(** * Properties *)

Module JsFacts.
Import Js.

Lemma ceilDiv1000_ge d : d <= ceilDiv1000 d * 1000.
Proof.
  unfold ceilDiv1000.
  pose proof (Z.mul_div_le (- d) 1000 ltac:(lia)). lia.
Qed.

Lemma ceilDiv1000_nonneg d : 0 <= d -> 0 <= ceilDiv1000 d.
Proof.
  unfold ceilDiv1000. intros Hd.
  assert (- d / 1000 <= 0) by (apply Z.div_le_upper_bound; lia). lia.
Qed.

Lemma floorDiv1000_le d : floorDiv1000 d * 1000 <= d.
Proof.
  unfold floorDiv1000.
  pose proof (Z.mul_div_le d 1000 ltac:(lia)). lia.
Qed.

Lemma ceilDiv_ge a b : 0 < b -> a <= ceilDiv a b * b.
Proof.
  unfold ceilDiv. intros Hb.
  pose proof (Z.mul_div_le (- a) b Hb). lia.
Qed.

End JsFacts.

(** ** Facts about [enforceUniqueIntervals] *)

Module IntervalsFacts.
Import Intervals.

Lemma floorToHourTs_bounds t :
  floorToHourTs t <= t < floorToHourTs t + 3600000.
Proof.
  unfold floorToHourTs.
  pose proof (Z.mul_div_le t 3600000 ltac:(lia)).
  pose proof (Z.mul_succ_div_gt t 3600000 ltac:(lia)). lia.
Qed.

Lemma floorToHourTs_offset t d :
  0 <= d < 3600000 → floorToHourTs (floorToHourTs t + d) = floorToHourTs t.
Proof.
  intros Hd. unfold floorToHourTs.
  rewrite Z.add_comm, Z.div_add by lia.
  rewrite (Z.div_small d) by lia. lia.
Qed.

Lemma secondOfHour_bounds t :
  0 <= secondOfHour t <= 3599
  ∧ floorToHourTs t + secondOfHour t * 1000 <= t
  ∧ t < floorToHourTs t + secondOfHour t * 1000 + 1000.
Proof.
  unfold secondOfHour, Js.floorDiv1000.
  pose proof (floorToHourTs_bounds t) as Hb.
  set (d := t - floorToHourTs t) in *.
  assert (0 <= d < 3600000) as Hd by lia.
  pose proof (Z.mul_div_le d 1000 ltac:(lia)).
  pose proof (Z.mul_succ_div_gt d 1000 ltac:(lia)).
  assert (0 <= d / 1000) by (apply Z.div_pos; lia).
  assert (d / 1000 < 3600) by (apply Z.div_lt_upper_bound; lia).
  lia.
Qed.

Lemma firstAcceptable_Some used usedSecs hourStart prev cands ts d :
  firstAcceptable used usedSecs hourStart prev cands = Some (ts, d) →
  ∃ c, c ∈ cands ∧ ts = hourStart + c * 1000.
Proof.
  induction cands as [|c cs IH]; simpl; [done|].
  destruct (acceptable used usedSecs hourStart prev c) as [[ts' d']|] eqn:Hacc.
  - intros [= -> ->]. exists c. split; [left|].
    unfold acceptable in Hacc. repeat case_decide; congruence.
  - intros H. destruct (IH H) as (c' & Hin & Hts). exists c'. split; [by right|done].
Qed.

Lemma candidatesAt_spec baseSec lbSec ubSec r c :
  1 <= r → c ∈ candidatesAt baseSec lbSec ubSec r →
  (baseSec < c ∧ c <= ubSec) ∨ (lbSec <= c ∧ c < baseSec).
Proof.
  intros Hr. unfold candidatesAt. rewrite elem_of_app.
  intros [H|H]; case_decide; try (by apply elem_of_nil in H);
    apply list_elem_of_singleton in H; subst; lia.
Qed.

Lemma radiusCandidates_spec baseSec lbSec ubSec c :
  c ∈ radiusCandidates baseSec lbSec ubSec →
  (baseSec < c ∧ c <= ubSec) ∨ (lbSec <= c ∧ c < baseSec).
Proof.
  unfold radiusCandidates. rewrite list_elem_of_In, in_concat.
  intros (cs & Hcs & Hc). apply in_map_iff in Hcs as (r & <- & Hr).
  apply list_elem_of_In, elem_of_seqZ in Hr.
  apply (candidatesAt_spec _ _ _ r); [lia|]. by apply list_elem_of_In.
Qed.

Lemma scanCandidates_spec lbSec ubSec c :
  c ∈ scanCandidates lbSec ubSec → lbSec <= c <= ubSec.
Proof. unfold scanCandidates. rewrite elem_of_seqZ. lia. Qed.

(** What one iteration does to the array: nothing, or cell [i] moves to
    an instant of the same hour strictly between its two neighbours. *)
Lemma relocate_times l i prev curr :
  (1 <= i)%nat →
  times l !! (i - 1)%nat = Some prev →
  times l !! i = Some curr →
  prev <= curr →
  (∀ next, times l !! S i = Some next → curr <= next) →
  times (relocate l i) = times l
  ∨ ∃ c, times (relocate l i) = <[i := c]> (times l)
         ∧ prev < c
         ∧ (∀ next, times l !! S i = Some next → c < next)
         ∧ floorToHourTs c = floorToHourTs curr.
Proof.
  intros Hi Hprev Hcurr Hle Hnext.
  unfold relocate. rewrite Hprev, Hcurr.
  replace (i + 1)%nat with (S i) by lia.
  case_decide as Hused; [|by left].
  set (hourStart := floorToHourTs curr).
  set (lowerBound := Z.max hourStart (prev + 1000)).
  set (upperBound := match times l !! S i with
                     | Some next => Z.min (hourStart + 3600000 - 1) (next - 1000)
                     | None => hourStart + 3600000 - 1
                     end).
  case_decide as Hbounds; [by left|].
  set (usedSecs := default ∅ (hourToSeconds l !! hourStart) ∖ {[secondOfHour curr]}).
  set (lbSec := Js.ceilDiv1000 (lowerBound - hourStart)).
  set (ubSec := Js.floorDiv1000 (upperBound - hourStart)).
  pose proof (secondOfHour_bounds curr) as (Hsec & Hlo & Hhi).
  fold hourStart in Hlo, Hhi.
  pose proof (JsFacts.ceilDiv1000_ge (lowerBound - hourStart)) as Hlb.
  pose proof (JsFacts.ceilDiv1000_nonneg (lowerBound - hourStart) ltac:(lia)) as Hlb0.
  pose proof (JsFacts.floorDiv1000_le (upperBound - hourStart)) as Hub.
  fold lbSec in Hlb, Hlb0. fold ubSec in Hub.
  assert (upperBound <= hourStart + 3599999) as Hub1
    by (unfold upperBound; destruct (times l !! S i); lia).
  assert (∀ next, times l !! S i = Some next → upperBound <= next - 1000) as Hub2
    by (intros next Hn; unfold upperBound; rewrite Hn; lia).
  assert (∀ c, ((secondOfHour curr < c ∧ c <= ubSec) ∨ (lbSec <= c ∧ c < secondOfHour curr)
                ∨ (lbSec <= c <= ubSec)) →
               prev < hourStart + c * 1000
               ∧ (∀ next, times l !! S i = Some next → hourStart + c * 1000 < next)
               ∧ floorToHourTs (hourStart + c * 1000) = hourStart) as Hgood.
  { intros c Hc. split; [|split].
    - lia.
    - intros next Hn. specialize (Hnext next Hn). specialize (Hub2 next Hn). lia.
    - unfold hourStart. apply floorToHourTs_offset. fold hourStart. lia. }
  destruct (firstAcceptable _ usedSecs hourStart prev (radiusCandidates _ lbSec ubSec))
    as [[ts d]|] eqn:Hradius.
  { right. exists ts. simpl. split; [done|].
    apply firstAcceptable_Some in Hradius as (c & Hc & ->).
    apply radiusCandidates_spec in Hc. apply Hgood. tauto. }
  destruct (firstAcceptable _ usedSecs hourStart prev (scanCandidates lbSec ubSec))
    as [[ts d]|] eqn:Hscan.
  { right. exists ts. simpl. split; [done|].
    apply firstAcceptable_Some in Hscan as (c & Hc & ->).
    apply scanCandidates_spec in Hc. apply Hgood. tauto. }
  left. simpl. by apply list_insert_id.
Qed.

Lemma relocate_out_of_range l i :
  (length (times l) <= i)%nat → relocate l i = l.
Proof.
  intros Hlen. unfold relocate.
  rewrite (lookup_ge_None_2 (times l) i) by done.
  by destruct (times l !! (i - 1)%nat).
Qed.

Lemma Inv_init orig : sortedTimes orig → Inv orig 1 orig.
Proof. intros Hs. split; try done. Qed.

Lemma Inv_mono orig k l : Inv orig k l → Inv orig (S k) l.
Proof. intros [H1 H2 H3 H4 H5]. split; try done. intros j Hj. apply H4. lia. Qed.

Lemma Inv_step orig k l :
  (1 <= k)%nat → Inv orig k (times l) → Inv orig (S k) (times (relocate l k)).
Proof.
  intros Hk HI. pose proof HI as [Hlen Hsorted Hhours Hrest Hstrict].
  destruct (decide (k < length (times l))%nat) as [Hlt|Hge];
    [|rewrite relocate_out_of_range by lia; by apply Inv_mono].
  destruct (lookup_lt_is_Some_2 (times l) k Hlt) as [curr Hcurr].
  destruct (lookup_lt_is_Some_2 (times l) (k - 1) ltac:(lia)) as [prev Hprev].
  assert (prev <= curr) as Hle.
  { apply (Hsorted (k - 1)%nat); [done|]. by replace (S (k - 1)) with k by lia. }
  destruct (relocate_times l k prev curr Hk Hprev Hcurr Hle) as [->|(c & -> & Hpc & Hcn & Hh)];
    [by intros next; apply Hsorted| by apply Inv_mono |].
  split.
  - by rewrite length_insert.
  - intros i a b Ha Hb.
    destruct (decide (i = k)) as [->|Hik].
    + rewrite list_lookup_insert_eq in Ha by done.
      rewrite list_lookup_insert_ne in Hb by lia.
      injection Ha as <-. specialize (Hcn b Hb). lia.
    + rewrite list_lookup_insert_ne in Ha by done.
      destruct (decide (S i = k)) as [<-|HSik].
      * rewrite list_lookup_insert_eq in Hb by done. injection Hb as <-.
        replace (S i - 1)%nat with i in Hprev by lia. simplify_eq. lia.
      * rewrite list_lookup_insert_ne in Hb by done. by apply (Hsorted i).
  - rewrite list_fmap_insert, Hh. rewrite list_insert_id; [done|].
    by rewrite list_lookup_fmap, Hcurr.
  - intros j Hj. rewrite list_lookup_insert_ne by lia. apply Hrest. lia.
  - intros j Hj b Hb.
    destruct (decide (j = k)) as [->|Hjk].
    + rewrite list_lookup_insert_eq in Hb by done. injection Hb as <-.
      split.
      * intros p _ Hp. rewrite list_lookup_insert_ne in Hp by lia. simplify_eq. lia.
      * intros n Hn. rewrite list_lookup_insert_ne in Hn by lia. by apply Hcn.
    + rewrite list_lookup_insert_ne in Hb, Hj by done.
      destruct (Hstrict j Hj b Hb) as [Hp Hn].
      assert (j < k)%nat as Hjlt.
      { destruct (decide (j < k)%nat); [done|]. destruct Hj. apply Hrest. lia. }
      split.
      * intros p Hj1 Hp'. rewrite list_lookup_insert_ne in Hp' by lia. by apply Hp.
      * intros n Hn'. destruct (decide (S j = k)) as [<-|HSjk].
        -- rewrite list_lookup_insert_eq in Hn' by done. injection Hn' as <-.
           replace (S j - 1)%nat with j in Hprev by lia. simplify_eq. lia.
        -- rewrite list_lookup_insert_ne in Hn' by done. by apply Hn.
Qed.

Lemma Inv_loop orig n k l :
  (1 <= k)%nat → Inv orig k (times l) →
  Inv orig (k + n) (times (foldl relocate l (seq k n))).
Proof.
  revert k l. induction n as [|n IH]; intros k l Hk HI; simpl.
  - by replace (k + 0)%nat with k by lia.
  - replace (k + S n)%nat with (S k + n)%nat by lia.
    apply IH; [lia|]. by apply Inv_step.
Qed.

(** The result of the whole function satisfies the invariant. *)
Lemma enforceUniqueIntervals_Inv orig :
  sortedTimes orig →
  ∃ k, Inv orig k (enforceUniqueIntervals orig).
Proof.
  intros Hs. unfold enforceUniqueIntervals. case_decide.
  - exists 1%nat. by apply Inv_init.
  - eexists. apply (Inv_loop orig _ 1 (mkLoop orig _ _)); [lia|]. by apply Inv_init.
Qed.

Lemma relocate_loop_length ks l :
  length (times (foldl relocate l ks)) = length (times l).
Proof.
  revert l. induction ks as [|k ks IH]; intros l; simpl; [done|].
  rewrite IH. unfold relocate.
  destruct (times l !! (k - 1)%nat), (times l !! k); try done.
  repeat case_decide; simpl; try done. by rewrite length_insert.
Qed.

Lemma enforceUniqueIntervals_length orig :
  length (enforceUniqueIntervals orig) = length orig.
Proof.
  unfold enforceUniqueIntervals. case_decide; [done|].
  by rewrite relocate_loop_length.
Qed.

Lemma relocate_loop_head ks l :
  Forall (λ k, 1 <= k)%nat ks →
  times (foldl relocate l ks) !! 0%nat = times l !! 0%nat.
Proof.
  revert l. induction ks as [|k ks IH]; intros l Hks; simpl; [done|].
  apply Forall_cons in Hks as [Hk Hks]. rewrite IH by done. unfold relocate.
  destruct (times l !! (k - 1)%nat), (times l !! k); try done.
  repeat case_decide; simpl; try done. by rewrite list_lookup_insert_ne by lia.
Qed.

(** The first cell is never moved. *)
Lemma enforceUniqueIntervals_head orig :
  enforceUniqueIntervals orig !! 0%nat = orig !! 0%nat.
Proof.
  unfold enforceUniqueIntervals. case_decide; [done|].
  rewrite relocate_loop_head; [done|].
  apply Forall_forall. intros k Hk. apply elem_of_seq in Hk. lia.
Qed.

(** C6. On a sorted sequence of instants [enforceUniqueIntervals] is
    total and returns a sequence of the same length, still sorted
    non-decreasing, in which every instant is in the hour bucket it had
    in the input, and every instant that was moved lies strictly between
    its two neighbours.  When no free slot exists the instant is kept
    (the duplicate gap is accepted): nothing is dropped and the function
    does not fail. *)
Theorem C6_enforceUniqueIntervals_keeps_count_order_and_hours (orig : list Z) :
  sortedTimes orig →
  length (enforceUniqueIntervals orig) = length orig
  ∧ sortedTimes (enforceUniqueIntervals orig)
  ∧ floorToHourTs <$> enforceUniqueIntervals orig = floorToHourTs <$> orig
  ∧ ∀ j, enforceUniqueIntervals orig !! j ≠ orig !! j →
         strictAt (enforceUniqueIntervals orig) j.
Proof.
  intros Hs. destruct (enforceUniqueIntervals_Inv orig Hs) as [k HI].
  split; [apply enforceUniqueIntervals_length|].
  split; [apply (inv_sorted _ _ _ HI)|].
  split; [apply (inv_hours _ _ _ HI)|apply (inv_strict _ _ _ HI)].
Qed.

(** Four events one second apart: the third has no free second between
    its neighbours and keeps the repeated gap; the fourth, the last one,
    is moved by a second. *)
Example enforceUniqueIntervals_keeps_a_gap_it_cannot_repair :
  enforceUniqueIntervals [0; 1000; 2000; 3000] = [0; 1000; 2000; 4000]
  ∧ gaps (enforceUniqueIntervals [0; 1000; 2000; 3000]) = [1; 1; 2].
Proof. split; by vm_compute. Qed.

Lemma sortedTimes_cons a b l : a <= b → sortedTimes (b :: l) → sortedTimes (a :: b :: l).
Proof.
  intros Hab Hs [|i] x y; simpl; intros Hx Hy.
  - by simplify_eq.
  - by apply (Hs i).
Qed.

Lemma sortedTimes_singleton a : sortedTimes [a].
Proof. intros [|i] x y; simpl; intros Hx Hy; by simplify_eq. Qed.

(** Five events one second apart: the last one is moved by a second,
    the gaps 1, 1, 1 that cannot be repaired are kept. *)
Lemma C6_witness :
  sortedTimes [0; 1000; 2000; 3000; 4000]
  ∧ enforceUniqueIntervals [0; 1000; 2000; 3000; 4000] = [0; 1000; 2000; 3000; 5000]
  ∧ length (enforceUniqueIntervals [0; 1000; 2000; 3000; 4000]) = 5%nat
  ∧ sortedTimes (enforceUniqueIntervals [0; 1000; 2000; 3000; 4000]).
Proof.
  assert (sortedTimes [0; 1000; 2000; 3000; 4000]) as Hs.
  { repeat (apply sortedTimes_cons; [lia|]). apply sortedTimes_singleton. }
  split; [exact Hs|]. split; [vm_compute; reflexivity|].
  destruct (C6_enforceUniqueIntervals_keeps_count_order_and_hours _ Hs) as (Hlen & Hsorted & _).
  split; [exact Hlen | exact Hsorted].
Defined.

End IntervalsFacts.

(** ** The time source *)

Module TimeSourceFacts.
Import TimeSource.

Lemma initializeTimeOffset_first parse systemTime fetched :
  (initializeTimeOffset parse systemTime fetched None).1
  = Some (Num (settledOffset parse systemTime fetched)).
Proof.
  destruct fetched as [| |value]; [done|done|].
  unfold initializeTimeOffset, settledOffset. by destruct (newDate parse value).
Qed.

Lemma initializeAll_settled parse calls offset :
  initializeAll parse calls (Some offset) = Some offset.
Proof. induction calls as [|c calls IH]; [done|]. simpl. apply IH. Qed.

(** C8, refuted as stated: not every response that is not the documented
    one leaves the offset at 0.  A body whose [utc_datetime] is null
    converts to the epoch, a valid date, and is taken as the reference
    time: with the local clock at 500 the offset is -500. *)
Lemma C8_counterexample :
  ¬ (∀ parse systemTime fetched,
       ¬ wellFormed fetched →
       (initializeTimeOffset parse systemTime fetched None).1 = Some (Num 0)).
Proof.
  intros Hzero.
  specialize (Hzero (λ _, NaN) 500 (Body FieldNull)).
  assert (¬ wellFormed (Body FieldNull)) as Hbad by (intros [s Hs]; discriminate Hs).
  by specialize (Hzero Hbad).
Qed.

(** C8, as the code has it.  Before [initializeTimeOffset] has run,
    [getCurrentUtcTime] throws.  The first call always settles
    [timeOffset] on a number.  It is 0 when the request fails, when the
    response has no body, and when [utc_datetime] does not convert to a
    valid date (it is absent, a number out of range, or a string that
    does not parse).  Whenever [utc_datetime] converts to a valid date
    the offset is that date minus the local clock, whether or not the
    response is the documented one: null counts as the epoch and a
    number as that many milliseconds.  Later calls never change the
    offset, so from then on [getCurrentUtcTime] returns the local clock
    plus that one offset. *)
Theorem C8_time_offset_fixed_after_first_initialize
    (parse : string → JsNumber) (systemTime dateNow : Z) (fetched : Fetched)
    (later : list (Z * Fetched)) :
  getCurrentUtcTime dateNow None = None
  ∧ (initializeTimeOffset parse systemTime RequestFails None).1 = Some (Num 0)
  ∧ (initializeTimeOffset parse systemTime NoBody None).1 = Some (Num 0)
  ∧ (∀ value, newDate parse value = NaN →
       (initializeTimeOffset parse systemTime (Body value) None).1 = Some (Num 0))
  ∧ (∀ value internetTime, newDate parse value = Num internetTime →
       (initializeTimeOffset parse systemTime (Body value) None).1
       = Some (Num (internetTime - systemTime)))
  ∧ newDate parse FieldUndefined = NaN
  ∧ newDate parse FieldNull = Num 0
  ∧ (initializeTimeOffset parse systemTime fetched None).1
    = Some (Num (settledOffset parse systemTime fetched))
  ∧ initializeAll parse later (initializeTimeOffset parse systemTime fetched None).1
    = Some (Num (settledOffset parse systemTime fetched))
  ∧ getCurrentUtcTime dateNow
      (initializeAll parse later (initializeTimeOffset parse systemTime fetched None).1)
    = Some (Num (dateNow + settledOffset parse systemTime fetched)).
Proof.
  rewrite !initializeTimeOffset_first, initializeAll_settled.
  split; [done|]. split; [done|]. split; [done|].
  split; [intros value Hnan; rewrite initializeTimeOffset_first; simpl; by rewrite Hnan|].
  split; [intros value t Ht; rewrite initializeTimeOffset_first; simpl; by rewrite Ht|].
  done.
Qed.

(** A documented response that parses to 1500, with the local clock at
    500: the offset is 1000. *)
Lemma C8_witness :
  let parse := λ _ : string, Num 1500 in
  newDate parse (FieldString "2025-08-12T22:00:00Z") = Num 1500
  ∧ (initializeTimeOffset parse 500 (Body (FieldString "2025-08-12T22:00:00Z")) None).1
    = Some (Num 1000).
Proof.
  intros parse. split; [reflexivity|].
  exact (proj1 (proj2 (proj2 (proj2 (proj2
           (C8_time_offset_fixed_after_first_initialize parse 500 0 RequestFails [])))))
           (FieldString "2025-08-12T22:00:00Z") 1500 eq_refl).
Defined.

End TimeSourceFacts.

(** ** The state file *)

Module FsFacts.
Import Fs.

Lemma prefixes_spec s d : d ∈ prefixes s → ∃ rest, s = (d +:+ rest).
Proof.
  revert d. induction s as [|c s IH]; intros d; simpl.
  - intros ->%list_elem_of_singleton. by exists EmptyString.
  - intros [->|Hd]%elem_of_cons; [by eexists|].
    apply list_elem_of_fmap in Hd as (d' & -> & Hd').
    destruct (IH d' Hd') as [rest ->]. by exists rest.
Qed.

Lemma prefixes_full s : s ∈ prefixes s.
Proof.
  induction s as [|c s IH]; simpl; [by left|].
  right. apply list_elem_of_fmap. by exists s.
Qed.

(** C9, refuted as stated: the save of the source is not atomic.  A crash
    while [writeFileSync] is writing the new state leaves the state file
    with the first four characters of it. *)
Lemma C9_counterexample :
  ¬ atomicSave (writeJsonFile stateFile "new-state") filesBefore stateFile "new-state".
Proof.
  intros Hatomic.
  assert (<[stateFile := "new-"%string]> filesBefore
            ∈ crashStates (writeJsonFile stateFile "new-state") filesBefore) as Hin.
  { simpl. do 5 right. left. }
  destruct (Hatomic _ Hin) as [H|H]; rewrite lookup_insert_eq in H.
  - unfold filesBefore in H. rewrite lookup_singleton_eq in H. discriminate H.
  - discriminate H.
Qed.

(** C9, as the code has it: [writeJsonFile] is one in-place
    [writeFileSync] on the state file itself, with no temporary file and
    no rename.  A crash during the save leaves the file with its old
    content or with a prefix of the new one (possibly empty or
    truncated); every other file is untouched, and a save that completes
    leaves the whole new content. *)
Theorem C9_writeJsonFile_writes_in_place (filePath json : string) (fs fs' : Files) :
  fs' ∈ crashStates (writeJsonFile filePath json) fs →
  writeJsonFile filePath json = [WriteFileSync filePath json]
  ∧ (fs' !! filePath = fs !! filePath
     ∨ ∃ d rest, json = (d +:+ rest) ∧ fs' !! filePath = Some d)
  ∧ (∀ other, other ≠ filePath → fs' !! other = fs !! other)
  ∧ foldl (λ f op, runOp op f) fs (writeJsonFile filePath json) !! filePath = Some json.
Proof.
  intros Hin. split; [done|]. simpl in Hin.
  rewrite app_nil_r in Hin || idtac.
  assert (fs' = fs ∨ (∃ d, d ∈ prefixes json ∧ fs' = <[filePath := d]> fs)) as Hcases.
  { apply elem_of_cons in Hin as [->|Hin]; [by left|].
    apply elem_of_app in Hin as [Hin|Hin].
    - apply list_elem_of_fmap in Hin as (d & -> & Hd). right. by exists d.
    - apply list_elem_of_singleton in Hin as ->. right. exists json.
      split; [apply prefixes_full|done]. }
  split; [|split].
  - destruct Hcases as [->|(d & Hd & ->)]; [by left|].
    right. destruct (prefixes_spec _ _ Hd) as [rest ->].
    exists d, rest. by rewrite lookup_insert_eq.
  - intros other Hne. destruct Hcases as [->|(d & Hd & ->)]; [done|].
    by rewrite lookup_insert_ne.
  - simpl. by rewrite lookup_insert_eq.
Qed.

Lemma C9_witness :
  <[stateFile := "new-"%string]> filesBefore
    ∈ crashStates (writeJsonFile stateFile "new-state") filesBefore
  ∧ (<[stateFile := "new-"%string]> filesBefore !! stateFile = filesBefore !! stateFile
     ∨ ∃ d rest, "new-state"%string = (d +:+ rest)
                 ∧ <[stateFile := "new-"%string]> filesBefore !! stateFile = Some d).
Proof.
  assert (<[stateFile := "new-"%string]> filesBefore
            ∈ crashStates (writeJsonFile stateFile "new-state") filesBefore) as Hin.
  { simpl. do 5 right. left. }
  split; [exact Hin|].
  exact (proj1 (proj2 (C9_writeJsonFile_writes_in_place _ _ _ _ Hin))).
Defined.

Lemma length_append (a b : string) :
  String.length (a +:+ b) = (String.length a + String.length b)%nat.
Proof. induction a as [|c a IH]; simpl; [done|]. by rewrite IH. Qed.

(** The save the design notes ask for would be atomic: the state file
    only ever changes through the rename. *)
Lemma writeTempThenRename_atomic filePath json fs :
  atomicSave (writeTempThenRename filePath json) fs filePath json.
Proof.
  assert ((filePath +:+ ".tmp") ≠ filePath) as Hne.
  { intros Heq. apply (f_equal String.length) in Heq.
    rewrite length_append in Heq. simpl in Heq. lia. }
  intros fs' Hin. unfold writeTempThenRename in Hin. simpl in Hin.
  rewrite lookup_insert_eq in Hin.
  apply elem_of_cons in Hin as [->|Hin]; [by left|].
  apply elem_of_app in Hin as [Hin|Hin].
  { apply list_elem_of_fmap in Hin as (d & -> & _). left. by rewrite lookup_insert_ne. }
  apply elem_of_cons in Hin as [->|Hin]; [left; by rewrite lookup_insert_ne|].
  apply list_elem_of_singleton in Hin as ->. right. by rewrite lookup_insert_eq.
Qed.

End FsFacts.

(** ** The delivery loop *)

Module DeliveryFacts.
Import Delivery.

Lemma skipStale_exit fuel now st ev ms tr :
  ¬ (ms < - MAX_ALLOWED_DELAY_MS ∧ (sentCount st < length (schedule st))%nat) →
  skipStale fuel now st ev ms tr = Head st ev ms tr.
Proof. intros Hc. destruct fuel; simpl; by case_decide. Qed.

Lemma skipStale_step fuel now st ev ms tr :
  ms < - MAX_ALLOWED_DELAY_MS → (sentCount st < length (schedule st))%nat →
  skipStale (S fuel) now st ev ms tr =
    let st1 := setSentCount st (S (sentCount st)) in
    let tr1 := (tr ++ [Log "WARN" "Skipping past event (too old)"]) ++ [Write st1] in
    if decide (length (schedule st1) <= sentCount st1)%nat then
      AllSent (setCompleted st1 true)
        (tr1 ++ [Write (setCompleted st1 true); Log "INFO" "All messages sent"])
    else
      match schedule st1 !! sentCount st1 with
      | Some nr =>
          skipStale fuel now st1
            (mkEvent (at_ (itemEvent nr)) (kind (itemEvent nr)) (text ev) (image ev))
            (itemAt nr - now) tr1
      | None => Head st1 ev ms tr1
      end.
Proof. intros Hms Hlt. simpl. case_decide; [done|tauto]. Qed.

Lemma at_itemEvent item : at_ (itemEvent item) = itemAt item.
Proof. by destruct item. Qed.

Lemma skipEffect_weaken st st1 e :
  sameData st st1 → (sentCount st <= sentCount st1)%nat →
  skipEffect st1 e → skipEffect st e.
Proof.
  intros (H1 & H2 & H3 & H4) Hle. destruct e as [s| | |]; simpl; try done.
  intros ((G1 & G2 & G3 & G4) & Hlt & Hok). split; [|split; [lia|done]].
  unfold sameData. by rewrite G1, G2, G3, G4.
Qed.

Lemma writes_app tr1 tr2 : writes (tr1 ++ tr2) = writes tr1 ++ writes tr2.
Proof. unfold writes. apply omap_app. Qed.

Lemma sends_app tr1 tr2 : sends (tr1 ++ tr2) = sends tr1 ++ sends tr2.
Proof. unfold sends. apply omap_app. Qed.

Lemma timers_app tr1 tr2 : timers (tr1 ++ tr2) = timers tr1 ++ timers tr2.
Proof. unfold timers. apply omap_app. Qed.

(** The loop only appends to the trace. *)
Lemma skipStale_spec_prefix fuel now st ev ms tr0 :
  ∃ tr1, match skipStale fuel now st ev ms tr0 with
         | AllSent _ tr => tr
         | Head _ _ _ tr => tr
         end = tr0 ++ tr1.
Proof.
  revert st ev ms tr0. induction fuel as [|fuel IH]; intros st ev ms tr0.
  - simpl. case_decide; exists []; by rewrite app_nil_r.
  - simpl. case_decide; [|exists []; by rewrite app_nil_r].
    case_decide; [eexists; by rewrite <- !app_assoc|].
    destruct (schedule _ !! _); [|eexists; by rewrite <- !app_assoc].
    edestruct IH as [tr1 ->]. eexists. by rewrite <- !app_assoc.
Qed.

(** What the skipping loop achieves, when the fuel covers the entries
    left: it stops either at the end of the schedule, with the flag set,
    or on an entry that is not stale; all it did was to move the cursor
    over stale entries, persisting each move. *)
Lemma skipStale_spec fuel now st ev ms tr0 :
  completed st = false →
  (length (schedule st) - sentCount st <= fuel)%nat →
  (sentCount st < length (schedule st))%nat →
  headOf now st ev ms →
  match skipStale fuel now st ev ms tr0 with
  | AllSent st' tr =>
      ∃ tr1, tr = tr0 ++ tr1 ∧ SkipSpec now st st' tr1
             ∧ sentCount st' = length (schedule st) ∧ completed st' = true
  | Head st' ev' ms' tr =>
      ∃ tr1, tr = tr0 ++ tr1 ∧ SkipSpec now st st' tr1
             ∧ completed st' = false
             ∧ (sentCount st' < length (schedule st))%nat
             ∧ headOf now st' ev' ms'
             ∧ - MAX_ALLOWED_DELAY_MS <= ms'
             ∧ text ev' = text ev ∧ image ev' = image ev
  end.
Proof.
  revert st ev ms tr0.
  induction fuel as [|fuel IH]; intros st ev ms tr0 Hcompl Hfuel Hlt Hhead; [lia|].
  destruct (decide (ms < - MAX_ALLOWED_DELAY_MS)) as [Hstale|Hfresh].
  2:{ rewrite skipStale_exit by tauto. exists []. rewrite app_nil_r.
      repeat split; try done; try lia. }
  rewrite skipStale_step by done. cbv zeta.
  set (st1 := setSentCount st (S (sentCount st))).
  assert (sameData st st1) as Hdata1 by done.
  destruct Hhead as (item0 & Hitem0 & _ & _ & Hms0).
  assert (∀ j item, (sentCount st <= j < sentCount st1)%nat →
            schedule st !! j = Some item → stale now item) as Hskip1.
  { intros j item Hj Hitem. simpl in Hj. assert (j = sentCount st) as -> by lia.
    rewrite Hitem0 in Hitem. injection Hitem as <-. unfold stale. lia. }
  case_decide as Hend.
  - eexists [_; _; _; _]. split; [by rewrite <- !app_assoc|].
    simpl in Hend. split; [|simpl; split; [lia|done]].
    split; simpl; try done; try lia.
    repeat constructor; simpl; try done; try lia.
  - simpl in Hend.
    destruct (schedule st1 !! sentCount st1) as [nr|] eqn:Hnr.
    2:{ apply lookup_ge_None in Hnr. simpl in Hnr. lia. }
    set (ev1 := mkEvent (at_ (itemEvent nr)) (kind (itemEvent nr)) (text ev) (image ev)).
    assert (headOf now st1 ev1 (itemAt nr - now)) as Hhead1.
    { exists nr. simpl. split; [done|]. by rewrite at_itemEvent. }
    specialize (IH st1 ev1 (itemAt nr - now)
                  ((tr0 ++ [Log "WARN" "Skipping past event (too old)"]) ++ [Write st1])
                  Hcompl ltac:(simpl; lia) ltac:(simpl; lia) Hhead1).
    assert (∀ st' tr1, SkipSpec now st1 st' tr1 →
              SkipSpec now st st'
                (Log "WARN" "Skipping past event (too old)" :: Write st1 :: tr1)) as Hlift.
    { intros st' tr1 [(D1 & D2 & D3 & D4) Hc He Hs Hl]. split.
      - done.
      - simpl in Hc. lia.
      - constructor; [done|]. constructor.
        + simpl. split; [done|]. split; [lia|]. split; simpl; [lia|congruence].
        + eapply Forall_impl; [exact He|]. intros e. apply skipEffect_weaken; [done|simpl; lia].
      - intros j item Hj Hitem.
        destruct (decide (j < sentCount st1)%nat) as [Hj1|Hj1].
        + apply (Hskip1 j); [lia|done].
        + apply (Hs j); [lia|done].
      - exact Hl. }
    destruct (skipStale fuel now st1 ev1 _ _) as [st' tr|st' ev' ms' tr].
    + destruct IH as (tr1 & -> & Hspec & Hcount & Hc).
      eexists (_ :: _ :: tr1). split; [by rewrite <- !app_assoc|].
      split; [by apply Hlift|done].
    + destruct IH as (tr1 & -> & Hspec & Hc & Hcount & Hh & Hms & Ht & Him).
      eexists (_ :: _ :: tr1). split; [by rewrite <- !app_assoc|].
      split; [by apply Hlift|done].
Qed.

Lemma skipEffects_no_sends st tr : Forall (skipEffect st) tr → sends tr = [].
Proof.
  induction 1 as [|e tr He _ IH]; [done|].
  destruct e; simpl in *; try done.
Qed.

Lemma skipEffects_no_timers st tr : Forall (skipEffect st) tr → timers tr = [].
Proof.
  induction 1 as [|e tr He _ IH]; [done|].
  destruct e; simpl in *; try done.
Qed.

Lemma skipEffects_writes st tr s :
  Forall (skipEffect st) tr → s ∈ writes tr →
  sameData st s ∧ (sentCount st < sentCount s)%nat ∧ cursorOk s.
Proof.
  induction 1 as [|e tr He _ IH]; simpl; [by intros ?%elem_of_nil|].
  destruct e; simpl in *; try done.
  intros [->|Hin]%elem_of_cons; [done|by apply IH].
Qed.

(** The anatomy of one run of [sendNextIfDue] on a state that is not
    completed and has an entry under the cursor: stale entries are
    skipped, which leads to [st1]; then either the schedule is exhausted,
    or the entry now under the cursor is not stale and is delivered (when
    due) or waited for (when in the future).  [ev1] is the event object
    the delivery uses: the instant and kind of the new head, the text
    and image of the head the run started with. *)
Lemma sendNextIfDue_shape defaulted now sendOk st item :
  completed st = false →
  schedule st !! sentCount st = Some item →
  ∃ st1 tr1,
    SkipSpec now st st1 tr1
    ∧ (¬ stale now item → st1 = st ∧ tr1 = [])
    ∧ ((sentCount st1 = length (schedule st) ∧ completed st1 = true
        ∧ stale now item
        ∧ sendNextIfDue defaulted now sendOk st = (st1, tr1))
       ∨ (completed st1 = false
          ∧ ∃ item1 ev1,
              schedule st !! sentCount st1 = Some item1
              ∧ ¬ stale now item1
              ∧ at_ ev1 = itemAt item1 ∧ kind ev1 = kind (itemEvent item1)
              ∧ text ev1 = text (itemEvent item) ∧ image ev1 = image (itemEvent item)
              ∧ ((itemAt item1 - now <= 0
                  ∧ sendNextIfDue defaulted now sendOk st
                    = ((deliver defaulted now sendOk st1 ev1).1,
                       tr1 ++ (deliver defaulted now sendOk st1 ev1).2 ++ [SetTimeout 1000]))
                 ∨ (0 < itemAt item1 - now
                    ∧ sendNextIfDue defaulted now sendOk st
                      = (st1, tr1 ++ [Log "INFO" "Waiting for next event";
                                      SetTimeout (Z.min (itemAt item1 - now) 5000)]))))).
Proof.
  intros Hcompl Hitem. pose proof (lookup_lt_Some _ _ _ Hitem) as Hlt.
  unfold sendNextIfDue. rewrite Hcompl, Hitem.
  case_decide as Hge; [lia|].
  pose proof (skipStale_spec (length (schedule st) - sentCount st) now st
                (itemEvent item) (itemAt item - now) [] Hcompl ltac:(lia) Hlt) as Hspec.
  assert (¬ stale now item →
          skipStale (length (schedule st) - sentCount st) now st
            (itemEvent item) (itemAt item - now) []
          = Head st (itemEvent item) (itemAt item - now) []) as Hexit.
  { intros Hns. apply skipStale_exit. unfold stale in Hns. tauto. }
  destruct (skipStale _ now st _ _ []) as [st1 tr|st1 ev1 ms1 tr].
  - destruct Hspec as (tr1 & -> & Hss & Hcount & Hc).
    { exists item. by rewrite at_itemEvent. }
    exists st1, tr1. split; [done|]. split; [intros Hns; by specialize (Hexit Hns)|].
    left. repeat split; try done.
    apply (ss_skipped _ _ _ _ Hss (sentCount st)); [lia|done].
  - destruct Hspec as (tr1 & -> & Hss & Hc & Hcount & (item1 & Hitem1 & Hat & Hkind & ->) & Hms & Ht & Him).
    { exists item. by rewrite at_itemEvent. }
    exists st1, tr1. split; [done|].
    split; [intros Hns; specialize (Hexit Hns); by simplify_eq|].
    right. split; [done|].
    destruct (ss_data _ _ _ _ Hss) as (_ & Hsched & _).
    rewrite Hsched in Hitem1.
    exists item1, ev1. split; [done|]. split; [unfold stale; lia|].
    do 4 (split; [done|]). simpl.
    case_decide as Hdue.
    + left. split; [done|]. by destruct (deliver defaulted now sendOk st1 ev1).
    + right. split; [lia|done].
Qed.

(** The [try] block: what it does to the state and what it records. *)
Lemma deliver_known_sends defaulted now sendOk st ev :
  knownKind (kind ev) →
  ∃ m, (deliver defaulted now sendOk st ev).2
       = Send (sentCount st) m ::
         (if sendOk then [Log "INFO" (match kind ev with KBuy => "Buy sent" | _ => "Event sent" end);
                          Write (deliver defaulted now sendOk st ev).1]
          else [Log "ERROR" "Send failed, will retry shortly"]).
Proof.
  unfold deliver. destruct (kind ev); simpl; try done; intros _;
    destruct sendOk; by eexists.
Qed.

Lemma deliver_failed defaulted now st ev :
  (deliver defaulted now false st ev).1 = st ∨ ¬ knownKind (kind ev).
Proof. unfold deliver. destruct (kind ev); simpl; auto. Qed.

Lemma deliver_unknown defaulted now sendOk st ev :
  ¬ knownKind (kind ev) →
  deliver defaulted now sendOk st ev
  = (setSentCount st (S (sentCount st)), [Write (setSentCount st (S (sentCount st)))]).
Proof. unfold deliver. destruct (kind ev); simpl; tauto. Qed.

(** The state after the [try] block: the cursor stays or moves by one,
    the total stays or grows by the amount of one message, and it grows
    only when a buy was sent with success. *)
Lemma deliver_state defaulted now sendOk st ev :
  let st' := (deliver defaulted now sendOk st ev).1 in
  configSignature st' = configSignature st
  ∧ schedule st' = schedule st
  ∧ effectiveEnd st' = effectiveEnd st
  ∧ completed st' = completed st
  ∧ (sentCount st' = sentCount st ∨ sentCount st' = S (sentCount st))
  ∧ (totalUsdRaised st' = totalUsdRaised st
     ∨ (sendOk = true ∧ kind ev = KBuy
        ∧ sentCount st' = S (sentCount st)
        ∧ totalUsdRaised st'
          = (totalUsdRaised st + amountPerMessageUsd defaulted)%Q))
  ∧ (writes (deliver defaulted now sendOk st ev).2 = []
       ∧ (deliver defaulted now sendOk st ev).1 = st
     ∨ writes (deliver defaulted now sendOk st ev).2 = [st']).
Proof.
  unfold deliver. destruct (kind ev), sendOk; simpl; repeat split; auto.
  all: try (right; repeat split; auto; fail).
Qed.

(** A run that finds a stale entry under the cursor logs the skip, moves
    the cursor, writes the state, and goes on in the same run with the
    next entry (or finishes when there is none). *)
Lemma sendNextIfDue_stale defaulted now sendOk st item :
  completed st = false →
  schedule st !! sentCount st = Some item →
  stale now item →
  let st1 := setSentCount st (S (sentCount st)) in
  let tr1 := [Log "WARN" "Skipping past event (too old)"; Write st1] in
  sendNextIfDue defaulted now sendOk st =
    match schedule st !! S (sentCount st) with
    | None =>
        (setCompleted st1 true,
         tr1 ++ [Write (setCompleted st1 true); Log "INFO" "All messages sent"])
    | Some item' =>
        let ev1 := mkEvent (itemAt item') (kind (itemEvent item'))
                           (text (itemEvent item)) (image (itemEvent item)) in
        afterSkip defaulted now sendOk
          (skipStale (length (schedule st) - S (sentCount st)) now st1 ev1
                     (itemAt item' - now) tr1)
    end.
Proof.
  intros Hcompl Hitem Hstale. pose proof (lookup_lt_Some _ _ _ Hitem) as Hlt.
  unfold sendNextIfDue. rewrite Hcompl, Hitem.
  case_decide as Hge; [lia|].
  replace (length (schedule st) - sentCount st)%nat
    with (S (length (schedule st) - S (sentCount st))) by lia.
  rewrite skipStale_step by done. cbv zeta. simpl.
  case_decide as Hend.
  - by rewrite (lookup_ge_None_2 _ _ Hend).
  - destruct (schedule st !! S (sentCount st)) as [item'|] eqn:Hitem'.
    + by rewrite at_itemEvent.
    + apply lookup_ge_None in Hitem'. lia.
Qed.

(** A run that finds under the cursor an entry that is due, and not
    stale, goes straight to the delivery. *)
Lemma sendNextIfDue_due defaulted now sendOk st item :
  completed st = false →
  schedule st !! sentCount st = Some item →
  - MAX_ALLOWED_DELAY_MS <= itemAt item - now <= 0 →
  sendNextIfDue defaulted now sendOk st =
    ((deliver defaulted now sendOk st (itemEvent item)).1,
     (deliver defaulted now sendOk st (itemEvent item)).2 ++ [SetTimeout 1000]).
Proof.
  intros Hcompl Hitem Hdue. pose proof (lookup_lt_Some _ _ _ Hitem) as Hlt.
  unfold sendNextIfDue. rewrite Hcompl, Hitem.
  case_decide as Hge; [lia|].
  rewrite skipStale_exit by lia.
  case_decide; [|lia]. by destruct (deliver _ _ _ _ _).
Qed.

(** The cursor never moves back. *)
Lemma sendNextIfDue_cursor_mono defaulted now sendOk st :
  (sentCount st <= sentCount (sendNextIfDue defaulted now sendOk st).1)%nat.
Proof.
  destruct (completed st) eqn:Hcompl; [unfold sendNextIfDue; by rewrite Hcompl|].
  destruct (schedule st !! sentCount st) as [item|] eqn:Hitem.
  - destruct (sendNextIfDue_shape defaulted now sendOk st item Hcompl Hitem)
      as (st1 & tr1 & Hss & _ & [(_ & _ & _ & ->)|(_ & item1 & ev1 & _ & _ & _ & _ & _ & _ & [[_ ->]|[_ ->]])]);
      simpl; pose proof (ss_count _ _ _ _ Hss) as Hc; try lia.
    destruct (deliver_state defaulted now sendOk st1 ev1) as (_ & _ & _ & _ & Hd & _). lia.
  - unfold sendNextIfDue. rewrite Hcompl, Hitem. by case_decide.
Qed.

(** The notifier is only ever called for the entry under the cursor or
    a later one. *)
Lemma sendNextIfDue_send_index defaulted now sendOk st j m :
  (j, m) ∈ sends (sendNextIfDue defaulted now sendOk st).2 → (sentCount st <= j)%nat.
Proof.
  intros Hin.
  destruct (completed st) eqn:Hcompl.
  { unfold sendNextIfDue in Hin. rewrite Hcompl in Hin. by apply elem_of_nil in Hin. }
  destruct (schedule st !! sentCount st) as [item|] eqn:Hitem.
  2:{ unfold sendNextIfDue in Hin. rewrite Hcompl, Hitem in Hin.
      case_decide; by apply elem_of_nil in Hin. }
  destruct (sendNextIfDue_shape defaulted now sendOk st item Hcompl Hitem)
    as (st1 & tr1 & Hss & _ & Hcases).
  pose proof (skipEffects_no_sends _ _ (ss_effects _ _ _ _ Hss)) as Hno.
  pose proof (ss_count _ _ _ _ Hss) as Hcount.
  destruct Hcases as [(_ & _ & _ & Hrun)|(_ & item1 & ev1 & _ & _ & _ & _ & _ & _ & [[_ Hrun]|[_ Hrun]])];
    rewrite Hrun in Hin; simpl in Hin.
  - rewrite Hno in Hin. by apply elem_of_nil in Hin.
  - rewrite !sends_app, Hno in Hin. simpl in Hin. rewrite app_nil_r in Hin.
    destruct (decide (knownKind (kind ev1))) as [Hk|Hk].
    + destruct (deliver_known_sends defaulted now sendOk st1 ev1 Hk) as [m' Hd].
      rewrite Hd in Hin. destruct sendOk; simpl in Hin;
        apply list_elem_of_singleton in Hin; injection Hin as -> ->; lia.
    + rewrite deliver_unknown in Hin by done. simpl in Hin. by apply elem_of_nil in Hin.
  - rewrite sends_app, Hno in Hin. simpl in Hin. by apply elem_of_nil in Hin.
Qed.

(** What a run does with the entry under the cursor, as far as the
    cursor, the state file and the calls are concerned (what a call
    carries is another matter, see [deliver] and the event object of
    the run).  Take a state that is not completed, with an entry under
    the cursor, and run [sendNextIfDue] at the corrected time [now].
    If the entry is more than 30 seconds in the past, the run begins by
    logging the skip and writing the state with the cursor advanced; no
    call is made while the cursor is at or before the skipped entry, in
    this run or later (the cursor never moves back, and a run makes its
    call with the cursor at or after the one it started with); and the
    next entry is dealt with in the same run: a call is made when it is
    due and not stale, and it is waited for when it is in the future.
    If the entry is at most 30 seconds late or exactly due, and has one
    of the kinds of the data model, a call is made with the cursor on
    it. *)
Lemma sendNextIfDue_stale_skipped_due_called
    (defaulted : Config) (now : Z) (sendOk : bool) (st : State) (item : Item) :
  completed st = false →
  schedule st !! sentCount st = Some item →
  let i := sentCount st in
  let run := sendNextIfDue defaulted now sendOk st in
  (stale now item →
     (∃ tr', run.2 = Log "WARN" "Skipping past event (too old)"
                     :: Write (setSentCount st (S i)) :: tr')
     ∧ (S i <= sentCount run.1)%nat
     ∧ (∀ j m, (j, m) ∈ sends run.2 → (S i <= j)%nat)
     ∧ (∀ item', schedule st !! S i = Some item' →
          (- MAX_ALLOWED_DELAY_MS <= itemAt item' - now <= 0 →
           knownKind (kind (itemEvent item')) →
           ∃ m, sends run.2 = [(S i, m)])
          ∧ (0 < itemAt item' - now →
             run = (setSentCount st (S i),
                    [Log "WARN" "Skipping past event (too old)";
                     Write (setSentCount st (S i));
                     Log "INFO" "Waiting for next event";
                     SetTimeout (Z.min (itemAt item' - now) 5000)]))))
  ∧ (- MAX_ALLOWED_DELAY_MS <= itemAt item - now <= 0 →
     knownKind (kind (itemEvent item)) →
     ∃ m, sends run.2 = [(i, m)])
  ∧ (∀ st0 now0 ok0,
       (sentCount st0 <= sentCount (sendNextIfDue defaulted now0 ok0 st0).1)%nat
       ∧ ∀ j m, (j, m) ∈ sends (sendNextIfDue defaulted now0 ok0 st0).2 →
                (sentCount st0 <= j)%nat).
Proof.
  intros Hcompl Hitem i run. split; [|split].
  - intros Hstale.
    destruct (sendNextIfDue_shape defaulted now sendOk st item Hcompl Hitem)
      as (st1 & tr1 & Hss & _ & Hcases).
    pose proof (sendNextIfDue_stale defaulted now sendOk st item Hcompl Hitem Hstale) as Heq.
    cbv zeta in Heq. fold i in Heq. fold run in Heq.
    assert (S i <= sentCount st1)%nat as Hadv.
    { pose proof (ss_count _ _ _ _ Hss) as Hc. fold i in Hc.
      destruct Hcases as [(Hc1 & _)|(_ & item1 & ev1 & Hitem1 & Hfresh & _)].
      - pose proof (lookup_lt_Some _ _ _ Hitem). fold i in H. lia.
      - destruct (decide (sentCount st1 = i)) as [Heq1|]; [|lia].
        rewrite Heq1 in Hitem1. unfold i in Hitem1. congruence. }
    split; [|split; [|split]].
    + rewrite Heq. destruct (schedule st !! S i) as [item'|]; [|by eexists].
      set (ev1 := mkEvent _ _ _ _).
      destruct (skipStale_spec_prefix (length (schedule st) - S i) now
                  (setSentCount st (S i)) ev1 (itemAt item' - now)
                  [Log "WARN" "Skipping past event (too old)"; Write (setSentCount st (S i))])
        as [tr2 Htr2].
      destruct (skipStale _ _ _ _ _ _) as [st' tr|st' ev' ms' tr]; simpl in *; subst tr.
      * by eexists.
      * case_decide; [destruct (deliver _ _ _ _ _)|]; simpl; by eexists.
    + destruct Hcases as [(_ & _ & _ & Hrun)|(_ & item1 & ev1 & _ & _ & _ & _ & _ & _ & [[_ Hrun]|[_ Hrun]])];
        fold run in Hrun; rewrite Hrun; simpl; try lia.
      destruct (deliver_state defaulted now sendOk st1 ev1) as (_ & _ & _ & _ & Hd & _). lia.
    + intros j m Hin.
      pose proof (skipEffects_no_sends _ _ (ss_effects _ _ _ _ Hss)) as Hno.
      destruct Hcases as [(_ & _ & _ & Hrun)|(_ & item1 & ev1 & _ & _ & _ & _ & _ & _ & [[_ Hrun]|[_ Hrun]])];
        fold run in Hrun; rewrite Hrun in Hin; simpl in Hin.
      * rewrite Hno in Hin. by apply elem_of_nil in Hin.
      * rewrite !sends_app, Hno in Hin. simpl in Hin. rewrite app_nil_r in Hin.
        destruct (decide (knownKind (kind ev1))) as [Hk|Hk].
        -- destruct (deliver_known_sends defaulted now sendOk st1 ev1 Hk) as [m' Hd].
           rewrite Hd in Hin. destruct sendOk; simpl in Hin;
             apply list_elem_of_singleton in Hin; injection Hin as -> ->; lia.
        -- rewrite deliver_unknown in Hin by done. simpl in Hin. by apply elem_of_nil in Hin.
      * rewrite sends_app, Hno in Hin. simpl in Hin. by apply elem_of_nil in Hin.
    + intros item' Hitem'. rewrite Heq, Hitem'. cbv zeta.
      set (ev1 := mkEvent _ _ _ _). split.
      * intros Hdue Hk. rewrite skipStale_exit by lia. simpl.
        case_decide; [|lia].
        destruct (deliver_known_sends defaulted now sendOk (setSentCount st (S i)) ev1 Hk)
          as [m Hd].
        destruct (deliver _ _ _ _ _) as [st'' tr'']. simpl in Hd. subst tr''.
        exists m. simpl. by destruct sendOk.
      * intros Hfuture.
        rewrite skipStale_exit by (unfold MAX_ALLOWED_DELAY_MS; lia). simpl.
        case_decide; [lia|done].
  - intros Hdue Hk. unfold run.
    rewrite (sendNextIfDue_due defaulted now sendOk st item Hcompl Hitem Hdue). simpl.
    destruct (deliver_known_sends defaulted now sendOk st (itemEvent item) Hk) as [m Hd].
    destruct (deliver _ _ _ _ _) as [st'' tr'']. simpl in Hd. subst tr''.
    exists m. simpl. by destruct sendOk.
  - intros st0 now0 ok0. split; [apply sendNextIfDue_cursor_mono|].
    intros j m. apply sendNextIfDue_send_index.
Qed.

Lemma sendNextIfDue_no_head defaulted now sendOk st :
  completed st = true ∨ schedule st !! sentCount st = None →
  sends (sendNextIfDue defaulted now sendOk st).2 = [].
Proof.
  unfold sendNextIfDue. intros [Hc|Hnone].
  - by rewrite Hc.
  - rewrite Hnone. destruct (completed st); [done|]. by case_decide.
Qed.

(** C4, refuted as stated: a failed delivery is not always retried.
    The single buy of [oneBuy] is 29.5 seconds late when the send
    throws; at the next run, one second later, it is 30.5 seconds
    late, so it is skipped as stale and no call is made for it. *)
Lemma C4_counterexample :
  ¬ (∀ defaulted now st j m,
       (j, m) ∈ sends (sendNextIfDue defaulted now false st).2 →
       ∃ m', (j, m') ∈ sends (sendNextIfDue defaulted (now + 1000) true
                                (sendNextIfDue defaulted now false st).1).2).
Proof.
  intros Hretry.
  destruct (Hretry Examples.smallConfig 29500 Examples.oneBuy 0%nat
              (BuyMessage 29500 (0 + 100) 714.28)) as [m' Hm']; [left|].
  by apply elem_of_nil in Hm'.
Qed.

(** C4, as the code has it.  When the call of the notifier throws, the
    run ends right there: after the failed call the trace holds only
    the error log line and the timer of 1000 ms, so nothing is written
    after it.  The state the run leaves is the one it had when it made
    the call (the one last written by the skipping of stale entries, or
    the initial one when nothing was skipped): the cursor is on the
    entry whose delivery failed and the total raised is what it was.
    What the next run does depends on the time it reads: while the
    entry is at most 30 seconds late, the notifier is called for it
    again; once it is more than 30 seconds late, it is skipped like
    any stale entry, and no call is made for it in that run. *)
Theorem C4_failed_send_leaves_state_and_retries
    (defaulted : Config) (now : Z) (st st' : State) (tr : list Effect)
    (j : nat) (m : Message) :
  sendNextIfDue defaulted now false st = (st', tr) →
  (j, m) ∈ sends tr →
  ∃ tr0,
    tr = tr0 ++ [Send j m; Log "ERROR" "Send failed, will retry shortly"; SetTimeout 1000]
    ∧ sends tr0 = [] ∧ timers tr0 = []
    ∧ last (st :: writes tr0) = Some st'
    ∧ sentCount st' = j
    ∧ completed st' = false
    ∧ totalUsdRaised st' = totalUsdRaised st
    ∧ schedule st' = schedule st
    ∧ (∀ item, schedule st !! sentCount st = Some item → ¬ stale now item →
         st' = st ∧ tr0 = [])
    ∧ (∀ now' sendOk' item, schedule st' !! j = Some item →
         now <= now' → ¬ stale now' item →
         ∃ m', sends (sendNextIfDue defaulted now' sendOk' st').2 = [(j, m')])
    ∧ (∀ now' sendOk' item, schedule st' !! j = Some item →
         stale now' item →
         (S j <= sentCount (sendNextIfDue defaulted now' sendOk' st').1)%nat
         ∧ ∀ m', (j, m') ∉ sends (sendNextIfDue defaulted now' sendOk' st').2).
Proof.
  intros Hrun Hin.
  destruct (completed st) eqn:Hcompl.
  { pose proof (sendNextIfDue_no_head defaulted now false st (or_introl Hcompl)) as Hno.
    rewrite Hrun in Hno. simpl in Hno. rewrite Hno in Hin. by apply elem_of_nil in Hin. }
  destruct (schedule st !! sentCount st) as [item|] eqn:Hitem.
  2:{ pose proof (sendNextIfDue_no_head defaulted now false st (or_intror Hitem)) as Hno.
      rewrite Hrun in Hno. simpl in Hno. rewrite Hno in Hin. by apply elem_of_nil in Hin. }
  destruct (sendNextIfDue_shape defaulted now false st item Hcompl Hitem)
    as (st1 & tr1 & Hss & Hfirst & Hcases).
  pose proof (skipEffects_no_sends _ _ (ss_effects _ _ _ _ Hss)) as Hno.
  pose proof (skipEffects_no_timers _ _ (ss_effects _ _ _ _ Hss)) as Hnot.
  destruct (ss_data _ _ _ _ Hss) as (_ & Hsched & _ & Htotal).
  destruct Hcases as [(_ & _ & _ & Hrun')|(Hc1 & item1 & ev1 & Hitem1 & Hfresh & Hat & Hkind & _ & _ & [[Hdue Hrun']|[_ Hrun']])];
    rewrite Hrun in Hrun'; injection Hrun' as -> ->.
  - rewrite Hno in Hin. by apply elem_of_nil in Hin.
  - rewrite !sends_app, Hno in Hin. simpl in Hin. rewrite app_nil_r in Hin.
    destruct (decide (knownKind (kind ev1))) as [Hk|Hk].
    2:{ rewrite deliver_unknown in Hin by done. simpl in Hin. by apply elem_of_nil in Hin. }
    destruct (deliver_known_sends defaulted now false st1 ev1 Hk) as [m' Hd].
    destruct (deliver_failed defaulted now st1 ev1) as [Hst|]; [|done].
    rewrite Hd in Hin. simpl in Hin.
    apply list_elem_of_singleton in Hin. injection Hin as -> ->.
    rewrite Hd, Hst. exists tr1.
    split; [done|]. do 2 (split; [done|]).
    split; [apply (ss_last _ _ _ _ Hss)|].
    do 4 (split; [done|]). split; [|split].
    + intros item0 Hitem0 Hns. simplify_eq. by apply Hfirst.
    + intros now' sendOk' item' Hitem' Hlater Hns.
      rewrite Hsched in Hitem'. simplify_eq.
      rewrite <- Hsched in Hitem1.
      rewrite (sendNextIfDue_due defaulted now' sendOk' st1 item1 Hc1 Hitem1)
        by (unfold stale in Hns; lia).
      rewrite Hkind in Hk.
      destruct (deliver_known_sends defaulted now' sendOk' st1 (itemEvent item1) Hk) as [m'' Hd'].
      simpl. destruct (deliver defaulted now' sendOk' st1 (itemEvent item1)) as [st'' tr''].
      simpl in Hd'. subst tr''. exists m''. simpl. by destruct sendOk'.
    + intros now' sendOk' item' Hitem' Hstale.
      rewrite Hsched in Hitem'. simplify_eq.
      rewrite <- Hsched in Hitem1.
      destruct (sendNextIfDue_stale_skipped_due_called defaulted now' sendOk' st1 item1
                  Hc1 Hitem1) as (Hskip & _).
      destruct (Hskip Hstale) as (_ & Hcursor & Hcalls & _).
      split; [done|]. intros m'' Hin'. specialize (Hcalls _ _ Hin'). lia.
  - rewrite sends_app, Hno in Hin. simpl in Hin. by apply elem_of_nil in Hin.
Qed.

(** Three runs on [twoBuys] at 100 s: the first buy is 100 s late and is
    skipped, the second is exactly due and is handed to the notifier in
    the same run. *)
Lemma sendNextIfDue_stale_skipped_due_called_example :
  completed Examples.twoBuys = false
  ∧ schedule Examples.twoBuys !! sentCount Examples.twoBuys
    = Some (ItemEvent (FullSchedule.buyEvent 0))
  ∧ stale 100000 (ItemEvent (FullSchedule.buyEvent 0))
  ∧ ∃ m, sends (sendNextIfDue Examples.smallConfig 100000 true Examples.twoBuys).2
         = [(1%nat, m)].
Proof.
  assert (stale 100000 (ItemEvent (FullSchedule.buyEvent 0))) as Hstale
    by (unfold stale, MAX_ALLOWED_DELAY_MS; simpl; lia).
  split; [reflexivity|]. split; [reflexivity|]. split; [exact Hstale|].
  destruct (sendNextIfDue_stale_skipped_due_called Examples.smallConfig 100000 true
              Examples.twoBuys (ItemEvent (FullSchedule.buyEvent 0)) eq_refl eq_refl)
    as (Hskip & _ & _).
  destruct (Hskip Hstale) as (_ & _ & _ & Hnext).
  destruct (Hnext (ItemEvent (FullSchedule.buyEvent 100000)) eq_refl) as [Hdue _].
  apply Hdue; [unfold MAX_ALLOWED_DELAY_MS; simpl; lia|exact I].
Defined.

(** C3. The case the code misses.  The state file holds the schedule
    generated for a launch at 2025-08-12T22:00:00Z, the 8 countdown
    entries and the start entry, with the cursor at 0, and the loop runs
    at the instant of the launch.  The 8 countdown entries are more
    than 30 seconds late and are skipped; the start entry is exactly
    due, and one call of the notifier is made for it.  That call
    carries the text and the image of the first entry skipped, the
    countdown of 59 minutes with [59.png], and not the text and image
    of the start entry: the event object of the run is copied from the
    first entry, and the skipping loop refreshes its [kind] and [at]
    only.  So the announcement of a skipped entry is posted, and the
    announcement of the entry that is due is not. *)
Theorem C3_start_sent_with_text_of_skipped_countdown :
  Forall (stale Examples.tuesday22h) (take 8 (schedule Examples.atLaunch))
  ∧ schedule Examples.atLaunch !! 8%nat
    = Some (ItemEvent (FullSchedule.startEvent Examples.tuesday22h))
  ∧ itemAt (ItemEvent (FullSchedule.startEvent Examples.tuesday22h))
    - Examples.tuesday22h = 0
  ∧ text (FullSchedule.startEvent Examples.tuesday22h) = Some LaunchText
  ∧ image (FullSchedule.startEvent Examples.tuesday22h) = Some "live.png"%string
  ∧ sends (sendNextIfDue Examples.countdownConfig Examples.tuesday22h true
             Examples.atLaunch).2
    = [(8%nat, TextMessage KStart (Some (CountdownText 59)) (Some "59.png"%string))]
  ∧ sentCount (sendNextIfDue Examples.countdownConfig Examples.tuesday22h true
                 Examples.atLaunch).1 = 9%nat.
Proof.
  split.
  { repeat (apply Forall_cons; split;
            [unfold stale, MAX_ALLOWED_DELAY_MS; simpl; lia|]).
    constructor. }
  split; [reflexivity|]. split; [simpl; lia|].
  split; [reflexivity|]. split; [reflexivity|].
  split; by vm_compute.
Qed.

(** The event object of a run is copied from the first head and only
    its instant and kind are refreshed by the skipping loop: the start
    entry reached after a skipped countdown is sent with the text and
    the image of the countdown. *)
Example skipped_head_lends_its_text_and_image :
  sends (sendNextIfDue Examples.smallConfig 100000 true Examples.countdownThenStart).2
  = [(1%nat, TextMessage KStart (Some (CountdownText 1)) (Some "1.png"%string))].
Proof. reflexivity. Qed.

(** The single buy of [oneBuy] is due at instant 0 and the notifier
    throws: nothing changes, and the run one second later tries again. *)
Lemma C4_witness :
  sendNextIfDue Examples.smallConfig 0 false Examples.oneBuy
  = (Examples.oneBuy,
     [Send 0 (BuyMessage 0 (0 + 100) 714.28);
      Log "ERROR" "Send failed, will retry shortly"; SetTimeout 1000])
  ∧ ∃ m', sends (sendNextIfDue Examples.smallConfig 1000 true Examples.oneBuy).2
          = [(0%nat, m')].
Proof.
  assert (sendNextIfDue Examples.smallConfig 0 false Examples.oneBuy
          = (Examples.oneBuy,
             [Send 0 (BuyMessage 0 (0 + 100) 714.28);
              Log "ERROR" "Send failed, will retry shortly"; SetTimeout 1000])) as Hrun
    by reflexivity.
  split; [exact Hrun|].
  destruct (C4_failed_send_leaves_state_and_retries Examples.smallConfig 0
              Examples.oneBuy _ _ 0%nat (BuyMessage 0 (0 + 100) 714.28) Hrun)
    as (tr0 & _ & _ & _ & _ & _ & _ & _ & _ & _ & Hretry & _).
  { simpl. left. }
  apply (Hretry 1000 true (ItemEvent (FullSchedule.buyEvent 0)));
    [reflexivity|lia|unfold stale, MAX_ALLOWED_DELAY_MS; simpl; lia].
Defined.

(** *** Startup *)

Lemma hardStop_fields defaulted st :
  configSignature (hardStop defaulted st).1 = configSignature st
  ∧ effectiveEnd (hardStop defaulted st).1 = effectiveEnd st
  ∧ sentCount (hardStop defaulted st).1 = sentCount st
  ∧ totalUsdRaised (hardStop defaulted st).1 = totalUsdRaised st
  ∧ completed (hardStop defaulted st).1 = completed st
  ∧ schedule (hardStop defaulted st).1
    = (if enforceHardStopAtEnd defaulted
       then filter (λ item, itemAt item <= endTimeUtc defaulted) (schedule st)
       else schedule st).
Proof. unfold hardStop. by destruct (enforceHardStopAtEnd defaulted). Qed.

Lemma filter_all {A} (P : A → Prop) `{∀ x, Decision (P x)} (l : list A) :
  Forall P l → filter P l = l.
Proof.
  induction 1 as [|x l Hx _ IH]; [done|].
  rewrite filter_cons_True by done. by rewrite IH.
Qed.



(** The signature is a matter of spelling: with the start written
    [2025-08-12T22:00:00.000Z], the same instant as before, the string
    differs from the one in [twoBuys], and startup generates a new
    schedule whose state starts at cursor 0. *)
Example respelled_start_regenerates :
  getConfigSignature Examples.stringsOf Examples.respelledRaw
  ≠ configSignature Examples.twoBuys
  ∧ ∃ st tr rng',
      loadOrGenerate (getConfigSignature Examples.stringsOf Examples.respelledRaw)
        Examples.smallConfig id (Some Examples.twoBuys) Examples.smallDraws
      = Some ((st, tr), rng')
      ∧ sentCount st = 0%nat
      ∧ length (schedule st) = 20%nat.
Proof.
  split; [by vm_compute|].
  destruct (loadOrGenerate _ Examples.smallConfig id (Some Examples.twoBuys)
              Examples.smallDraws) as [[[st tr] r]|] eqn:Hrun; [|by vm_compute in Hrun].
  exists st, tr, r. split; [done|].
  vm_compute in Hrun. by injection Hrun as <- _ _.
Qed.

(** *** Invariants of the persisted state *)

(** One run keeps the schedule and keeps the cursor within it; so does
    every state it writes. *)
Lemma sendNextIfDue_invariant defaulted now sendOk st :
  cursorOk st →
  cursorOk (sendNextIfDue defaulted now sendOk st).1
  ∧ schedule (sendNextIfDue defaulted now sendOk st).1 = schedule st
  ∧ ∀ s, s ∈ writes (sendNextIfDue defaulted now sendOk st).2 →
         cursorOk s ∧ schedule s = schedule st.
Proof.
  intros [Hle Hdone].
  destruct (completed st) eqn:Hcompl.
  { unfold sendNextIfDue. rewrite Hcompl. simpl.
    split; [split; [done|intros _; by apply Hdone]|]. split; [done|].
    intros s Hs. by apply elem_of_nil in Hs. }
  destruct (schedule st !! sentCount st) as [item|] eqn:Hitem.
  2:{ unfold sendNextIfDue. rewrite Hcompl, Hitem.
      apply lookup_ge_None in Hitem. case_decide; [|lia]. simpl.
      assert (cursorOk (setCompleted st true)) as Hok by (split; simpl; [done|lia]).
      split; [done|]. split; [done|].
      intros s Hs. apply list_elem_of_singleton in Hs. by subst. }
  destruct (sendNextIfDue_shape defaulted now sendOk st item Hcompl Hitem)
    as (st1 & tr1 & Hss & _ & Hcases).
  destruct (ss_data _ _ _ _ Hss) as (_ & Hsched & _ & _).
  pose proof (ss_count _ _ _ _ Hss) as Hcount.
  assert (∀ s, s ∈ writes tr1 → cursorOk s ∧ schedule s = schedule st) as Hw1.
  { intros s Hs.
    destruct (skipEffects_writes _ _ _ (ss_effects _ _ _ _ Hss) Hs) as ((_ & ? & _) & _ & ?).
    done. }
  destruct Hcases as [(Hend & Hc1 & _ & ->)|(Hc1 & item1 & ev1 & Hitem1 & _ & _ & _ & _ & _ & [[_ ->]|[_ ->]])];
    simpl.
  - split; [|done]. split; rewrite Hsched; [lia|done].
  - pose proof (lookup_lt_Some _ _ _ Hitem1) as Hlt1.
    destruct (deliver_state defaulted now sendOk st1 ev1) as (_ & Hs' & _ & Hc' & Hcnt & _ & Hwr).
    cbv zeta in *.
    assert (cursorOk (deliver defaulted now sendOk st1 ev1).1) as Hok'.
    { split; rewrite Hs', Hsched; [lia|]. rewrite Hc', Hc1. done. }
    split; [done|]. split; [by rewrite Hs'|].
    intros s Hs. rewrite !writes_app in Hs. simpl in Hs. rewrite app_nil_r in Hs.
    apply elem_of_app in Hs as [Hs|Hs]; [by apply Hw1|].
    destruct Hwr as [[Hnil _]|Hone]; [rewrite Hnil in Hs; by apply elem_of_nil in Hs|].
    rewrite Hone in Hs. apply list_elem_of_singleton in Hs as ->.
    split; [done|by rewrite Hs'].
  - split; [split; rewrite Hsched; [lia|by rewrite Hc1]|]. split; [done|].
    intros s Hs. rewrite writes_app in Hs. simpl in Hs. rewrite app_nil_r in Hs.
    by apply Hw1.
Qed.

(** One run leaves the total raised as it was, or adds the amount of one
    message to it; the latter only when the notifier accepted the buy
    under the cursor. *)
Lemma sendNextIfDue_total defaulted now sendOk st :
  totalUsdRaised (sendNextIfDue defaulted now sendOk st).1 = totalUsdRaised st
  ∨ (sendOk = true
     ∧ totalUsdRaised (sendNextIfDue defaulted now sendOk st).1
       = (totalUsdRaised st + amountPerMessageUsd defaulted)%Q
     ∧ ∃ i item m,
         schedule st !! i = Some item
         ∧ kind (itemEvent item) = KBuy
         ∧ sentCount (sendNextIfDue defaulted now sendOk st).1 = S i
         ∧ sends (sendNextIfDue defaulted now sendOk st).2 = [(i, m)]).
Proof.
  destruct (completed st) eqn:Hcompl.
  { left. unfold sendNextIfDue. by rewrite Hcompl. }
  destruct (schedule st !! sentCount st) as [item|] eqn:Hitem.
  2:{ left. unfold sendNextIfDue. rewrite Hcompl, Hitem. by case_decide. }
  destruct (sendNextIfDue_shape defaulted now sendOk st item Hcompl Hitem)
    as (st1 & tr1 & Hss & _ & Hcases).
  destruct (ss_data _ _ _ _ Hss) as (_ & Hsched & _ & Htotal).
  pose proof (skipEffects_no_sends _ _ (ss_effects _ _ _ _ Hss)) as Hno.
  destruct Hcases as [(_ & _ & _ & ->)|(Hc1 & item1 & ev1 & Hitem1 & _ & _ & Hkind & _ & _ & [[_ ->]|[_ ->]])];
    simpl; [by left| |by left].
  destruct (deliver_state defaulted now sendOk st1 ev1)
    as (_ & _ & _ & _ & _ & [Hsame|(Hok & Hbuy & Hcnt & Hadd)] & _); cbv zeta in *.
  - left. by rewrite Hsame.
  - right. split; [done|]. rewrite Hadd, Htotal. split; [done|].
    assert (knownKind (kind ev1)) as Hk by (by rewrite Hbuy).
    destruct (deliver_known_sends defaulted now sendOk st1 ev1 Hk) as [m Hd].
    exists (sentCount st1), item1, m. split; [done|].
    split; [by rewrite <- Hkind|]. split; [done|].
    rewrite !sends_app, Hno. simpl.
    destruct (deliver defaulted now sendOk st1 ev1) as [st'' tr'']. simpl in Hd. subst tr''.
    simpl. rewrite Hok. done.
Qed.

Lemma hardStop_ok defaulted st :
  storedOk defaulted st →
  cursorOk (hardStop defaulted st).1 ∧ pruned defaulted (hardStop defaulted st).1.
Proof.
  intros [Hok Hcases].
  destruct (hardStop_fields defaulted st) as (_ & _ & Hcnt & _ & Hc & Hsched).
  unfold cursorOk, pruned. rewrite Hcnt, Hc, Hsched.
  destruct (enforceHardStopAtEnd defaulted) eqn:Hflag; [|done].
  destruct Hcases as [Hpr|[H0 Hfalse]].
  - rewrite filter_all by (by apply Hpr). split; [done|]. intros _. by apply Hpr.
  - rewrite H0, Hfalse. split; [split; [lia|done]|].
    intros _. apply Forall_forall. intros x Hx. by apply list_elem_of_filter in Hx as [? _].
Qed.

Lemma runs_invariant configSig defaulted :
  (∀ st, loaded configSig defaulted st → storedOk defaulted st)
  ∧ (∀ st, running configSig defaulted st → cursorOk st ∧ pruned defaulted st)
  ∧ (∀ st, persisted configSig defaulted st → storedOk defaulted st).
Proof.
  apply runs_mutind.
  - intros entries effectiveEnd. split; [split; simpl; [lia|done]|by right].
  - done.
  - intros st _ Hst. by apply hardStop_ok.
  - intros st now sendOk _ [Hok Hpr].
    destruct (sendNextIfDue_invariant defaulted now sendOk st Hok) as (Hok' & Hsched & _).
    split; [done|]. unfold pruned. by rewrite Hsched.
  - intros entries effectiveEnd. split; [split; simpl; [lia|done]|by right].
  - intros st s _ Hst Hs.
    destruct (hardStop_ok defaulted st Hst) as [Hok Hpr].
    unfold hardStop in *. destruct (enforceHardStopAtEnd defaulted); simpl in *.
    + apply list_elem_of_singleton in Hs as ->. split; [done|by left].
    + by apply elem_of_nil in Hs.
  - intros st now sendOk s _ [Hok Hpr] Hs.
    destruct (sendNextIfDue_invariant defaulted now sendOk st Hok) as (_ & _ & Hw).
    destruct (Hw s Hs) as [Hoks Hsched]. split; [done|]. left.
    unfold pruned. by rewrite Hsched.
Qed.

(** C2, refuted as stated: a persisted state can have the cursor at the
    end of the schedule while [completed] is still false.  The state
    written after the delivery of the only buy of [oneBuy] is such a
    state. *)
Lemma C2_counterexample :
  ¬ (∀ s, persisted Examples.smallSig Examples.smallConfig s →
          (completed s = true ↔ sentCount s = length (schedule s))).
Proof.
  intros Hclaim.
  set (s := setTotalUsdRaised (setSentCount Examples.oneBuy 1) (0 + 100)%Q).
  assert (persisted Examples.smallSig Examples.smallConfig s) as Hs.
  { apply (persisted_tick Examples.smallSig Examples.smallConfig Examples.oneBuy 0 true).
    - apply (running_start Examples.smallSig Examples.smallConfig Examples.oneBuy). apply loaded_fresh.
    - simpl. left. }
  destruct (Hclaim s Hs) as [_ Hback]. by specialize (Hback eq_refl).
Qed.

(** C2, as the code has it.  In every state written to the state file
    the cursor is between 0 and the length of the schedule, and
    [completed] implies that the cursor is at the end.  The converse
    waits for the next run: a run that finds the cursor at the end and
    the flag unset sets the flag and writes the state.  The total raised
    changes only in a run in which the notifier accepted a buy, and then
    by adding [amountPerMessageUsd] once; the hard stop of the startup
    does not touch it. *)
Theorem C2_persisted_cursor_within_schedule_total_grows_by_buys
    (configSig : Signature) (defaulted : Config) :
  (∀ s, persisted configSig defaulted s →
     (0 <= sentCount s <= length (schedule s))%nat
     ∧ (completed s = true → sentCount s = length (schedule s)))
  ∧ (∀ st now sendOk,
       completed st = false → sentCount st = length (schedule st) →
       sendNextIfDue defaulted now sendOk st
       = (setCompleted st true,
          [Write (setCompleted st true); Log "INFO" "All messages sent"]))
  ∧ (∀ st now sendOk,
       totalUsdRaised (sendNextIfDue defaulted now sendOk st).1 = totalUsdRaised st
       ∨ (sendOk = true
          ∧ totalUsdRaised (sendNextIfDue defaulted now sendOk st).1
            = (totalUsdRaised st + amountPerMessageUsd defaulted)%Q
          ∧ ∃ i item m,
              schedule st !! i = Some item
              ∧ kind (itemEvent item) = KBuy
              ∧ sentCount (sendNextIfDue defaulted now sendOk st).1 = S i
              ∧ sends (sendNextIfDue defaulted now sendOk st).2 = [(i, m)]))
  ∧ (∀ st, totalUsdRaised (hardStop defaulted st).1 = totalUsdRaised st).
Proof.
  split; [|split; [|split]].
  - intros s Hs.
    destruct (proj2 (proj2 (runs_invariant configSig defaulted)) s Hs) as [[Hle Hdone] _].
    split; [lia|done].
  - intros st now sendOk Hcompl Hend. unfold sendNextIfDue.
    rewrite Hcompl. case_decide; [done|lia].
  - intros st now sendOk. apply sendNextIfDue_total.
  - intros st. by destruct (hardStop_fields defaulted st) as (_ & _ & _ & ? & _).
Qed.

(** The state written after the delivery of the only buy of [oneBuy]. *)
Lemma C2_witness :
  persisted Examples.smallSig Examples.smallConfig
    (setTotalUsdRaised (setSentCount Examples.oneBuy 1) (0 + 100)%Q)
  ∧ (0 <= 1 <= 1)%nat.
Proof.
  assert (persisted Examples.smallSig Examples.smallConfig
            (setTotalUsdRaised (setSentCount Examples.oneBuy 1) (0 + 100)%Q)) as Hs.
  { apply (persisted_tick Examples.smallSig Examples.smallConfig Examples.oneBuy 0 true).
    - apply (running_start Examples.smallSig Examples.smallConfig Examples.oneBuy). apply loaded_fresh.
    - simpl. left. }
  split; [exact Hs|].
  exact (proj1 (proj1 (C2_persisted_cursor_within_schedule_total_grows_by_buys
                         Examples.smallSig Examples.smallConfig) _ Hs)).
Defined.

End DeliveryFacts.

(** ** The samplers *)

Module SamplerFacts.
Import Random Sampler.

Lemma size_add_cases (x : Z) (picked : gset Z) :
  size ({[x]} ∪ picked) = size picked ∨ size ({[x]} ∪ picked) = S (size picked).
Proof.
  destruct (decide (x ∈ picked)) as [Hin|Hnin].
  - left. assert ({[x]} ∪ picked = picked) as Heq; [|by rewrite Heq].
    apply set_eq. intros y. rewrite elem_of_union, elem_of_singleton.
    split; [by intros [->|?]|by right].
  - right. rewrite size_union, size_singleton; [done|].
    intros y Hy%elem_of_singleton. by subst.
Qed.

Lemma pickUntil_nil count max picked :
  pickUntil count max picked [] =
    if decide (Z.of_nat (size picked) < count) then None else Some (picked, []).
Proof. reflexivity. Qed.

Lemma pickUntil_cons count max picked x rng :
  pickUntil count max picked (x :: rng) =
    if decide (Z.of_nat (size picked) < count)
    then pickUntil count max ({[Qfloor (x * inject_Z max)]} ∪ picked) rng
    else Some (picked, x :: rng).
Proof. reflexivity. Qed.

(** The loop stops with exactly [count] seconds picked (or with what it
    had, when that was already enough). *)
Lemma pickUntil_size count max picked rng s rng' :
  pickUntil count max picked rng = Some (s, rng') →
  Z.of_nat (size s) = Z.max (Z.of_nat (size picked)) count.
Proof.
  revert picked. induction rng as [|x rng IH]; intros picked.
  - rewrite pickUntil_nil. case_decide; [done|]. intros [= <- <-]. lia.
  - rewrite pickUntil_cons. case_decide as Hlt; [|intros [= <- <-]; lia].
    intros Hrun. pose proof (IH _ Hrun) as Hs.
    destruct (size_add_cases (Qfloor (x * inject_Z max)) picked) as [Heq|Heq]; lia.
Qed.

Lemma floor_draw_range (x : Q) (max : Z) :
  validDraw x → 0 < max → 0 <= Qfloor (x * inject_Z max) < max.
Proof.
  intros [H0 H1] Hmax.
  assert (inject_Z 0 < inject_Z max)%Q as Hm by (by rewrite <- Zlt_Qlt).
  change (inject_Z 0) with 0%Q in Hm.
  split.
  - change 0 with (Qfloor 0). apply Qfloor_resp_le.
    apply Qmult_le_0_compat; [done|by apply Qlt_le_weak].
  - rewrite Zlt_Qlt. eapply Qle_lt_trans; [apply Qfloor_le|].
    rewrite <- (Qmult_1_l (inject_Z max)) at 2.
    by apply Qmult_lt_compat_r.
Qed.

(** With draws in [0, 1) every second picked is in [0, max), and the
    draws left are still draws. *)
Lemma pickUntil_range count max picked rng s rng' :
  0 < max → validDraws rng →
  (∀ x, x ∈ picked → 0 <= x < max) →
  pickUntil count max picked rng = Some (s, rng') →
  (∀ x, x ∈ s → 0 <= x < max) ∧ validDraws rng'.
Proof.
  intros Hmax. revert picked.
  induction rng as [|x rng IH]; intros picked Hvalid Hpicked.
  - rewrite pickUntil_nil. case_decide; [done|]. by intros [= <- <-].
  - rewrite pickUntil_cons. case_decide as Hlt; [|by intros [= <- <-]].
    apply Forall_cons in Hvalid as [Hx Hvalid].
    apply IH; [done|].
    intros y [->%elem_of_singleton|Hy]%elem_of_union; [|by apply Hpicked].
    by apply floor_draw_range.
Qed.

(** The sampler returns [min(count, max)] seconds (none when [count] is
    not positive). *)
Lemma sampleUnique_length count max rng l rng' :
  0 <= max →
  sampleUnique count max rng = Some (l, rng') →
  Z.of_nat (length l) = Z.max 0 (Z.min count max).
Proof.
  intros Hmax. unfold sampleUnique. case_decide as Hge.
  - intros [= <- <-]. rewrite length_seqZ. lia.
  - unfold bind. destruct (pickUntil count max ∅ rng) as [[s r]|] eqn:Hpick; [|done].
    intros [= <- <-].
    rewrite (Permutation_length (merge_sort_Permutation _ _)).
    change (length (elements s)) with (size s).
    rewrite (pickUntil_size _ _ _ _ _ _ Hpick). rewrite size_empty. lia.
Qed.

Lemma sampleUnique_range count max rng l rng' :
  0 < max → validDraws rng →
  sampleUnique count max rng = Some (l, rng') →
  Forall (λ x, 0 <= x < max) l ∧ validDraws rng'.
Proof.
  intros Hmax Hvalid. unfold sampleUnique. case_decide as Hge.
  - intros [= <- <-]. split; [|done].
    apply Forall_forall. intros x Hx. apply elem_of_seqZ in Hx. lia.
  - unfold bind. destruct (pickUntil count max ∅ rng) as [[s r]|] eqn:Hpick; [|done].
    intros [= <- <-].
    assert (∀ x : Z, x ∈ (∅ : gset Z) → 0 <= x < max) as Hempty
      by (intros x Hx; by apply not_elem_of_empty in Hx).
    destruct (pickUntil_range _ _ _ _ _ _ Hmax Hvalid Hempty Hpick) as [Hs Hr].
    split; [|done]. apply Forall_forall. intros x Hx.
    rewrite merge_sort_Permutation in Hx. apply elem_of_elements in Hx. by apply Hs.
Qed.

(** When the whole span is asked for, no random number is drawn. *)
Lemma sampleUnique_all count max rng :
  count >= max → sampleUnique count max rng = Some (seqZ 0 max, rng).
Proof. intros Hge. unfold sampleUnique. by case_decide. Qed.

End SamplerFacts.

(** ** The full schedule *)

Module FullScheduleFacts.
Import Random Sampler Generator FullSchedule.

Lemma buyCount_app l1 l2 : buyCount (l1 ++ l2) = (buyCount l1 + buyCount l2)%nat.
Proof. unfold buyCount. by rewrite filter_app, length_app. Qed.

Lemma buyCount_insertByAt e l :
  buyCount (insertByAt e l) = buyCount (e :: l).
Proof.
  induction l as [|x l IH]; simpl; [done|].
  case_decide; [done|].
  change (x :: insertByAt e l) with ([x] ++ insertByAt e l).
  change (e :: x :: l) with ([e] ++ [x] ++ l).
  rewrite !buyCount_app, IH.
  change (e :: l) with ([e] ++ l). rewrite buyCount_app. lia.
Qed.

(** Sorting does not change the number of buys. *)
Lemma buyCount_sortByAt l : buyCount (sortByAt l) = buyCount l.
Proof.
  induction l as [|e l IH]; simpl; [done|].
  rewrite buyCount_insertByAt.
  change (e :: sortByAt l) with ([e] ++ sortByAt l).
  change (e :: l) with ([e] ++ l). by rewrite !buyCount_app, IH.
Qed.

Lemma buyCount_buys (f : Z → Z) (l : list Z) :
  buyCount ((λ s, buyEvent (f s)) <$> l) = length l.
Proof.
  unfold buyCount. induction l as [|x l IH]; [done|].
  rewrite fmap_cons, filter_cons_True by done. simpl. by rewrite IH.
Qed.

Lemma buyCount_special presaleStart :
  buyCount ((countdownEvent presaleStart <$> countdownMessages) ++ [startEvent presaleStart])
  = 0%nat.
Proof. reflexivity. Qed.

(** With a burst that covers the whole total, the schedule is the
    sorted special phase: no regular schedule is generated. *)
Lemma generateFullSchedule_burst_only config shuffle rng sp entries effectiveEnd rng' :
  specialPhaseOn config = Some sp →
  0 < initialBurstCount sp →
  totalMessagesNeeded config <= initialBurstCount sp →
  generateFullSchedule config shuffle rng = Some ((entries, effectiveEnd), rng') →
  ∃ secs,
    sampleUniqueSeconds (initialBurstCount sp) (burstSpanSec sp) rng = Some (secs, rng')
    ∧ entries = sortByAt
        (((countdownEvent (presaleStartUtc sp) <$> countdownMessages)
          ++ [startEvent (presaleStartUtc sp)])
         ++ ((λ s, buyEvent (presaleStartUtc sp + s * 1000)) <$> secs)).
Proof.
  intros Hon Hpos Hcover. unfold generateFullSchedule. rewrite Hon.
  unfold specialEntries. fold (burstSpanSec sp).
  case_decide as Hburst; [|lia].
  unfold bind at 1. unfold bind at 1.
  destruct (sampleUniqueSeconds (initialBurstCount sp) (burstSpanSec sp) rng)
    as [[secs r]|] eqn:Hsecs; [|done].
  unfold ret at 1. case_decide as Hrem; [lia|].
  unfold ret. intros [= <- _ <-]. by exists secs.
Qed.

(** C10, refuted as stated: with a burst of 100 buys asked for in a
    window of one minute and a total of 50, the schedule has 60 buys
    (one for each second of the window), not 100. *)
Lemma C10_counterexample :
  ¬ (∀ config shuffle rng sp entries effectiveEnd rng',
       specialPhaseOn config = Some sp →
       totalMessagesNeeded config < initialBurstCount sp →
       generateFullSchedule config shuffle rng = Some ((entries, effectiveEnd), rng') →
       Z.of_nat (buyCount entries)
       = Z.max (initialBurstCount sp) (totalMessagesNeeded config)).
Proof.
  intros Hclaim.
  destruct (generateFullSchedule Examples.burstConfig id []) as [[[entries e] r]|] eqn:Hgen;
    [|by vm_compute in Hgen].
  specialize (Hclaim Examples.burstConfig id [] Examples.burstPhase entries e r
                eq_refl ltac:(by vm_compute) Hgen).
  vm_compute in Hgen. injection Hgen as <- _ _.
  vm_compute in Hclaim. discriminate Hclaim.
Qed.

(** C10, as the code has it.  When the special phase is enabled with a
    positive burst count that is at least the total number of messages,
    nothing remains for the regular schedule (the counter is clamped at
    0) and the buys of the schedule are those of the burst.  Their
    number is the burst count cut to the number of seconds of the burst
    window, [max(1, burstSpanSec)], because the sampler returns distinct
    seconds; it is never cut to the total.  So the schedule has
    [initialBurstCount] buys, which is
    [max(initialBurstCount, totalMessagesNeeded)], whenever the burst
    count does not exceed the seconds of the window. *)
Theorem C10_burst_not_cut_to_total_but_to_window
    (config : Config) (shuffle : list nat → list nat) (rng rng' : Rng)
    (sp : SpecialPhase) (entries : list Event) (effectiveEnd : Z) :
  specialPhaseOn config = Some sp →
  0 < initialBurstCount sp →
  totalMessagesNeeded config <= initialBurstCount sp →
  generateFullSchedule config shuffle rng = Some ((entries, effectiveEnd), rng') →
  Z.of_nat (buyCount entries)
  = Z.min (initialBurstCount sp) (Z.max 1 (burstSpanSec sp))
  ∧ (initialBurstCount sp <= Z.max 1 (burstSpanSec sp) →
     Z.of_nat (buyCount entries)
     = Z.max (initialBurstCount sp) (totalMessagesNeeded config)).
Proof.
  intros Hon Hpos Hcover Hgen.
  destruct (generateFullSchedule_burst_only _ _ _ _ _ _ _ Hon Hpos Hcover Hgen)
    as (secs & Hsecs & ->).
  assert (Z.of_nat (buyCount (sortByAt
            (((countdownEvent (presaleStartUtc sp) <$> countdownMessages)
              ++ [startEvent (presaleStartUtc sp)])
             ++ ((λ s, buyEvent (presaleStartUtc sp + s * 1000)) <$> secs))))
          = Z.min (initialBurstCount sp) (Z.max 1 (burstSpanSec sp))) as Hcount.
  { rewrite buyCount_sortByAt, buyCount_app, buyCount_special, buyCount_buys.
    pose proof (SamplerFacts.sampleUnique_length (initialBurstCount sp)
                  (Z.max 1 (burstSpanSec sp)) rng secs rng' ltac:(lia) Hsecs).
    lia. }
  split; [done|]. intros Hfits. rewrite Hcount. lia.
Qed.

(** The configuration of the counterexample: 100 buys asked for in a
    window of 60 seconds give 60 buys. *)
Lemma C10_witness :
  specialPhaseOn Examples.burstConfig = Some Examples.burstPhase
  ∧ 0 < initialBurstCount Examples.burstPhase
  ∧ totalMessagesNeeded Examples.burstConfig <= initialBurstCount Examples.burstPhase
  ∧ ∃ entries effectiveEnd,
      generateFullSchedule Examples.burstConfig id [] = Some ((entries, effectiveEnd), [])
      ∧ Z.of_nat (buyCount entries) = 60.
Proof.
  split; [reflexivity|]. split; [reflexivity|].
  assert (totalMessagesNeeded Examples.burstConfig
          <= initialBurstCount Examples.burstPhase) as Hcover by (by vm_compute).
  split; [exact Hcover|].
  destruct (generateFullSchedule Examples.burstConfig id []) as [[[entries e] r]|] eqn:Hgen;
    [|by vm_compute in Hgen].
  assert (r = []) as -> by (vm_compute in Hgen; by injection Hgen as _ _ <-).
  exists entries, e. split; [reflexivity|].
  exact (proj1 (C10_burst_not_cut_to_total_but_to_window Examples.burstConfig id [] []
                  Examples.burstPhase entries e eq_refl eq_refl Hcover Hgen)).
Defined.

End FullScheduleFacts.

(** ** The regular schedule *)

Module GeneratorFacts.
Import Random Sampler Generator Intervals.

Lemma preserves_ret {A} (a : A) (P : A → Prop) : P a → preserves (ret a) P.
Proof. intros Ha rng a' rng' Hv [= <- <-]. done. Qed.

Lemma preserves_bind {A B} (m : M A) (k : A → M B) (P : A → Prop) (Q : B → Prop) :
  preserves m P → (∀ a, P a → preserves (k a) Q) → preserves (bind m k) Q.
Proof.
  intros Hm Hk rng b rng' Hv. unfold bind.
  destruct (m rng) as [[a r]|] eqn:Hrun; [|done].
  destruct (Hm _ _ _ Hv Hrun) as [Ha Hr]. by apply Hk.
Qed.

Lemma preserves_random : preserves random validDraw.
Proof.
  intros [|x rng] a rng' Hv; simpl; [done|]. intros [= <- <-].
  by apply Forall_cons in Hv.
Qed.

Lemma preserves_weaken {A} (m : M A) (P Q : A → Prop) :
  (∀ a, P a → Q a) → preserves m P → preserves m Q.
Proof. intros HPQ Hm rng a rng' Hv Hrun. destruct (Hm _ _ _ Hv Hrun). auto. Qed.

Lemma preserves_forEach {A B} (f : A → M B) (l : list A) (P : B → Prop) :
  (∀ x, x ∈ l → preserves (f x) P) →
  preserves (forEach f l) (λ ys, Forall P ys ∧ length ys = length l).
Proof.
  induction l as [|x l IH]; intros Hf; simpl.
  - by apply preserves_ret.
  - apply (preserves_bind _ _ P); [apply Hf; by left|]. intros y Hy.
    apply (preserves_bind _ _ (λ ys, Forall P ys ∧ length ys = length l)).
    + apply IH. intros z Hz. apply Hf. by right.
    + intros ys [Hys Hlen]. apply preserves_ret. split; [by constructor|].
      simpl. by rewrite Hlen.
Qed.

Lemma preserves_sampleUnique count max :
  0 < max → preserves (sampleUnique count max) (Forall (λ x, 0 <= x < max)).
Proof. intros Hmax rng l rng' Hv Hrun. by apply (SamplerFacts.sampleUnique_range count max rng). Qed.

(** The events of an hour at or after the start are at or after the start. *)
Lemma preserves_hourEvents start perHour h :
  0 <= h → preserves (hourEvents start perHour h) (Forall (λ t, start <= t)).
Proof.
  intros Hh. unfold hourEvents. destruct (perHour !! Z.to_nat h) as [quota|].
  - apply (preserves_bind _ _ (Forall (λ x, 0 <= x < 3600))).
    + by apply preserves_sampleUnique.
    + intros seconds Hsec. apply preserves_ret.
      apply Forall_fmap. eapply Forall_impl; [exact Hsec|]. simpl. intros s Hs. lia.
  - by apply preserves_ret.
Qed.

Lemma Sorted_sortedTimes l : Sorted Z.le l → sortedTimes l.
Proof.
  induction 1 as [|a l Hs IH Hhd]; intros i x y Hx Hy.
  - by rewrite lookup_nil in Hx.
  - destruct i as [|i]; simpl in *.
    + simplify_eq. destruct Hhd as [|b l Hab]; simpl in Hy; by simplify_eq.
    + by apply (IH i).
Qed.

Lemma sortedTimes_tail a l : sortedTimes (a :: l) → sortedTimes l.
Proof. intros Hs i x y Hx Hy. by apply (Hs (S i)). Qed.

Lemma sortedTimes_Sorted l : sortedTimes l → Sorted Z.le l.
Proof.
  induction l as [|a l IH]; intros Hs; [constructor|].
  constructor; [apply IH; by eapply sortedTimes_tail|].
  destruct l as [|b l]; constructor. by apply (Hs 0%nat).
Qed.

(** In a sorted array every cell is at or after the first. *)
Lemma sortedTimes_from_head l a :
  sortedTimes l → l !! 0%nat = Some a → Forall (λ t, a <= t) l.
Proof.
  intros Hs Hhead. apply Forall_lookup. intros i.
  induction i as [|i IH]; intros x Hx.
  - simplify_eq. lia.
  - destruct (lookup_lt_is_Some_2 l i) as [y Hy].
    { apply lookup_lt_Some in Hx. lia. }
    specialize (IH y Hy). specialize (Hs i y x Hy Hx). lia.
Qed.

(** [enforceUniqueIntervals] keeps a sorted schedule sorted and at or
    after any instant that was before all of it. *)
Lemma enforceUniqueIntervals_lower_bound l start :
  sortedTimes l → Forall (λ t, start <= t) l →
  sortedTimes (enforceUniqueIntervals l)
  ∧ Forall (λ t, start <= t) (enforceUniqueIntervals l).
Proof.
  intros Hs Hl.
  destruct (IntervalsFacts.enforceUniqueIntervals_Inv l Hs) as [k HI].
  pose proof (inv_sorted _ _ _ HI) as Hs'.
  split; [done|].
  destruct (enforceUniqueIntervals l !! 0%nat) as [a|] eqn:Hhead.
  - pose proof (sortedTimes_from_head _ _ Hs' Hhead) as Hall.
    rewrite IntervalsFacts.enforceUniqueIntervals_head in Hhead.
    assert (start <= a) as Ha.
    { rewrite Forall_lookup in Hl. by apply (Hl 0%nat). }
    eapply Forall_impl; [exact Hall|]. simpl. intros t Ht. lia.
  - apply lookup_ge_None in Hhead.
    destruct (enforceUniqueIntervals l); [constructor|simpl in Hhead; lia].
Qed.

(** The schedule [generateSchedule] returns is sorted and does not start
    before [config.startTimeUtc]. *)
Lemma preserves_generateSchedule config shuffle :
  preserves (generateSchedule config shuffle)
    (λ r, sortedTimes r.1.1 ∧ Forall (λ t, startTimeUtc config <= t) r.1.1
          ∧ r.1.2 = startTimeUtc config + scheduleHours config * 3600000
          ∧ r.2 = totalMessagesNeeded config).
Proof.
  unfold generateSchedule.
  apply (preserves_bind _ _ (λ _, True)).
  { unfold perHourQuotas.
    apply (preserves_bind _ _ (λ _, True)); [|intros; by apply preserves_ret].
    unfold generatePerHourWeights.
    eapply preserves_weaken; [|apply (preserves_forEach _ _ (λ _, True))]; [done|].
    intros i _. apply (preserves_bind _ _ validDraw); [apply preserves_random|].
    intros; by apply preserves_ret. }
  intros perHour _.
  apply (preserves_bind _ _ (Forall (Forall (λ t, startTimeUtc config <= t)))).
  { eapply preserves_weaken; [|apply preserves_forEach].
    - by intros ys [Hys _].
    - intros h Hh. apply elem_of_seqZ in Hh. apply preserves_hourEvents. lia. }
  intros perHourEvents Hall. apply preserves_ret. simpl.
  assert (Forall (λ t, startTimeUtc config <= t) (merge_sort Z.le (concat perHourEvents)))
    as Hsorted_ge.
  { rewrite merge_sort_Permutation. by apply Forall_concat. }
  assert (sortedTimes (merge_sort Z.le (concat perHourEvents))) as Hsorted.
  { apply Sorted_sortedTimes, Sorted_merge_sort. intros x y. lia. }
  destruct (enforceUniqueIntervals_lower_bound _ _ Hsorted Hsorted_ge). done.
Qed.

(** A boolean test for draws in [0, 1). *)
Lemma validDraws_check rng :
  forallb (λ x, Qle_bool 0 x && negb (Qle_bool 1 x)) rng = true → validDraws rng.
Proof.
  induction rng as [|x rng IH]; simpl; [constructor|].
  intros [[H0 H1]%andb_prop Hrest]%andb_prop. constructor; [|by apply IH].
  split; [by apply Qle_bool_iff|].
  apply Qnot_le_lt. intros Hle%Qle_bool_iff. by rewrite Hle in H1.
Qed.

Lemma validDraws_smallDraws : validDraws Examples.smallDraws.
Proof. apply validDraws_check. by vm_compute. Qed.

(** C1, the case the code misses.  A valid configuration: two hours
    from Tuesday 2025-08-12 22:00 UTC, 2000 USD in messages of 100 USD
    (20 messages), at most 10 messages an hour.  With the noise draws
    0.9 and 0.1 the weights are 0.95 * 1.0 * 1.17 and 1.04058667 * 1.0
    * 0.93; the rounded shares are 11 and 9, which already sum to 20,
    so the block that clips to [maxPerHour] is not entered: the quota
    of the first hour is 11 > 10, and 11 events are laid out in it. *)
Theorem C1_quota_above_maxPerHour_when_rounding_sums_exactly :
  (0 < targetTotalUsd Examples.smallConfig)%Q
  ∧ (0 < amountPerMessageUsd Examples.smallConfig)%Q
  ∧ maxPerHour Examples.smallConfig = 10
  ∧ validDraws Examples.smallDraws
  ∧ totalMessagesNeeded Examples.smallConfig = 20
  ∧ scheduleHours Examples.smallConfig = 2
  ∧ fst <$> perHourQuotas Examples.smallConfig id Examples.smallDraws = Some [11; 9]
  ∧ (λ r, length (filter (λ t, t < Examples.tuesday22h + 3600000) r.1.1.1))
      <$> generateSchedule Examples.smallConfig id Examples.smallDraws
    = Some 11%nat.
Proof.
  split; [by vm_compute|]. split; [by vm_compute|]. split; [done|].
  split; [apply validDraws_smallDraws|].
  split; [by vm_compute|]. split; [by vm_compute|].
  split; by vm_compute.
Qed.

End GeneratorFacts.

(** ** The special phase *)

Module SpecialPhaseFacts.
Import Random Sampler Generator Intervals FullSchedule.

(** The stable sort leaves a sorted array as it is. *)
Lemma sortByAt_sorted l : sortedByAt l → sortByAt l = l.
Proof.
  induction 1 as [|e l Hs IH Hhd]; simpl; [done|].
  fold (sortByAt l). rewrite IH.
  destruct Hhd as [|x l Hex]; simpl; [done|]. by case_decide.
Qed.

Lemma sortedByAt_buys (times : list Z) :
  sortedTimes times → sortedByAt (buyEvent <$> times).
Proof.
  intros Hs%GeneratorFacts.sortedTimes_Sorted.
  induction Hs as [|a l Hs IH Hhd]; [constructor|].
  rewrite fmap_cons. constructor; [done|].
  destruct Hhd as [|b l Hab]; [constructor|]. rewrite fmap_cons. by constructor.
Qed.

(** The countdown and the start, followed by sorted buys none of which
    is before the start, are in order. *)
Lemma sortedByAt_special presaleStart (times : list Z) :
  sortedTimes times → Forall (λ t, presaleStart <= t) times →
  sortedByAt (((countdownEvent presaleStart <$> countdownMessages)
               ++ [startEvent presaleStart]) ++ (buyEvent <$> times)).
Proof.
  intros Hs Hge. pose proof (sortedByAt_buys times Hs) as Hbuys.
  simpl. unfold sortedByAt.
  repeat (constructor; [|constructor; simpl; lia]).
  constructor; [done|].
  destruct times as [|t times]; [constructor|].
  rewrite fmap_cons. constructor. simpl. by apply Forall_cons in Hge as [? _].
Qed.

(** C7. With the special phase enabled and [initialBurstCount = 0], and
    draws in [0, 1), the schedule that [generateFullSchedule] returns
    is: the 8 countdown entries at 59, 30, 15, 5, 4, 3, 2 and 1 minutes
    before the launch, then the start entry at the launch, then the buy
    entries.  The first nine instants increase strictly and end at the
    launch; no buy comes before them in the array and none is earlier
    than the launch; the buys are the schedule that [generateSchedule]
    produces for a window starting at the launch (none when the total
    is 0). *)
Theorem C7_special_phase_countdown_then_start_then_buys
    (config : Config) (shuffle : list nat → list nat) (rng rng' : Rng)
    (sp : SpecialPhase) (entries : list Event) (effectiveEnd : Z) :
  specialPhaseOn config = Some sp →
  initialBurstCount sp = 0 →
  validDraws rng →
  generateFullSchedule config shuffle rng = Some ((entries, effectiveEnd), rng') →
  ∃ buys : list Z,
    entries = (countdownEvent (presaleStartUtc sp) <$> countdownMessages)
              ++ [startEvent (presaleStartUtc sp)]
              ++ (buyEvent <$> buys)
    ∧ at_ <$> ((countdownEvent (presaleStartUtc sp) <$> countdownMessages)
               ++ [startEvent (presaleStartUtc sp)])
      = specialInstants (presaleStartUtc sp)
    ∧ kind <$> ((countdownEvent (presaleStartUtc sp) <$> countdownMessages)
                ++ [startEvent (presaleStartUtc sp)])
      = [KCountdown; KCountdown; KCountdown; KCountdown;
         KCountdown; KCountdown; KCountdown; KCountdown; KStart]
    ∧ Sorted Z.lt (specialInstants (presaleStartUtc sp))
    ∧ sortedTimes buys
    ∧ Forall (λ t, presaleStartUtc sp <= t) buys
    ∧ (if decide (totalMessagesNeeded config > 0) then
         generateSchedule
           (withStartAndTarget config (presaleStartUtc sp)
              (inject_Z (totalMessagesNeeded config) * amountPerMessageUsd config)%Q)
           shuffle rng
         = Some ((buys, effectiveEnd,
                  totalMessagesNeeded
                    (withStartAndTarget config (presaleStartUtc sp)
                       (inject_Z (totalMessagesNeeded config)
                        * amountPerMessageUsd config)%Q)), rng')
       else buys = [] ∧ effectiveEnd = presaleStartUtc sp).
Proof.
  intros Hon Hburst Hvalid. unfold generateFullSchedule. rewrite Hon.
  unfold specialEntries. rewrite Hburst.
  case_decide as H0; [lia|]. unfold bind at 1. unfold ret at 1.
  assert (Sorted Z.lt (specialInstants (presaleStartUtc sp))) as Hinc.
  { unfold specialInstants. repeat (constructor; [|constructor; lia]). repeat constructor. }
  case_decide as Htotal.
  - set (normalConfig := withStartAndTarget config (presaleStartUtc sp) _).
    unfold bind.
    destruct (generateSchedule normalConfig shuffle rng) as [[[[buys e] t] r]|] eqn:Hgen; [|done].
    unfold ret. intros [= <- <- <-].
    destruct (GeneratorFacts.preserves_generateSchedule normalConfig shuffle _ _ _ Hvalid Hgen)
      as [(Hsorted & Hge & _ & Ht) _]. simpl in Hsorted, Hge, Ht.
    exists buys. split.
    { transitivity (sortByAt (((countdownEvent (presaleStartUtc sp) <$> countdownMessages)
                               ++ [startEvent (presaleStartUtc sp)]) ++ (buyEvent <$> buys)));
        [reflexivity|].
      rewrite (sortByAt_sorted _ (sortedByAt_special (presaleStartUtc sp) buys Hsorted Hge)).
      by rewrite <- app_assoc. }
    do 5 (split; [done|]). by rewrite Ht.
  - assert (sortedByAt ((countdownEvent (presaleStartUtc sp) <$> countdownMessages)
                        ++ [startEvent (presaleStartUtc sp)])) as Hs.
    { pose proof (sortedByAt_special (presaleStartUtc sp) [] ltac:(done) ltac:(done)) as Hs.
      by rewrite app_nil_r in Hs. }
    cbv zeta. rewrite !(sortByAt_sorted _ Hs).
    unfold ret. intros [= <- <- <-]. exists [].
    split; [done|]. do 3 (split; [done|]). split; [done|]. split; [done|]. done.
Qed.

Lemma validDraws_countdownDraws : validDraws Examples.countdownDraws.
Proof. apply GeneratorFacts.validDraws_check. by vm_compute. Qed.

(** The launch on Tuesday 22:00 with three buys in the hour after it. *)
Lemma C7_witness :
  specialPhaseOn Examples.countdownConfig = Some Examples.countdownPhase
  ∧ initialBurstCount Examples.countdownPhase = 0
  ∧ validDraws Examples.countdownDraws
  ∧ ∃ entries effectiveEnd buys,
      generateFullSchedule Examples.countdownConfig id Examples.countdownDraws
      = Some ((entries, effectiveEnd), [])
      ∧ entries = (countdownEvent Examples.tuesday22h <$> countdownMessages)
                  ++ [startEvent Examples.tuesday22h] ++ (buyEvent <$> buys)
      ∧ length buys = 3%nat.
Proof.
  split; [reflexivity|]. split; [reflexivity|].
  split; [apply validDraws_countdownDraws|].
  destruct (generateFullSchedule Examples.countdownConfig id Examples.countdownDraws)
    as [[[entries e] r]|] eqn:Hgen; [|by vm_compute in Hgen].
  assert (r = [] ∧ length entries = 12%nat) as [-> Hlen].
  { pose proof Hgen as Hval. vm_compute in Hval.
    injection Hval as Hl _ Hr. split; [by rewrite <- Hr|]. rewrite <- Hl. reflexivity. }
  destruct (C7_special_phase_countdown_then_start_then_buys Examples.countdownConfig id
              Examples.countdownDraws [] Examples.countdownPhase entries e
              eq_refl eq_refl validDraws_countdownDraws Hgen)
    as (buys & Hentries & _ & _ & _ & _ & _ & Hbuys).
  exists entries, e, buys. split; [reflexivity|]. split; [exact Hentries|].
  rewrite Hentries in Hlen. rewrite !length_app, !length_fmap in Hlen.
  simpl in Hlen. lia.
Defined.

End SpecialPhaseFacts.

(** ** The count allocator *)

Module AllocatorFacts.
Import Generator.

Lemma sumZ_from (acc : Z) (l : list Z) : foldl Z.add acc l = acc + sumZ l.
Proof.
  unfold sumZ. revert acc. induction l as [|x l IH]; intros acc; simpl; [lia|].
  rewrite IH, (IH (0 + x)). lia.
Qed.

Lemma sumZ_cons x l : sumZ (x :: l) = x + sumZ l.
Proof. unfold sumZ at 1. simpl. rewrite sumZ_from. lia. Qed.

Lemma sumZ_insert (l : list Z) i n v :
  l !! i = Some n → sumZ (<[i := v]> l) = sumZ l - n + v.
Proof.
  revert i. induction l as [|x l IH]; intros [|i]; simpl; try done.
  - intros [= ->]. rewrite !sumZ_cons. lia.
  - intros Hi. rewrite !sumZ_cons, (IH _ Hi). lia.
Qed.

Lemma sumZ_nonneg l : Forall (λ n, 0 <= n) l → 0 <= sumZ l.
Proof. induction 1 as [|x l Hx _ IH]; [done|]. rewrite sumZ_cons. lia. Qed.

Lemma sumZ_const (c : Z) (l : list Z) :
  (∀ i, (i < length l)%nat → l !! i = Some c) → sumZ l = Z.of_nat (length l) * c.
Proof.
  induction l as [|x l IH]; intros Hall; [done|].
  rewrite sumZ_cons. pose proof (Hall 0%nat ltac:(simpl; lia)) as H0.
  simpl in H0. injection H0 as ->.
  rewrite IH; [simpl length; lia|].
  intros i Hi. apply (Hall (S i)). simpl. lia.
Qed.

Lemma addStep_length maxPerHour acc i :
  length (addStep maxPerHour acc i).1 = length acc.1.
Proof.
  destruct acc as [p d]. unfold addStep. case_decide; [done|].
  destruct (p !! i); [|done]. case_decide; [|done]. simpl. by rewrite length_insert.
Qed.

Lemma removeStep_length acc i : length (removeStep acc i).1 = length acc.1.
Proof.
  destruct acc as [p d]. unfold removeStep. case_decide; [done|].
  destruct (p !! i); [|done]. case_decide; [|done]. simpl. by rewrite length_insert.
Qed.

Lemma addStep_Moving maxPerHour total visited acc i :
  Moving maxPerHour total 1 maxPerHour visited acc →
  Moving maxPerHour total 1 maxPerHour (λ j, j = i ∨ visited j) (addStep maxPerHour acc i).
Proof.
  destruct acc as [p d]. intros [Hrange Hsum Hleft Hvis]. simpl in *.
  unfold addStep. case_decide as Hd.
  { split; simpl; try done. left. lia. }
  destruct Hvis as [?|Hvis]; [lia|].
  destruct (p !! i) as [n|] eqn:Hi.
  2:{ split; simpl; try done. right. intros j [->|Hj] Hlt; [|by apply Hvis].
      apply lookup_ge_None in Hi. lia. }
  assert (0 <= n <= maxPerHour) as Hn.
  { rewrite Forall_lookup in Hrange. by apply (Hrange i). }
  case_decide as Hroom.
  - split; simpl.
    + apply Forall_insert; [done|lia].
    + rewrite (sumZ_insert _ _ _ _ Hi). lia.
    + lia.
    + destruct (decide (d <= maxPerHour - n)) as [Hall|Hsome]; [left; lia|].
      right. intros j Hj Hlt. rewrite length_insert in Hlt.
      destruct (decide (j = i)) as [->|Hne].
      * rewrite list_lookup_insert_eq by done. f_equal. lia.
      * rewrite list_lookup_insert_ne by done. destruct Hj as [?|Hj]; [done|by apply Hvis].
  - split; simpl; try done. right. intros j [->|Hj] Hlt; [|by apply Hvis].
    rewrite Hi. f_equal. lia.
Qed.

Lemma removeStep_Moving maxPerHour total visited acc i :
  Moving maxPerHour total (-1) 0 visited acc →
  Moving maxPerHour total (-1) 0 (λ j, j = i ∨ visited j) (removeStep acc i).
Proof.
  destruct acc as [p d]. intros [Hrange Hsum Hleft Hvis]. simpl in *.
  unfold removeStep. case_decide as Hd.
  { split; simpl; try done. left. lia. }
  destruct Hvis as [?|Hvis]; [lia|].
  destruct (p !! i) as [n|] eqn:Hi.
  2:{ split; simpl; try done. right. intros j [->|Hj] Hlt; [|by apply Hvis].
      apply lookup_ge_None in Hi. lia. }
  assert (0 <= n <= maxPerHour) as Hn.
  { rewrite Forall_lookup in Hrange. by apply (Hrange i). }
  case_decide as Hroom.
  - split; simpl.
    + apply Forall_insert; [done|lia].
    + rewrite (sumZ_insert _ _ _ _ Hi). lia.
    + lia.
    + destruct (decide (d <= n)) as [Hall|Hsome]; [left; lia|].
      right. intros j Hj Hlt. rewrite length_insert in Hlt.
      destruct (decide (j = i)) as [->|Hne].
      * rewrite list_lookup_insert_eq by done. f_equal. lia.
      * rewrite list_lookup_insert_ne by done. destruct Hj as [?|Hj]; [done|by apply Hvis].
  - split; simpl; try done. right. intros j [->|Hj] Hlt; [|by apply Hvis].
    rewrite Hi. f_equal. lia.
Qed.

Lemma addLoop_Moving maxPerHour total idxs visited acc :
  Moving maxPerHour total 1 maxPerHour visited acc →
  Moving maxPerHour total 1 maxPerHour (λ j, j ∈ idxs ∨ visited j)
    (foldl (addStep maxPerHour) acc idxs)
  ∧ length (foldl (addStep maxPerHour) acc idxs).1 = length acc.1.
Proof.
  revert visited acc. induction idxs as [|i idxs IH]; intros visited acc Hm; simpl.
  - split; [|done]. destruct Hm as [H1 H2 H3 H4]. split; try done.
    destruct H4 as [?|H4]; [by left|right]. intros j [Hj|Hj]; [by apply elem_of_nil in Hj|by apply H4].
  - destruct (IH _ _ (addStep_Moving _ _ _ _ i Hm)) as [[H1 H2 H3 H4] Hlen].
    rewrite Hlen, addStep_length. split; [|done]. split; try done.
    destruct H4 as [?|H4]; [by left|right]. intros j Hj. apply H4.
    destruct Hj as [[->|Hj]%elem_of_cons|Hj]; auto.
Qed.

Lemma removeLoop_Moving maxPerHour total idxs visited acc :
  Moving maxPerHour total (-1) 0 visited acc →
  Moving maxPerHour total (-1) 0 (λ j, j ∈ idxs ∨ visited j)
    (foldl removeStep acc idxs)
  ∧ length (foldl removeStep acc idxs).1 = length acc.1.
Proof.
  revert visited acc. induction idxs as [|i idxs IH]; intros visited acc Hm; simpl.
  - split; [|done]. destruct Hm as [H1 H2 H3 H4]. split; try done.
    destruct H4 as [?|H4]; [by left|right]. intros j [Hj|Hj]; [by apply elem_of_nil in Hj|by apply H4].
  - destruct (IH _ _ (removeStep_Moving _ _ _ _ i Hm)) as [[H1 H2 H3 H4] Hlen].
    rewrite Hlen, removeStep_length. split; [|done]. split; try done.
    destruct H4 as [?|H4]; [by left|right]. intros j Hj. apply H4.
    destruct Hj as [[->|Hj]%elem_of_cons|Hj]; auto.
Qed.

(** The reconciliation: with non-negative rounded shares, room for the
    total within the cap, and a shuffle that is a permutation, the
    quotas are non-negative and sum to the total; they are within the
    cap when the rounded shares did not already sum to the total, and
    they are the rounded shares themselves otherwise. *)
Lemma reconcile_spec maxPerHour total hours shuffle (perHour : list Z) :
  1 <= maxPerHour →
  0 <= total <= hours * maxPerHour →
  length perHour = Z.to_nat hours →
  (∀ l, shuffle l ≡ₚ l) →
  Forall (λ n, 0 <= n) perHour →
  let quotas := reconcile maxPerHour total hours shuffle perHour in
  length quotas = length perHour
  ∧ Forall (λ n, 0 <= n) quotas
  ∧ sumZ quotas = total
  ∧ (sumZ perHour ≠ total → Forall (λ n, n <= maxPerHour) quotas)
  ∧ (sumZ perHour = total → quotas = perHour).
Proof.
  intros Hmax Htotal Hlen Hperm Hnonneg. unfold reconcile. cbv zeta.
  case_decide as Hdrift; [|repeat split; try done; by apply dec_stable].
  set (clipped := (λ n, Z.min n maxPerHour) <$> perHour).
  assert (Forall (λ n, 0 <= n <= maxPerHour) clipped) as Hclip.
  { apply Forall_fmap. eapply Forall_impl; [exact Hnonneg|]. simpl. lia. }
  assert (length clipped = length perHour) as Hlenc by apply length_fmap.
  assert (∀ i, (i < length clipped)%nat → i ∈ shuffle (seq 0 (Z.to_nat hours))) as Hcover.
  { intros i Hi. rewrite Hperm. apply elem_of_seq. lia. }
  assert (∀ q : list Z, Forall (λ n, 0 <= n <= maxPerHour) q →
            Forall (λ n, 0 <= n) q ∧ Forall (λ n, n <= maxPerHour) q) as Hsplit.
  { intros q Hq. split; (eapply Forall_impl; [exact Hq|]); simpl; lia. }
  case_decide as Hshort; [|case_decide as Hover].
  - destruct (addLoop_Moving maxPerHour total (shuffle (seq 0 (Z.to_nat hours)))
                (λ _, False) (clipped, total - sumZ clipped)) as [[H1 H2 H3 H4] Hl].
    { split; simpl; [done|lia|lia|right; by intros]. }
    set (res := foldl (addStep maxPerHour) (clipped, total - sumZ clipped) _) in *.
    simpl in Hl. destruct (Hsplit _ H1) as [Hge Hle].
    split; [by rewrite Hl|]. split; [done|]. split; [|done].
    destruct H4 as [H0|Hfull]; [lia|].
    assert (sumZ res.1 = Z.of_nat (length res.1) * maxPerHour) as Hsum.
    { apply sumZ_const. intros i Hi. apply Hfull; [|done]. left. apply Hcover. by rewrite <- Hl. }
    rewrite Hl, Hlenc, Hlen, Z2Nat.id in Hsum by nia. lia.
  - destruct (removeLoop_Moving maxPerHour total (shuffle (seq 0 (Z.to_nat hours)))
                (λ _, False) (clipped, - (total - sumZ clipped))) as [[H1 H2 H3 H4] Hl].
    { split; simpl; [done|lia|lia|right; by intros]. }
    set (res := foldl removeStep (clipped, - (total - sumZ clipped)) _) in *.
    simpl in Hl. destruct (Hsplit _ H1) as [Hge Hle].
    split; [by rewrite Hl|]. split; [done|]. split; [|done].
    destruct H4 as [H0|Hfull]; [lia|].
    assert (sumZ res.1 = Z.of_nat (length res.1) * 0) as Hsum.
    { apply sumZ_const. intros i Hi. apply Hfull; [|done]. left. apply Hcover. by rewrite <- Hl. }
    lia.
  - destruct (Hsplit _ Hclip) as [Hge Hle].
    split; [done|]. split; [done|]. split; [lia|done].
Qed.

End AllocatorFacts.

(** ** The quotas *)

Module QuotaFacts.
Import Random Generator GeneratorFacts.

Lemma Qplus_pos_nonneg (a b : Q) : (0 < a)%Q → (0 <= b)%Q → (0 < a + b)%Q.
Proof.
  intros Ha Hb. apply Qlt_le_trans with (0 + a)%Q.
  - by rewrite Qplus_0_l.
  - rewrite (Qplus_comm a b). by apply Qplus_le_l.
Qed.

Lemma totalMessagesNeeded_pos config :
  (0 < targetTotalUsd config)%Q → (0 < amountPerMessageUsd config)%Q →
  1 <= totalMessagesNeeded config.
Proof.
  intros Ht Ha. unfold totalMessagesNeeded.
  set (x := (targetTotalUsd config / amountPerMessageUsd config)%Q).
  assert (0 < x)%Q as Hx.
  { apply Qlt_shift_div_l; [done|]. by rewrite Qmult_0_l. }
  assert (inject_Z 0 < inject_Z (Qceiling x))%Q as Hc.
  { eapply Qlt_le_trans; [exact Hx|apply Qle_ceiling]. }
  rewrite <- Zlt_Qlt in Hc. lia.
Qed.

(** After the extension the hours can hold the total within the cap. *)
Lemma scheduleHours_room config :
  1 <= maxPerHour config →
  1 <= scheduleHours config
  ∧ totalMessagesNeeded config <= scheduleHours config * maxPerHour config.
Proof.
  intros Hmax. unfold scheduleHours. cbv zeta.
  set (hours := Z.max 1 _). assert (1 <= hours) as Hh by lia.
  case_decide as Hshort; [|lia].
  pose proof (JsFacts.ceilDiv_ge (totalMessagesNeeded config - hours * maxPerHour config)
                (maxPerHour config) ltac:(lia)) as Hceil.
  set (extra := Js.ceilDiv _ _) in *. split; nia.
Qed.

Lemma diurnal_pos hour : 0 <= hour < 24 → (0 < diurnal hour)%Q.
Proof.
  intros Hh. unfold diurnal.
  assert (Forall (λ q, 0 < q)%Q diurnalTable) as Htable
    by (repeat constructor).
  rewrite Forall_forall in Htable. apply Htable, list_elem_of_In, nth_In.
  simpl. lia.
Qed.

Lemma weekdayBias_pos day : 0 <= day < 7 → (0 < weekdayBias day)%Q.
Proof.
  intros Hd. unfold weekdayBias.
  assert (Forall (λ q, 0 < q)%Q weekdayBiasTable) as Htable
    by (repeat constructor).
  rewrite Forall_forall in Htable. apply Htable, list_elem_of_In, nth_In.
  simpl. lia.
Qed.

(** Every weight is positive, and there is one weight per hour. *)
Lemma preserves_generatePerHourWeights start hours :
  preserves (generatePerHourWeights start hours)
    (λ ws, Forall (λ w, 0 < w)%Q ws ∧ length ws = Z.to_nat hours).
Proof.
  unfold generatePerHourWeights.
  eapply preserves_weaken; [|apply (preserves_forEach _ _ (λ w, 0 < w)%Q)].
  - intros ws [Hws Hlen]. split; [done|]. by rewrite Hlen, length_seqZ.
  - intros i _. apply (preserves_bind _ _ validDraw); [apply preserves_random|].
    intros r [Hr0 Hr1]. apply preserves_ret.
    apply Qmult_lt_0_compat; [apply Qmult_lt_0_compat|].
    + apply diurnal_pos. unfold utcHours. by apply Z.mod_pos_bound.
    + apply weekdayBias_pos. unfold utcDay. by apply Z.mod_pos_bound.
    + apply Qplus_pos_nonneg; [done|]. by apply Qmult_le_0_compat.
Qed.

Lemma sumQ_pos (ws : list Q) :
  ws ≠ [] → Forall (λ w, 0 < w)%Q ws → (0 < sumQ ws)%Q.
Proof.
  unfold sumQ.
  assert (∀ l acc, (0 <= acc)%Q → (0 < acc)%Q ∨ l ≠ [] →
            Forall (λ w, 0 < w)%Q l → (0 < foldl Qplus acc l)%Q) as Hgen.
  { induction l as [|x l IH]; intros acc Hacc Hne Hall; simpl.
    - by destruct Hne.
    - apply Forall_cons in Hall as [Hx Hall].
      assert (0 < acc + x)%Q as Hpos.
      { rewrite Qplus_comm. by apply Qplus_pos_nonneg. }
      apply IH; [by apply Qlt_le_weak|by left|done]. }
  intros Hne Hall. apply Hgen; [done|by right|done].
Qed.

(** A rounded share is never negative. *)
Lemma rounded_share_nonneg (w s : Q) (total : Z) :
  (0 < w)%Q → (0 < s)%Q → 0 <= total → 0 <= Js.round (w / s * inject_Z total)%Q.
Proof.
  intros Hw Hs Ht. unfold Js.round. change 0 with (Qfloor 0).
  apply Qfloor_resp_le.
  assert (0 <= w / s * inject_Z total)%Q as Hshare.
  { apply Qmult_le_0_compat.
    - apply Qmult_le_0_compat; [by apply Qlt_le_weak|].
      by apply Qlt_le_weak, Qinv_lt_0_compat.
    - change 0%Q with (inject_Z 0). by rewrite <- Zle_Qle. }
  apply Qle_trans with (0 + (1 # 2))%Q; [done|]. by apply Qplus_le_l.
Qed.

(** The quotas of a valid configuration: one per hour, non-negative
    integers that sum to the number of messages needed.  They are
    within [maxPerHour] when the rounded shares did not already sum to
    that number; otherwise they are the rounded shares, unclipped. *)
Lemma perHourQuotas_spec config shuffle rng quotas rng' :
  (0 < targetTotalUsd config)%Q →
  (0 < amountPerMessageUsd config)%Q →
  1 <= maxPerHour config →
  (∀ l, shuffle l ≡ₚ l) →
  validDraws rng →
  perHourQuotas config shuffle rng = Some (quotas, rng') →
  ∃ weights,
    generatePerHourWeights (startTimeUtc config) (scheduleHours config) rng
    = Some (weights, rng')
    ∧ length quotas = Z.to_nat (scheduleHours config)
    ∧ Forall (λ n, 0 <= n) quotas
    ∧ sumZ quotas = totalMessagesNeeded config
    ∧ (sumZ (roundedShares weights (totalMessagesNeeded config))
         ≠ totalMessagesNeeded config →
       Forall (λ n, n <= maxPerHour config) quotas)
    ∧ (sumZ (roundedShares weights (totalMessagesNeeded config))
         = totalMessagesNeeded config →
       quotas = roundedShares weights (totalMessagesNeeded config)).
Proof.
  intros Ht Ha Hmax Hperm Hvalid. unfold perHourQuotas, bind.
  destruct (generatePerHourWeights _ _ rng) as [[weights r]|] eqn:Hw; [|done].
  unfold ret. intros [= <- <-]. exists weights. split; [done|].
  fold (roundedShares weights (totalMessagesNeeded config)).
  destruct (preserves_generatePerHourWeights _ _ _ _ _ Hvalid Hw) as [[Hpos Hlen] _].
  destruct (scheduleHours_room config Hmax) as [Hh Hroom].
  pose proof (totalMessagesNeeded_pos config Ht Ha) as Htotal.
  assert (weights ≠ []) as Hne.
  { intros ->. simpl in Hlen. lia. }
  pose proof (sumQ_pos weights Hne Hpos) as Hsum.
  assert (Forall (λ n, 0 <= n) (roundedShares weights (totalMessagesNeeded config))) as Hnn.
  { apply Forall_fmap. eapply Forall_impl; [exact Hpos|]. simpl.
    intros w Hw0. apply rounded_share_nonneg; [done|done|lia]. }
  destruct (AllocatorFacts.reconcile_spec (maxPerHour config) (totalMessagesNeeded config)
              (scheduleHours config) shuffle
              (roundedShares weights (totalMessagesNeeded config))
              Hmax ltac:(lia) ltac:(unfold roundedShares; by rewrite length_fmap) Hperm Hnn)
    as (H1 & H2 & H3 & H4 & H5).
  split; [rewrite H1; unfold roundedShares; by rewrite length_fmap|]. done.
Qed.

End QuotaFacts.

(** ** Enough random numbers make the generation return *)

Module Progress.
Import Random Sampler Generator FullSchedule.

Lemma productive_ret {A} (a : A) : productive (ret a).
Proof. exists [], a. split; [constructor|done]. Qed.

Lemma productive_bind {A B} (m : M A) (k : A → M B) :
  productive m → (∀ a, productive (k a)) → productive (bind m k).
Proof.
  intros (pre & a & Hpre & Hm) Hk. destruct (Hk a) as (pre' & b & Hpre' & Hka).
  exists (pre ++ pre'), b. split; [by apply Forall_app|].
  intros rest. unfold bind. by rewrite <- app_assoc, Hm, Hka.
Qed.

Lemma productive_random : productive random.
Proof.
  exists [0%Q], 0%Q. split; [|done].
  constructor; [|constructor]. split; by vm_compute.
Qed.

Lemma productive_forEach {A B} (f : A → M B) (l : list A) :
  (∀ x, productive (f x)) → productive (forEach f l).
Proof.
  intros Hf. induction l as [|x l IH]; simpl; [apply productive_ret|].
  apply productive_bind; [done|]. intros y.
  apply productive_bind; [done|]. intros ys. apply productive_ret.
Qed.

Lemma drawFor_floor max k : 0 < max → Qfloor (drawFor max k * inject_Z max) = k.
Proof.
  intros Hmax. unfold drawFor. rewrite <- (Qfloor_Z k) at 2.
  apply Qfloor_comp. rewrite Qmult_comm. apply Qmult_div_r.
  intros Heq. assert (inject_Z 0 < inject_Z max)%Q as Hlt by (by rewrite <- Zlt_Qlt).
  rewrite Heq in Hlt. by apply Qlt_irrefl in Hlt.
Qed.

Lemma drawFor_valid max k : 0 <= k < max → validDraw (drawFor max k).
Proof.
  intros [Hk0 Hk1]. unfold drawFor.
  assert (inject_Z 0 < inject_Z max)%Q as Hmax by (rewrite <- Zlt_Qlt; lia).
  change (inject_Z 0) with 0%Q in Hmax. split.
  - apply Qle_shift_div_l; [done|]. rewrite Qmult_0_l.
    change 0%Q with (inject_Z 0). by rewrite <- Zle_Qle.
  - apply Qlt_shift_div_r; [done|]. rewrite Qmult_1_l. by rewrite <- Zlt_Qlt.
Qed.

(** Drawing the seconds j, j + 1, ..., count - 1 in turn completes a
    set that holds j seconds, all below j. *)
Lemma pickUntil_returns count max (n : nat) (j : Z) (picked : gset Z) rest :
  0 < max → 0 <= j → j + Z.of_nat n = count →
  Z.of_nat (size picked) = j → (∀ x, x ∈ picked → x < j) →
  ∃ s, pickUntil count max picked ((drawFor max <$> seqZ j (Z.of_nat n)) ++ rest)
       = Some (s, rest).
Proof.
  intros Hmax. revert j picked.
  induction n as [|n IH]; intros j picked Hj Hcount Hsize Hbelow.
  - exists picked. simpl.
    destruct rest as [|x rest];
      [rewrite SamplerFacts.pickUntil_nil|rewrite SamplerFacts.pickUntil_cons];
      case_decide; [lia|done|lia|done].
  - rewrite seqZ_cons by lia. rewrite fmap_cons. simpl app.
    rewrite SamplerFacts.pickUntil_cons. case_decide; [|lia].
    rewrite drawFor_floor by done.
    replace (Z.pred (Z.of_nat (S n))) with (Z.of_nat n) by lia.
    apply IH; [lia|lia| |].
    + rewrite size_union, size_singleton; [lia|].
      intros y ->%elem_of_singleton Hy. specialize (Hbelow _ Hy). lia.
    + intros x [->%elem_of_singleton|Hx]%elem_of_union; [lia|].
      specialize (Hbelow _ Hx). lia.
Qed.

Lemma pickUntil_stop count max picked rng :
  ¬ Z.of_nat (size picked) < count → pickUntil count max picked rng = Some (picked, rng).
Proof.
  intros Hstop. destruct rng as [|x rng];
    [rewrite SamplerFacts.pickUntil_nil|rewrite SamplerFacts.pickUntil_cons];
    by case_decide.
Qed.

(** Draws that follow those the loop uses are left untouched. *)
Lemma pickUntil_app count max picked draws s rest0 r :
  pickUntil count max picked draws = Some (s, rest0) →
  pickUntil count max picked (draws ++ r) = Some (s, rest0 ++ r).
Proof.
  revert picked. induction draws as [|x draws IH]; intros picked.
  - rewrite SamplerFacts.pickUntil_nil. case_decide as Hlt; [done|].
    intros [= <- <-]. by apply pickUntil_stop.
  - rewrite <- app_comm_cons, !SamplerFacts.pickUntil_cons. case_decide as Hlt.
    + apply IH.
    + by intros [= <- <-].
Qed.

Lemma productive_sampleUnique count max : 0 < max → productive (sampleUnique count max).
Proof.
  intros Hmax. unfold sampleUnique. case_decide as Hge; [apply productive_ret|].
  set (n := Z.to_nat count).
  assert (∃ s, pickUntil count max ∅ (drawFor max <$> seqZ 0 (Z.of_nat n)) = Some (s, []))
    as [s Hs].
  { destruct (decide (0 <= count)) as [Hpos|Hneg].
    - destruct (pickUntil_returns count max n 0 ∅ [] Hmax) as [s Hs];
        [lia|lia|by rewrite size_empty| |].
      + intros x Hx. by apply not_elem_of_empty in Hx.
      + exists s. by rewrite app_nil_r in Hs.
    - exists ∅. replace (Z.of_nat n) with 0 by lia.
      apply pickUntil_stop. rewrite size_empty. lia. }
  exists (drawFor max <$> seqZ 0 (Z.of_nat n)), (merge_sort Z.le (elements s)).
  split.
  - apply Forall_fmap, Forall_forall. intros k Hk. apply elem_of_seqZ in Hk.
    apply drawFor_valid. lia.
  - intros rest. unfold bind. by rewrite (pickUntil_app _ _ _ _ _ _ rest Hs).
Qed.

Lemma productive_hourEvents start perHour h : productive (hourEvents start perHour h).
Proof.
  unfold hourEvents. destruct (perHour !! Z.to_nat h); [|apply productive_ret].
  apply productive_bind; [by apply productive_sampleUnique|].
  intros seconds. apply productive_ret.
Qed.

Lemma productive_generateSchedule config shuffle :
  productive (generateSchedule config shuffle).
Proof.
  unfold generateSchedule. apply productive_bind.
  - unfold perHourQuotas. apply productive_bind; [|intros; apply productive_ret].
    apply productive_forEach. intros i.
    apply productive_bind; [apply productive_random|]. intros r. apply productive_ret.
  - intros perHour. apply productive_bind; [|intros; apply productive_ret].
    apply productive_forEach. intros h. apply productive_hourEvents.
Qed.

(** For every configuration there is a finite supply of draws in [0, 1)
    on which [generateFullSchedule] returns a schedule. *)
Lemma productive_generateFullSchedule config shuffle :
  productive (generateFullSchedule config shuffle).
Proof.
  unfold generateFullSchedule. apply productive_bind.
  - destruct (specialPhaseOn config) as [sp|]; [|apply productive_ret].
    unfold specialEntries. case_decide; [|apply productive_ret].
    apply productive_bind; [apply productive_sampleUnique; lia|].
    intros secs. apply productive_ret.
  - intros [[entries remaining] normalStart]. case_decide; [|apply productive_ret].
    apply productive_bind; [apply productive_generateSchedule|].
    intros [[schedule e] t]. apply productive_ret.
Qed.

End Progress.

(** ** Hours, seconds and [clamp] *)

Module UtilFacts.
Import Util Intervals.

(** X1. [floorToHourTs] and [secondOfHour] split any instant, also one
    before the epoch, into the start of its UTC hour (a multiple of one
    hour, left alone by [floorToHourTs]), a second of the hour between 0
    and 3599, and less than a second of milliseconds. *)
Theorem floorToHourTs_secondOfHour_split (t : Z) :
  floorToHourTs t mod 3600000 = 0
  ∧ floorToHourTs (floorToHourTs t) = floorToHourTs t
  ∧ secondOfHour (floorToHourTs t) = 0
  ∧ 0 <= secondOfHour t <= 3599
  ∧ 0 <= t - (floorToHourTs t + secondOfHour t * 1000) < 1000.
Proof.
  pose proof (IntervalsFacts.secondOfHour_bounds t) as (Hs & Hlo & Hhi).
  assert (floorToHourTs (floorToHourTs t) = floorToHourTs t) as Hidem.
  { pose proof (IntervalsFacts.floorToHourTs_offset t 0 ltac:(lia)) as H.
    by rewrite Z.add_0_r in H. }
  split; [unfold floorToHourTs; apply Z.mod_mul; lia|].
  split; [done|]. split; [|split; [done|lia]].
  unfold secondOfHour. rewrite Hidem, Z.sub_diag. done.
Qed.

(** X2. [clamp] returns a value between the bounds, and the value itself
    when it already lies between them, provided [min <= max]; with the
    bounds the wrong way round it returns [min] whatever the value. *)
Theorem clamp_between_bounds (value min max : Z) :
  (min <= max → min <= clamp value min max <= max)
  ∧ (min <= value <= max → clamp value min max = value)
  ∧ (max < min → clamp value min max = min).
Proof. unfold clamp. lia. Qed.

Lemma clamp_between_bounds_witness :
  (0 <= 10) ∧ 0 <= clamp 25 0 10 <= 10.
Proof.
  split; [lia|]. apply (proj1 (clamp_between_bounds 25 0 10)). lia.
Defined.

End UtilFacts.

(** ** Which gaps [enforceUniqueIntervals] leaves repeated *)

Module IntervalGapsFacts.
Import Intervals IntervalGaps.

Lemma firstAcceptable_delta used usedSecs hourStart prev cands ts d :
  firstAcceptable used usedSecs hourStart prev cands = Some (ts, d) →
  d = gapSeconds ts prev ∧ d ∉ used.
Proof.
  induction cands as [|c cs IH]; simpl; [done|].
  destruct (acceptable used usedSecs hourStart prev c) as [[ts' d']|] eqn:Hacc; [|done].
  intros [= -> ->]. unfold acceptable in Hacc.
  repeat case_decide; try done. by injection Hacc as <- <-.
Qed.

(** One iteration writes one cell and records its gap; the cell changes
    only when its gap was taken, and then only to a gap that is free. *)
Lemma relocate_cases l k prev curr :
  (1 <= k)%nat →
  times l !! (k - 1)%nat = Some prev → times l !! k = Some curr →
  ∃ c, times (relocate l k) = <[k := c]> (times l)
       ∧ usedIntervals (relocate l k) = {[gapSeconds c prev]} ∪ usedIntervals l
       ∧ (c = curr ∨ gapSeconds c prev ∉ usedIntervals l)
       ∧ (gapSeconds curr prev ∉ usedIntervals l → c = curr).
Proof.
  intros Hk Hprev Hcurr. unfold relocate. rewrite Hprev, Hcurr.
  assert (<[k := curr]> (times l) = times l) as Hid by (by apply list_insert_id).
  case_decide as Hused.
  2:{ exists curr. simpl. rewrite Hid. auto. }
  case_decide as Hbounds.
  { exists curr. simpl. rewrite Hid. split; [done|]. split; [done|]. auto. }
  cbv zeta.
  destruct (firstAcceptable _ _ _ prev (radiusCandidates _ _ _)) as [[ts d]|] eqn:Hradius.
  { apply firstAcceptable_delta in Hradius as [-> Hfree].
    exists ts. simpl. split; [done|]. split; [done|]. split; [by right|done]. }
  destruct (firstAcceptable _ _ _ prev (scanCandidates _ _)) as [[ts d]|] eqn:Hscan.
  { apply firstAcceptable_delta in Hscan as [-> Hfree].
    exists ts. simpl. split; [done|]. split; [done|]. split; [by right|done]. }
  exists curr. simpl. split; [done|]. split; [done|]. split; [by left|done].
Qed.

Lemma gapAt_insert_before (l : list Z) k c j :
  (1 <= j < k)%nat → gapAt (<[k := c]> l) j = gapAt l j.
Proof. intros Hj. unfold gapAt. by rewrite !list_lookup_insert_ne by lia. Qed.

Lemma gapAt_insert_at (l : list Z) k c prev :
  (1 <= k < length l)%nat → l !! (k - 1)%nat = Some prev →
  gapAt (<[k := c]> l) k = Some (gapSeconds c prev).
Proof.
  intros Hk Hprev. unfold gapAt.
  rewrite list_lookup_insert_ne by lia. rewrite Hprev.
  by rewrite list_lookup_insert_eq by lia.
Qed.

Lemma GapInv_init orig u : GapInv orig 1 (mkLoop orig ∅ u).
Proof.
  split; simpl; try done.
  - intros g. split; [by intros ?%not_elem_of_empty|]. intros (j & Hj & _). lia.
  - intros i g Hi. lia.
Qed.

Lemma GapInv_step orig k l :
  (1 <= k)%nat → GapInv orig k l → GapInv orig (S k) (relocate l k).
Proof.
  intros Hk [Hlen Hrest Hused Hfresh].
  destruct (decide (k < length (times l))%nat) as [Hlt|Hge].
  2:{ rewrite IntervalsFacts.relocate_out_of_range by lia.
      assert (gapAt (times l) k = None) as Hnone.
      { unfold gapAt. rewrite (lookup_ge_None_2 (times l) k) by lia.
        by destruct (times l !! (k - 1)%nat). }
      split; [done|intros j Hj; apply Hrest; lia| |].
      - intros g. rewrite Hused. split; intros (j & Hj & Hg); exists j; (split; [|done]).
        + lia.
        + destruct (decide (j = k)) as [->|]; [congruence|lia].
      - intros i g Hi Hg. destruct (decide (i = k)) as [->|]; [congruence|].
        apply Hfresh; [lia|done]. }
  destruct (lookup_lt_is_Some_2 (times l) k Hlt) as [curr Hcurr].
  destruct (lookup_lt_is_Some_2 (times l) (k - 1) ltac:(lia)) as [prev Hprev].
  destruct (relocate_cases l k prev curr Hk Hprev Hcurr) as (c & Ht & Hu & Hc & _).
  assert (gapAt (times (relocate l k)) k = Some (gapSeconds c prev)) as Hgk.
  { rewrite Ht. apply gapAt_insert_at; [lia|done]. }
  assert (∀ j, (1 <= j < k)%nat → gapAt (times (relocate l k)) j = gapAt (times l) j) as Hgj.
  { intros j Hj. rewrite Ht. by apply gapAt_insert_before. }
  split.
  - by rewrite Ht, length_insert.
  - intros j Hj. rewrite Ht, list_lookup_insert_ne by lia. apply Hrest. lia.
  - intros g. rewrite Hu, elem_of_union, elem_of_singleton, Hused. split.
    + intros [->|(j & Hj & Hg)].
      * exists k. split; [lia|done].
      * exists j. split; [lia|]. by rewrite Hgj.
    + intros (j & Hj & Hg). destruct (decide (j = k)) as [->|Hne].
      * left. congruence.
      * right. exists j. split; [lia|]. by rewrite <- Hgj by lia.
  - intros i g Hi Hg. destruct (decide (i = k)) as [->|Hne].
    + rewrite Hgk in Hg. injection Hg as <-.
      destruct Hc as [->|Hfree].
      * right. rewrite Ht, list_lookup_insert_eq by lia.
        rewrite <- Hcurr. apply Hrest. lia.
      * left. intros j Hj Hgj'. apply Hfree, Hused. exists j.
        split; [done|]. by rewrite <- Hgj.
    + rewrite Hgj in Hg by lia.
      destruct (Hfresh i g ltac:(lia) Hg) as [Hleft|Hright].
      * left. intros j Hj. rewrite Hgj by lia. by apply Hleft.
      * right. by rewrite Ht, list_lookup_insert_ne by lia.
Qed.

Lemma GapInv_loop orig n k l :
  (1 <= k)%nat → GapInv orig k l → GapInv orig (k + n) (foldl relocate l (seq k n)).
Proof.
  revert k l. induction n as [|n IH]; intros k l Hk HI; simpl.
  - by replace (k + 0)%nat with k by lia.
  - replace (k + S n)%nat with (S k + n)%nat by lia.
    apply IH; [lia|]. by apply GapInv_step.
Qed.

(** X3. In the result of [enforceUniqueIntervals], whatever the input, a
    timestamp whose gap to its predecessor repeats the gap of an earlier
    position is one that was left where it was: every timestamp that
    was moved has a gap that no earlier position has. *)
Theorem enforceUniqueIntervals_repeats_only_where_unmoved
    (orig : list Z) (i j : nat) (g : Z) :
  (1 <= j < i)%nat →
  gapAt (enforceUniqueIntervals orig) i = Some g →
  gapAt (enforceUniqueIntervals orig) j = Some g →
  enforceUniqueIntervals orig !! i = orig !! i.
Proof.
  intros Hji Hgi Hgj. unfold enforceUniqueIntervals in *.
  case_decide as Hshort; [done|].
  pose proof (GapInv_loop orig (length orig - 1) 1 _ ltac:(lia)
                (GapInv_init orig (foldl recordSecond ∅ orig))) as [Hlen _ _ Hfresh].
  set (out := times _) in *.
  assert (i < length orig)%nat as Hi.
  { unfold gapAt in Hgi. destruct (out !! (i - 1)%nat); [|done].
    destruct (out !! i) eqn:Hoi; [|done]. apply lookup_lt_Some in Hoi. lia. }
  destruct (Hfresh i g ltac:(lia) Hgi) as [Hnew|Hsame]; [|done].
  by destruct (Hnew j ltac:(lia)).
Qed.

Lemma enforceUniqueIntervals_repeats_only_where_unmoved_witness :
  (1 <= 1 < 2)%nat
  ∧ gapAt (enforceUniqueIntervals [0; 1000; 2000; 3000]) 2 = Some 1
  ∧ gapAt (enforceUniqueIntervals [0; 1000; 2000; 3000]) 1 = Some 1
  ∧ enforceUniqueIntervals [0; 1000; 2000; 3000] !! 2%nat = Some 2000.
Proof.
  split; [lia|]. split; [by vm_compute|]. split; [by vm_compute|].
  exact (enforceUniqueIntervals_repeats_only_where_unmoved
           [0; 1000; 2000; 3000] 2 1 1 ltac:(lia) eq_refl eq_refl).
Defined.

Lemma gaps_lookup (l : list Z) (i : nat) : gaps l !! i = gapAt l (S i).
Proof.
  revert i. induction l as [|a l IH]; intros i; [by destruct i|].
  destruct l as [|b l]; [by destruct i as [|[|i]]|].
  destruct i as [|i]; [done|].
  change (gaps (a :: b :: l)) with (gapSeconds b a :: gaps (b :: l)).
  simpl lookup at 1. rewrite IH. unfold gapAt. simpl.
  by rewrite Nat.sub_0_r.
Qed.

(** With gaps that are all different nothing has to move: the loop
    records the gaps and leaves the array as it is. *)
Lemma relocate_loop_distinct orig n k l :
  NoDup (gaps orig) → (1 <= k)%nat →
  times l = orig →
  (∀ g, g ∈ usedIntervals l ↔ ∃ j, (1 <= j < k)%nat ∧ gapAt orig j = Some g) →
  times (foldl relocate l (seq k n)) = orig.
Proof.
  intros Hnodup. revert k l. induction n as [|n IH]; intros k l Hk Htimes Hused; [done|].
  simpl. destruct (decide (k < length orig)%nat) as [Hlt|Hge].
  2:{ rewrite IntervalsFacts.relocate_out_of_range by (rewrite Htimes; lia).
      apply IH; [lia|done|]. intros g. rewrite Hused.
      split; intros (j & Hj & Hg); exists j; (split; [|done]); [lia|].
      destruct (decide (j = k)) as [->|]; [|lia].
      unfold gapAt in Hg. rewrite (lookup_ge_None_2 orig k) in Hg by lia.
      by destruct (orig !! (k - 1)%nat). }
  destruct (lookup_lt_is_Some_2 orig k Hlt) as [curr Hcurr].
  destruct (lookup_lt_is_Some_2 orig (k - 1) ltac:(lia)) as [prev Hprev].
  rewrite <- Htimes in Hcurr, Hprev.
  destruct (relocate_cases l k prev curr Hk Hprev Hcurr) as (c & Ht & Hu & _ & Hkeep).
  rewrite Htimes in Hcurr, Hprev.
  assert (gapAt orig k = Some (gapSeconds curr prev)) as Hgk.
  { unfold gapAt. by rewrite Hprev, Hcurr. }
  assert (c = curr) as ->.
  { apply Hkeep. rewrite Hused. intros (j & Hj & Hg).
    rewrite <- Hgk in Hg.
    destruct j as [|j]; [lia|]. destruct k as [|k]; [lia|].
    rewrite <- !gaps_lookup in Hg.
    destruct (gaps orig !! k) as [g|] eqn:Hk'; [|by rewrite <- gaps_lookup in Hgk; congruence].
    pose proof (NoDup_lookup _ _ _ _ Hnodup Hg Hk'). lia. }
  assert (times (relocate l k) = orig) as Ht'.
  { rewrite Ht, Htimes. by apply list_insert_id. }
  apply IH; [lia|done|].
  intros g. rewrite Hu, elem_of_union, elem_of_singleton, Hused. split.
  - intros [->|(j & Hj & Hg)]; [exists k; split; [lia|done]|exists j; split; [lia|done]].
  - intros (j & Hj & Hg). destruct (decide (j = k)) as [->|].
    + left. congruence.
    + right. exists j. split; [lia|done].
Qed.

(** X4. A sequence whose consecutive gaps are pairwise different comes
    back from [enforceUniqueIntervals] unchanged (and so does a sequence
    of at most one timestamp). *)
Theorem enforceUniqueIntervals_identity_on_distinct_gaps (orig : list Z) :
  NoDup (gaps orig) → enforceUniqueIntervals orig = orig.
Proof.
  intros Hnodup. unfold enforceUniqueIntervals. case_decide; [done|].
  apply relocate_loop_distinct; [done|lia|done|].
  intros g. split; [by intros ?%not_elem_of_empty|]. intros (j & Hj & _). lia.
Qed.

Lemma enforceUniqueIntervals_identity_on_distinct_gaps_witness :
  NoDup (gaps [0; 1000; 3000; 6000])
  ∧ enforceUniqueIntervals [0; 1000; 3000; 6000] = [0; 1000; 3000; 6000].
Proof.
  assert (NoDup (gaps [0; 1000; 3000; 6000])) as Hnodup.
  { apply (bool_decide_unpack _). by vm_compute. }
  split; [exact Hnodup|].
  exact (enforceUniqueIntervals_identity_on_distinct_gaps _ Hnodup).
Defined.

End IntervalGapsFacts.

(** ** The order of the sampled seconds *)

Module SamplerOrderFacts.
Import Random Sampler.

Lemma Sorted_le_NoDup_lt (l : list Z) :
  Sorted Z.le l → NoDup l → StronglySorted Z.lt l.
Proof.
  intros Hs%Sorted_StronglySorted; [|apply _].
  induction Hs as [|a l Hs IH Hall]; intros Hnd; [constructor|].
  apply NoDup_cons in Hnd as [Hnotin Hnd].
  constructor; [by apply IH|].
  rewrite Forall_forall in Hall. apply Forall_forall. intros x Hx.
  specialize (Hall x Hx). assert (a ≠ x) by (by intros ->). lia.
Qed.

Lemma StronglySorted_seqZ (m n : Z) : StronglySorted Z.lt (seqZ m n).
Proof.
  remember (Z.to_nat n) as k eqn:Hk. revert m n Hk.
  induction k as [|k IH]; intros m n Hk.
  - rewrite seqZ_nil by lia. constructor.
  - rewrite seqZ_cons by lia. constructor; [apply IH; lia|].
    apply Forall_seqZ. intros x Hx. lia.
Qed.

Lemma sampleUnique_increasing count max rng l rng' :
  sampleUnique count max rng = Some (l, rng') → StronglySorted Z.lt l.
Proof.
  unfold sampleUnique. case_decide.
  - intros [= <- <-]. apply StronglySorted_seqZ.
  - unfold bind. destruct (pickUntil count max ∅ rng) as [[s r]|]; [|done].
    intros [= <- <-]. apply Sorted_le_NoDup_lt.
    + apply Sorted_merge_sort. intros x y. lia.
    + rewrite merge_sort_Permutation. apply NoDup_elements.
Qed.

(** X5. [sampleUniqueSeconds(count, spanSeconds)] returns on a finite
    supply of random numbers, and what it returns on draws in [0, 1) is
    a strictly increasing list (so without repetition) of seconds in
    [0, max(1, spanSeconds)), of length [count] cut to that range.
    [sampleUniqueSecondsWithinHour(count)] is the same code with the
    span fixed to 3600. *)
Theorem sampleUniqueSeconds_strictly_increasing (count spanSeconds : Z) :
  sampleUniqueSecondsWithinHour count = sampleUniqueSeconds count 3600
  ∧ productive (sampleUniqueSeconds count spanSeconds)
  ∧ ∀ rng l rng',
      validDraws rng →
      sampleUniqueSeconds count spanSeconds rng = Some (l, rng') →
      StronglySorted Z.lt l
      ∧ Forall (λ s, 0 <= s < Z.max 1 spanSeconds) l
      ∧ Z.of_nat (length l) = Z.max 0 (Z.min count (Z.max 1 spanSeconds))
      ∧ validDraws rng'.
Proof.
  split; [done|]. split; [apply Progress.productive_sampleUnique; lia|].
  intros rng l rng' Hvalid Hrun. unfold sampleUniqueSeconds in Hrun.
  split; [by eapply sampleUnique_increasing|].
  assert (0 < Z.max 1 spanSeconds) as Hmax by lia.
  destruct (SamplerFacts.sampleUnique_range _ _ _ _ _ Hmax Hvalid Hrun) as [Hrange Hrest].
  split; [done|]. split; [|done].
  apply (SamplerFacts.sampleUnique_length _ _ _ _ _ (Z.lt_le_incl _ _ Hmax) Hrun).
Qed.

(** Two seconds out of five: the draws 0.7 and 0.1 pick 3 and 0. *)
Lemma sampleUniqueSeconds_strictly_increasing_witness :
  validDraws [0.7; 0.1]%Q
  ∧ sampleUniqueSeconds 2 5 [0.7; 0.1]%Q = Some ([0; 3], [])
  ∧ StronglySorted Z.lt [0; 3].
Proof.
  assert (validDraws [0.7; 0.1]%Q) as Hvalid
    by (apply GeneratorFacts.validDraws_check; by vm_compute).
  assert (sampleUniqueSeconds 2 5 [0.7; 0.1]%Q = Some ([0; 3], [])) as Hrun
    by (by vm_compute).
  split; [exact Hvalid|]. split; [exact Hrun|].
  exact (proj1 (proj2 (proj2 (sampleUniqueSeconds_strictly_increasing 2 5))
                  _ _ _ Hvalid Hrun)).
Defined.

End SamplerOrderFacts.

(** ** The hours and the events of the regular schedule *)

Module LayoutFacts.
Import Random Sampler Generator Intervals Layout.

(** X6. The number of hours [generateSchedule] plans, for a cap of at
    least 1: at least the hours of the window asked for and at least
    one; enough to hold the total within the cap; equal to the hours of
    the window when they are enough; and otherwise the least number
    that is enough.  The window planned, from the start to
    [effectiveEnd], reaches the end asked for. *)
Theorem scheduleHours_least_cover (config : Config) :
  1 <= maxPerHour config →
  let hours0 :=
    Z.max 1 (Js.ceilDiv (endTimeUtc config - startTimeUtc config) 3600000) in
  hours0 <= scheduleHours config
  ∧ totalMessagesNeeded config <= scheduleHours config * maxPerHour config
  ∧ (totalMessagesNeeded config <= hours0 * maxPerHour config →
     scheduleHours config = hours0)
  ∧ (hours0 * maxPerHour config < totalMessagesNeeded config →
     (scheduleHours config - 1) * maxPerHour config < totalMessagesNeeded config)
  ∧ endTimeUtc config <= startTimeUtc config + scheduleHours config * 3600000.
Proof.
  intros Hmax hours0.
  pose proof (JsFacts.ceilDiv_ge (endTimeUtc config - startTimeUtc config) 3600000
                ltac:(lia)) as Hwindow.
  assert (hours0 <= scheduleHours config
          ∧ totalMessagesNeeded config <= scheduleHours config * maxPerHour config
          ∧ (totalMessagesNeeded config <= hours0 * maxPerHour config →
             scheduleHours config = hours0)
          ∧ (hours0 * maxPerHour config < totalMessagesNeeded config →
             (scheduleHours config - 1) * maxPerHour config
             < totalMessagesNeeded config)) as (H1 & H2 & H3 & H4).
  { unfold scheduleHours. cbv zeta. fold hours0.
    case_decide as Hshort; [|repeat split; lia].
    set (d := totalMessagesNeeded config - hours0 * maxPerHour config) in *.
    pose proof (JsFacts.ceilDiv_ge d (maxPerHour config) ltac:(lia)) as Hge.
    assert ((Js.ceilDiv d (maxPerHour config) - 1) * maxPerHour config < d) as Hlt.
    { unfold Js.ceilDiv.
      pose proof (Z.mul_succ_div_gt (- d) (maxPerHour config) ltac:(lia)). nia. }
    set (extra := Js.ceilDiv d (maxPerHour config)) in *.
    assert (1 <= extra) by nia.
    repeat split; try nia. }
  repeat split; try done. unfold hours0 in *. nia.
Qed.

(** Eight hours asked for at 10 an hour and 100 messages: ten hours. *)
Lemma scheduleHours_least_cover_witness :
  let config := mkConfig 0 (8 * 3600000) 10000 100 1 10 714.28 0 false None in
  1 <= maxPerHour config ∧ scheduleHours config = 10.
Proof.
  intros config. split; [simpl; lia|].
  pose proof (scheduleHours_least_cover config ltac:(simpl; lia)) as (_ & H2 & _ & H4 & _).
  assert (totalMessagesNeeded config = 100) as Htotal by (by vm_compute).
  rewrite Htotal in H2, H4. change (maxPerHour config) with 10 in H2, H4.
  assert (Z.max 1 (Js.ceilDiv (endTimeUtc config - startTimeUtc config) 3600000) = 8)
    as Hhours0 by (by vm_compute).
  rewrite Hhours0 in H4. lia.
Defined.

(** X7. On a configuration with a positive target, a positive amount per
    message and a cap of at least 1, drawing from [0, 1) and with a
    shuffle that permutes, the quotas [generateSchedule] lays out are
    one per planned hour, none negative, and their sum is exactly the
    number of messages needed. *)
Theorem perHourQuotas_sum_to_total
    (config : Config) (shuffle : list nat → list nat) (rng rng' : Rng)
    (quotas : list Z) :
  (0 < targetTotalUsd config)%Q →
  (0 < amountPerMessageUsd config)%Q →
  1 <= maxPerHour config →
  (∀ l, shuffle l ≡ₚ l) →
  validDraws rng →
  perHourQuotas config shuffle rng = Some (quotas, rng') →
  length quotas = Z.to_nat (scheduleHours config)
  ∧ Forall (λ n, 0 <= n) quotas
  ∧ sumZ quotas = totalMessagesNeeded config.
Proof.
  intros Ht Ha Hmax Hperm Hvalid Hrun.
  destruct (QuotaFacts.perHourQuotas_spec config shuffle rng quotas rng'
              Ht Ha Hmax Hperm Hvalid Hrun) as (_ & _ & Hlen & Hnn & Hsum & _).
  done.
Qed.

(** Three hours, 25 messages, at most 10 an hour: the rounded shares
    7, 8 and 9 fall one short and the first hour gets one more. *)
Lemma perHourQuotas_sum_to_total_witness :
  let config := mkConfig Examples.tuesday22h (Examples.tuesday22h + 3 * 3600000)
                  2500 100 1 10 714.28 0 false None in
  ∃ quotas,
    perHourQuotas config id [0.5; 0.5; 0.5]%Q = Some (quotas, [])
    ∧ length quotas = 3%nat
    ∧ sumZ quotas = 25.
Proof.
  intros config.
  destruct (perHourQuotas config id [0.5; 0.5; 0.5]%Q) as [[quotas r]|] eqn:Hrun;
    [|by vm_compute in Hrun].
  assert (r = []) as -> by (vm_compute in Hrun; by injection Hrun as _ <-).
  assert (validDraws [0.5; 0.5; 0.5]%Q) as Hvalid
    by (apply GeneratorFacts.validDraws_check; by vm_compute).
  destruct (perHourQuotas_sum_to_total config id _ _ quotas
              ltac:(by vm_compute) ltac:(by vm_compute) ltac:(simpl; lia)
              ltac:(done) Hvalid Hrun) as (Hlen & _ & Hsum).
  exists quotas. split; [reflexivity|]. split; [exact Hlen|exact Hsum].
Defined.

Lemma preserves_forEach2 {A B} (f : A → M B) (l : list A) (R : A → B → Prop) :
  (∀ x, x ∈ l → preserves (f x) (R x)) →
  preserves (forEach f l) (Forall2 R l).
Proof.
  induction l as [|x l IH]; intros Hf; simpl.
  - apply GeneratorFacts.preserves_ret. constructor.
  - apply (GeneratorFacts.preserves_bind _ _ (R x)); [apply Hf; by left|]. intros y Hy.
    apply (GeneratorFacts.preserves_bind _ _ (Forall2 R l)).
    + apply IH. intros z Hz. apply Hf. by right.
    + intros ys Hys. apply GeneratorFacts.preserves_ret. by constructor.
Qed.

(** The instants laid out in hour [h]: as many as the quota allows, all
    within the hour. *)
Lemma preserves_hourEvents_count start perHour h :
  preserves (hourEvents start perHour h)
    (λ ys, Z.of_nat (length ys) = laidOut (default 0 (perHour !! Z.to_nat h))
           ∧ Forall (inHour start h) ys).
Proof.
  unfold hourEvents. destruct (perHour !! Z.to_nat h) as [quota|]; simpl.
  - apply (GeneratorFacts.preserves_bind _ _
             (λ secs, Z.of_nat (length secs) = laidOut quota
                      ∧ Forall (λ x, 0 <= x < 3600) secs)).
    + intros rng secs rng' Hv Hrun. unfold sampleUniqueSecondsWithinHour in Hrun.
      assert (0 < 3600) as Hmax by lia.
      destruct (SamplerFacts.sampleUnique_range _ _ _ _ _ Hmax Hv Hrun) as [Hr Hv'].
      split; [|done]. split; [|done].
      rewrite (SamplerFacts.sampleUnique_length _ _ _ _ _ (Z.lt_le_incl _ _ Hmax) Hrun). done.
    + intros secs [Hlen Hrange]. apply GeneratorFacts.preserves_ret.
      rewrite length_fmap. split; [done|].
      apply Forall_fmap. eapply Forall_impl; [exact Hrange|].
      simpl. unfold inHour. intros s Hs. lia.
  - apply GeneratorFacts.preserves_ret. split; [done|constructor].
Qed.

Lemma length_concat_sumZ (yss : list (list Z)) :
  Z.of_nat (length (concat yss)) = sumZ ((λ ys, Z.of_nat (length ys)) <$> yss).
Proof.
  induction yss as [|ys yss IH]; [done|].
  rewrite fmap_cons, AllocatorFacts.sumZ_cons. simpl. rewrite length_app. lia.
Qed.

Lemma laidOut_per_hour (perHour : list Z) (hours : Z) :
  length perHour = Z.to_nat hours →
  (λ h, laidOut (default 0 (perHour !! Z.to_nat h))) <$> seqZ 0 hours
  = laidOut <$> perHour.
Proof.
  intros Hlen. apply list_eq. intros i. rewrite !list_lookup_fmap.
  destruct (decide (i < length perHour)%nat) as [Hlt|Hge].
  - rewrite lookup_seqZ_lt by lia. simpl.
    replace (Z.to_nat (0 + Z.of_nat i)) with i by lia.
    destruct (lookup_lt_is_Some_2 perHour i Hlt) as [q Hq]. by rewrite Hq.
  - rewrite lookup_seqZ_ge by lia. by rewrite (lookup_ge_None_2 perHour i) by lia.
Qed.

Lemma sumZ_laidOut (perHour : list Z) :
  Forall (λ n, 0 <= n) perHour →
  sumZ (laidOut <$> perHour) <= sumZ perHour
  ∧ (sumZ perHour <= 3600 → sumZ (laidOut <$> perHour) = sumZ perHour).
Proof.
  induction 1 as [|q l Hq Hl IH]; [done|].
  rewrite fmap_cons, !AllocatorFacts.sumZ_cons.
  pose proof (AllocatorFacts.sumZ_nonneg l Hl). unfold laidOut at 1 3. lia.
Qed.

(** What [generateSchedule] returns: the events laid out before the
    gaps are made unique, hour by hour. *)
Lemma generateSchedule_layout config shuffle rng sched effectiveEnd total rng' :
  validDraws rng →
  generateSchedule config shuffle rng = Some ((sched, effectiveEnd, total), rng') →
  ∃ quotas r yss,
    perHourQuotas config shuffle rng = Some (quotas, r)
    ∧ validDraws r
    ∧ Forall2 (λ h ys, Z.of_nat (length ys) = laidOut (default 0 (quotas !! Z.to_nat h))
                       ∧ Forall (inHour (startTimeUtc config) h) ys)
        (seqZ 0 (scheduleHours config)) yss
    ∧ sched = enforceUniqueIntervals (merge_sort Z.le (concat yss))
    ∧ effectiveEnd = startTimeUtc config + scheduleHours config * 3600000
    ∧ total = totalMessagesNeeded config.
Proof.
  intros Hvalid. unfold generateSchedule. unfold bind at 1.
  destruct (perHourQuotas config shuffle rng) as [[quotas r]|] eqn:Hq; [|done].
  assert (validDraws r) as Hr.
  { unfold perHourQuotas, bind in Hq.
    destruct (generatePerHourWeights _ _ rng) as [[ws r0]|] eqn:Hw; [|done].
    injection Hq as _ <-.
    by destruct (QuotaFacts.preserves_generatePerHourWeights _ _ _ _ _ Hvalid Hw). }
  unfold bind.
  destruct (forEach _ (seqZ 0 (scheduleHours config)) r) as [[yss r1]|] eqn:Hev; [|done].
  unfold ret. intros [= <- <- <- <-].
  exists quotas, r, yss. split; [done|]. split; [done|].
  split; [|done].
  refine (proj1 (preserves_forEach2 _ _ _ _ r yss r1 Hr Hev)).
  intros h _. apply preserves_hourEvents_count.
Qed.

(** X8. The schedule [generateSchedule] returns never has more events
    than the number of messages needed, and it has exactly that number
    when the number is at most 3600 (an hour cannot hold more events
    than it has seconds, so a quota above 3600 is cut).  The
    configuration is a valid one, the draws are in [0, 1) and the
    shuffle permutes. *)
Theorem generateSchedule_event_count
    (config : Config) (shuffle : list nat → list nat) (rng rng' : Rng)
    (sched : list Z) (effectiveEnd total : Z) :
  (0 < targetTotalUsd config)%Q →
  (0 < amountPerMessageUsd config)%Q →
  1 <= maxPerHour config →
  (∀ l, shuffle l ≡ₚ l) →
  validDraws rng →
  generateSchedule config shuffle rng = Some ((sched, effectiveEnd, total), rng') →
  total = totalMessagesNeeded config
  ∧ Z.of_nat (length sched) <= total
  ∧ (total <= 3600 → Z.of_nat (length sched) = total).
Proof.
  intros Ht Ha Hmax Hperm Hvalid Hrun.
  destruct (generateSchedule_layout _ _ _ _ _ _ _ Hvalid Hrun)
    as (quotas & r & yss & Hq & _ & Hyss & -> & _ & ->).
  destruct (QuotaFacts.perHourQuotas_spec config shuffle rng quotas r
              Ht Ha Hmax Hperm Hvalid Hq) as (_ & _ & Hlen & Hnn & Hsum & _).
  split; [done|].
  rewrite IntervalsFacts.enforceUniqueIntervals_length.
  rewrite (Permutation_length (merge_sort_Permutation _ _)), length_concat_sumZ.
  assert ((λ ys : list Z, Z.of_nat (length ys)) <$> yss = laidOut <$> quotas) as ->.
  { rewrite <- (laidOut_per_hour quotas (scheduleHours config) Hlen).
    apply list_eq_Forall2, Forall2_fmap.
    eapply Forall2_flip, Forall2_impl; [exact Hyss|]. by intros h ys [-> _]. }
  rewrite <- Hsum. apply sumZ_laidOut, Hnn.
Qed.


(** One hour, three messages: the draws give the noise of the hour and
    the seconds 360, 1800 and 3240. *)
Lemma generateSchedule_event_count_witness :
  let config := mkConfig Examples.tuesday22h (Examples.tuesday22h + 3600000)
                  300 100 1 10 714.28 0 false None in
  ∃ sched effectiveEnd,
    generateSchedule config id [0.5; 0.1; 0.5; 0.9]%Q = Some ((sched, effectiveEnd, 3), [])
    ∧ Z.of_nat (length sched) = 3.
Proof.
  intros config.
  destruct (generateSchedule config id [0.5; 0.1; 0.5; 0.9]%Q)
    as [[[[sched e] total] r]|] eqn:Hrun; [|by vm_compute in Hrun].
  assert (r = [] ∧ total = 3) as [-> ->]
    by (vm_compute in Hrun; by injection Hrun as _ _ <- <-).
  assert (validDraws [0.5; 0.1; 0.5; 0.9]%Q) as Hvalid
    by (apply GeneratorFacts.validDraws_check; by vm_compute).
  destruct (generateSchedule_event_count config id _ _ sched e 3
              ltac:(by vm_compute) ltac:(by vm_compute) ltac:(simpl; lia)
              ltac:(done) Hvalid Hrun) as (_ & _ & Hcount).
  exists sched, e. split; [reflexivity|]. apply Hcount. lia.
Defined.

Lemma floorToHourTs_below (t k n : Z) :
  t < (k + n) * 3600000 → floorToHourTs t + 3600000 <= (k + n) * 3600000.
Proof.
  intros Hlt. unfold floorToHourTs.
  assert (t / 3600000 < k + n) by (apply Z.div_lt_upper_bound; lia). lia.
Qed.

(** X9. When the start is on the hour, every event of the schedule
    [generateSchedule] returns lies in the window it plans, from the
    start (included) to [effectiveEnd] (excluded), and the events are
    in non-decreasing order.  The draws are in [0, 1). *)
Theorem generateSchedule_within_planned_window
    (config : Config) (shuffle : list nat → list nat) (rng rng' : Rng)
    (sched : list Z) (effectiveEnd total : Z) :
  startTimeUtc config mod 3600000 = 0 →
  validDraws rng →
  generateSchedule config shuffle rng = Some ((sched, effectiveEnd, total), rng') →
  effectiveEnd = startTimeUtc config + scheduleHours config * 3600000
  ∧ sortedTimes sched
  ∧ Forall (λ t, startTimeUtc config <= t < effectiveEnd) sched.
Proof.
  intros Haligned Hvalid Hrun.
  destruct (generateSchedule_layout _ _ _ _ _ _ _ Hvalid Hrun)
    as (quotas & r & yss & _ & _ & Hyss & -> & -> & _).
  split; [done|].
  set (start := startTimeUtc config) in *. set (hours := scheduleHours config) in *.
  set (laid := merge_sort Z.le (concat yss)).
  assert (Forall (λ t, start <= t < start + hours * 3600000) laid) as Hlaid.
  { unfold laid. rewrite merge_sort_Permutation. apply Forall_concat.
    apply Forall_lookup. intros i ys Hys.
    destruct (Forall2_lookup_r _ _ _ _ _ Hyss Hys) as (h & Hh & _ & Hin).
    apply lookup_seqZ in Hh as [-> Hi].
    eapply Forall_impl; [exact Hin|]. unfold inHour. simpl. intros t Ht. nia. }
  assert (sortedTimes laid) as Hsorted.
  { apply GeneratorFacts.Sorted_sortedTimes, Sorted_merge_sort. intros x y. lia. }
  destruct (IntervalsFacts.enforceUniqueIntervals_Inv laid Hsorted) as [k HI].
  split; [apply (inv_sorted _ _ _ HI)|].
  assert (Forall (λ t, start <= t) laid) as Hlow
    by (eapply Forall_impl; [exact Hlaid|]; simpl; lia).
  destruct (GeneratorFacts.enforceUniqueIntervals_lower_bound laid start Hsorted Hlow)
    as [_ Hlow'].
  apply Forall_lookup. intros i t' Ht'.
  split; [by apply (proj1 (Forall_lookup _ _) Hlow' i)|].
  pose proof (inv_hours _ _ _ HI) as Hhours.
  assert ((floorToHourTs <$> enforceUniqueIntervals laid) !! i
          = Some (floorToHourTs t')) as Hft
    by (by rewrite list_lookup_fmap, Ht').
  rewrite Hhours, list_lookup_fmap in Hft.
  destruct (laid !! i) as [t|] eqn:Ht; [|done]. injection Hft as Hft.
  pose proof (proj1 (Forall_lookup _ _) Hlaid i t Ht) as [_ Hup].
  pose proof (IntervalsFacts.floorToHourTs_bounds t') as Hb.
  apply Z.mod_divide in Haligned as [q Hq]; [|lia].
  rewrite Hq in Hup |- *.
  pose proof (floorToHourTs_below t q hours ltac:(lia)). lia.
Qed.

Lemma generateSchedule_within_planned_window_witness :
  let config := mkConfig Examples.tuesday22h (Examples.tuesday22h + 3600000)
                  300 100 1 10 714.28 0 false None in
  startTimeUtc config mod 3600000 = 0
  ∧ ∃ sched,
      generateSchedule config id [0.5; 0.1; 0.5; 0.9]%Q
      = Some ((sched, Examples.tuesday22h + 3600000, 3), [])
      ∧ Forall (λ t, Examples.tuesday22h <= t < Examples.tuesday22h + 3600000) sched.
Proof.
  intros config.
  assert (startTimeUtc config mod 3600000 = 0) as Haligned by (by vm_compute).
  split; [exact Haligned|].
  destruct (generateSchedule config id [0.5; 0.1; 0.5; 0.9]%Q)
    as [[[[sched e] total] r]|] eqn:Hrun; [|by vm_compute in Hrun].
  assert (r = [] ∧ total = 3 ∧ e = Examples.tuesday22h + 3600000) as (-> & -> & ->)
    by (vm_compute in Hrun; by injection Hrun as _ <- <- <-).
  assert (validDraws [0.5; 0.1; 0.5; 0.9]%Q) as Hvalid
    by (apply GeneratorFacts.validDraws_check; by vm_compute).
  destruct (generateSchedule_within_planned_window config id _ _ sched _ 3
              Haligned Hvalid Hrun) as (_ & _ & Hall).
  exists sched. split; [reflexivity|exact Hall].
Defined.

End LayoutFacts.

(** ** The order and the kinds of the full schedule *)

Module FullScheduleOrderFacts.
Import Random Sampler Generator Intervals FullSchedule Delivery.

Lemma insertByAt_Permutation e l : insertByAt e l ≡ₚ e :: l.
Proof.
  induction l as [|x l IH]; simpl; [done|].
  case_decide; [done|]. rewrite IH. apply Permutation_swap.
Qed.

Lemma sortByAt_Permutation l : sortByAt l ≡ₚ l.
Proof.
  induction l as [|e l IH]; simpl; [done|].
  fold (sortByAt l). by rewrite insertByAt_Permutation, IH.
Qed.

Lemma insertByAt_sortedByAt e l : sortedByAt l → sortedByAt (insertByAt e l).
Proof.
  unfold sortedByAt. induction 1 as [|x l Hs IH Hhd]; simpl.
  - repeat constructor.
  - case_decide as Hle.
    + constructor; [by constructor|]. by constructor.
    + constructor; [done|].
      destruct Hhd as [|y l Hxy]; simpl.
      * constructor. lia.
      * case_decide; constructor; lia.
Qed.

Lemma sortByAt_sortedByAt l : sortedByAt (sortByAt l).
Proof.
  induction l as [|e l IH]; simpl; [constructor|].
  by apply insertByAt_sortedByAt.
Qed.

Lemma Forall_special (P : Event → Prop) presaleStart :
  (∀ m, P (countdownEvent presaleStart m)) → P (startEvent presaleStart) →
  Forall P ((countdownEvent presaleStart <$> countdownMessages)
            ++ [startEvent presaleStart]).
Proof.
  intros Hc Hs. apply Forall_app. split; [|by repeat constructor].
  apply Forall_fmap, Forall_forall. intros m _. apply Hc.
Qed.

(** X10. Whatever the configuration and the random numbers, the schedule
    [generateFullSchedule] returns is in non-decreasing order of its
    instants and holds only entries of the kinds [countdown], [start]
    and [buy]; a buy entry carries neither text nor image, and without
    an enabled special phase every entry is a buy. *)
Theorem generateFullSchedule_sorted_with_known_kinds
    (config : Config) (shuffle : list nat → list nat) (rng rng' : Rng)
    (entries : list Event) (effectiveEnd : Z) :
  generateFullSchedule config shuffle rng = Some ((entries, effectiveEnd), rng') →
  sortedByAt entries
  ∧ Forall (λ e, knownKind (kind e)
                 ∧ (kind e = KBuy → text e = None ∧ image e = None)) entries
  ∧ (specialPhaseOn config = None → Forall (λ e, kind e = KBuy) entries).
Proof.
  set (P := λ e : Event, knownKind (kind e)
                         ∧ (kind e = KBuy → text e = None ∧ image e = None)).
  set (B := λ e : Event, kind e = KBuy).
  intros Hrun.
  assert (∃ raw, entries = sortByAt raw ∧ Forall P raw
                 ∧ (specialPhaseOn config = None → Forall B raw))
    as (raw & -> & HP & HB).
  { unfold generateFullSchedule, bind in Hrun.
    assert (∀ f (l : list Z), Forall P ((λ s, buyEvent (f s)) <$> l)) as HPbuys
      by (intros f l; apply Forall_fmap, Forall_forall; by intros).
    assert (∀ f (l : list Z), Forall B ((λ s, buyEvent (f s)) <$> l)) as HBbuys
      by (intros f l; apply Forall_fmap, Forall_forall; by intros).
    assert (∀ p, Forall P ((countdownEvent p <$> countdownMessages) ++ [startEvent p]))
      as HPspecial by (intros p; by apply Forall_special).
    assert (∃ E remaining normalStart r,
              match specialPhaseOn config with
              | Some sp => specialEntries sp (totalMessagesNeeded config)
              | None => ret ([], totalMessagesNeeded config, startTimeUtc config)
              end rng = Some ((E, remaining, normalStart), r)
              ∧ Forall P E ∧ (specialPhaseOn config = None → E = []))
      as (E & remaining & normalStart & r & Hfirst & HPE & HE).
    { destruct (specialPhaseOn config) as [sp|].
      - unfold specialEntries. case_decide.
        + unfold bind.
          destruct (sampleUniqueSeconds _ _ rng) as [[secs r]|] eqn:Hsecs.
          2:{ unfold specialEntries in Hrun. rewrite decide_True in Hrun by done.
              unfold bind in Hrun. by rewrite Hsecs in Hrun. }
          eexists _, _, _, _. split; [reflexivity|]. split; [|done].
          apply Forall_app. split; [apply HPspecial|apply HPbuys].
        + eexists _, _, _, _. split; [reflexivity|]. split; [apply HPspecial|done].
      - eexists _, _, _, _. split; [reflexivity|]. split; [constructor|done]. }
    rewrite Hfirst in Hrun. case_decide.
    - destruct (generateSchedule _ shuffle r) as [[[[sched e] t] r1]|]; [|done].
      unfold ret in Hrun. exists (E ++ (buyEvent <$> sched)).
      split; [by injection Hrun as <- _ _|].
      split; [apply Forall_app; split; [done|apply (HPbuys id)]|].
      intros Hoff. rewrite (HE Hoff). apply (HBbuys id).
    - unfold ret in Hrun. exists E. split; [by injection Hrun as <- _ _|].
      split; [done|]. intros Hoff. rewrite (HE Hoff). constructor. }
  split; [apply sortByAt_sortedByAt|].
  split; [by rewrite sortByAt_Permutation|].
  intros Hoff. rewrite sortByAt_Permutation. by apply HB.
Qed.

Lemma generateFullSchedule_sorted_with_known_kinds_witness :
  ∃ entries effectiveEnd,
    generateFullSchedule Examples.countdownConfig id Examples.countdownDraws
    = Some ((entries, effectiveEnd), [])
    ∧ sortedByAt entries
    ∧ length entries = 12%nat.
Proof.
  destruct (generateFullSchedule Examples.countdownConfig id Examples.countdownDraws)
    as [[[entries e] r]|] eqn:Hgen; [|by vm_compute in Hgen].
  assert (r = [] ∧ length entries = 12%nat) as [-> Hlen].
  { vm_compute in Hgen. by injection Hgen as <- _ <-. }
  exists entries, e. split; [reflexivity|]. split; [|exact Hlen].
  exact (proj1 (generateFullSchedule_sorted_with_known_kinds _ _ _ _ _ _ Hgen)).
Defined.

Lemma StronglySorted_lt_instants (p : Z) (secs : list Z) :
  StronglySorted Z.lt secs → StronglySorted Z.le ((λ s, p + s * 1000) <$> secs).
Proof.
  induction 1 as [|s secs Hs IH Hall]; [constructor|].
  rewrite fmap_cons. constructor; [done|].
  apply Forall_fmap. eapply Forall_impl; [exact Hall|]. simpl. lia.
Qed.

(** X11. With the special phase enabled, a burst asked for
    ([initialBurstCount > 0]) and a burst window that is not negative,
    the schedule is: the 8 countdown entries, the start entry, the buys
    of the burst, the buys of the regular schedule.  The burst buys are
    at strictly increasing whole seconds from the launch on, within the
    burst window; the regular buys are in order and none is before the
    end of the burst window; there is none when the burst covers the
    total. *)
Theorem generateFullSchedule_burst_before_regular
    (config : Config) (shuffle : list nat → list nat) (rng rng' : Rng)
    (sp : SpecialPhase) (entries : list Event) (effectiveEnd : Z) :
  specialPhaseOn config = Some sp →
  0 < initialBurstCount sp →
  0 <= initialBurstMinutes sp →
  validDraws rng →
  generateFullSchedule config shuffle rng = Some ((entries, effectiveEnd), rng') →
  ∃ secs regular : list Z,
    entries = (countdownEvent (presaleStartUtc sp) <$> countdownMessages)
              ++ [startEvent (presaleStartUtc sp)]
              ++ (buyEvent <$> (((λ s, presaleStartUtc sp + s * 1000) <$> secs)
                                ++ regular))
    ∧ StronglySorted Z.lt secs
    ∧ Forall (λ s, 0 <= s < burstSpanSec sp) secs
    ∧ sortedTimes regular
    ∧ Forall (λ t, presaleStartUtc sp + burstSpanSec sp * 1000 <= t) regular
    ∧ (totalMessagesNeeded config <= initialBurstCount sp → regular = []).
Proof.
  intros Hon Hpos Hmin Hvalid. unfold generateFullSchedule. rewrite Hon.
  unfold specialEntries. fold (burstSpanSec sp).
  assert (60 <= burstSpanSec sp) as Hspan
    by (unfold burstSpanSec; case_decide; lia).
  case_decide as Hburst; [|lia].
  unfold bind at 1. unfold bind at 1.
  destruct (sampleUniqueSeconds (initialBurstCount sp) (burstSpanSec sp) rng)
    as [[secs r]|] eqn:Hsecs; [|done].
  pose proof (SamplerOrderFacts.sampleUnique_increasing _ _ _ _ _ Hsecs) as Hinc.
  assert (0 < Z.max 1 (burstSpanSec sp)) as Hmax by lia.
  destruct (SamplerFacts.sampleUnique_range _ _ _ _ _ Hmax Hvalid Hsecs) as [Hrange Hr].
  rewrite Z.max_r in Hrange by lia.
  unfold ret at 1. set (p := presaleStartUtc sp).
  set (special := (countdownEvent p <$> countdownMessages) ++ [startEvent p]).
  assert (∀ regular, sortedTimes regular →
            Forall (λ t, p + burstSpanSec sp * 1000 <= t) regular →
            sortByAt ((special ++ ((λ s, buyEvent (p + s * 1000)) <$> secs))
                      ++ (buyEvent <$> regular))
            = (countdownEvent p <$> countdownMessages) ++ [startEvent p]
              ++ (buyEvent <$> (((λ s, p + s * 1000) <$> secs) ++ regular)))
    as Hsorted.
  { intros regular Hs Hge.
    assert ((special ++ ((λ s, buyEvent (p + s * 1000)) <$> secs))
            ++ (buyEvent <$> regular)
            = special ++ (buyEvent <$> (((λ s, p + s * 1000) <$> secs) ++ regular)))
      as ->.
    { rewrite fmap_app, <- list_fmap_compose. by rewrite <- app_assoc. }
    rewrite SpecialPhaseFacts.sortByAt_sorted; [unfold special; by rewrite <- app_assoc|].
    apply SpecialPhaseFacts.sortedByAt_special.
    - apply GeneratorFacts.Sorted_sortedTimes, StronglySorted_Sorted.
      apply StronglySorted_app_2.
      + intros x1 x2 (s & -> & Hs1)%list_elem_of_fmap Hx2.
        rewrite Forall_forall in Hrange, Hge.
        specialize (Hrange s Hs1). specialize (Hge x2 Hx2). lia.
      + by apply StronglySorted_lt_instants.
      + apply Sorted_StronglySorted; [apply _|]. by apply GeneratorFacts.sortedTimes_Sorted.
    - apply Forall_app. split.
      + apply Forall_fmap. eapply Forall_impl; [exact Hrange|]. simpl. lia.
      + eapply Forall_impl; [exact Hge|]. simpl. lia. }
  case_decide as Hrem.
  - set (normalConfig := withStartAndTarget config _ _).
    unfold bind.
    destruct (generateSchedule normalConfig shuffle r) as [[[[regular e] t] r1]|] eqn:Hgen;
      [|done].
    unfold ret. intros [= <- <- <-].
    destruct (GeneratorFacts.preserves_generateSchedule normalConfig shuffle _ _ _ Hr Hgen)
      as [(Hs & Hge & _) _]. simpl in Hs, Hge.
    exists secs, regular. split; [by apply Hsorted|].
    do 4 (split; [done|]). intros Hcover. lia.
  - cbv zeta. unfold ret. intros [= <- _ <-].
    exists secs, []. split.
    { specialize (Hsorted [] ltac:(done) ltac:(done)).
      rewrite fmap_nil, !app_nil_r in Hsorted. rewrite app_nil_r.
      transitivity (sortByAt (special ++ ((λ s, buyEvent (p + s * 1000)) <$> secs)));
        [reflexivity|]. by rewrite Hsorted. }
    do 2 (split; [done|]). split; [done|]. split; [done|]. done.
Qed.

(** A launch on Tuesday 22:00 with a burst of two buys in the first
    minute and three messages in all: the draws 0.1 and 0.5 put the
    burst at seconds 6 and 30, and the one regular buy follows the
    burst window. *)
Lemma generateFullSchedule_burst_before_regular_witness :
  let sp := mkSpecialPhase true 0 Examples.tuesday22h 1 2 in
  let config := mkConfig Examples.tuesday22h (Examples.tuesday22h + 3600000)
                  300 100 1 10 714.28 0 false (Some sp) in
  specialPhaseOn config = Some sp
  ∧ 0 < initialBurstCount sp
  ∧ 0 <= initialBurstMinutes sp
  ∧ validDraws [0.1; 0.5; 0.5; 0.5]%Q
  ∧ ∃ entries effectiveEnd secs regular,
      generateFullSchedule config id [0.1; 0.5; 0.5; 0.5]%Q
      = Some ((entries, effectiveEnd), [])
      ∧ entries = (countdownEvent Examples.tuesday22h <$> countdownMessages)
                  ++ [startEvent Examples.tuesday22h]
                  ++ (buyEvent <$> (((λ s, Examples.tuesday22h + s * 1000) <$> secs)
                                    ++ regular))
      ∧ length entries = 12%nat.
Proof.
  intros sp config.
  assert (validDraws [0.1; 0.5; 0.5; 0.5]%Q) as Hvalid
    by (apply GeneratorFacts.validDraws_check; by vm_compute).
  split; [reflexivity|]. split; [simpl; lia|]. split; [simpl; lia|].
  split; [exact Hvalid|].
  destruct (generateFullSchedule config id [0.1; 0.5; 0.5; 0.5]%Q)
    as [[[entries e] r]|] eqn:Hgen; [|by vm_compute in Hgen].
  assert (r = [] ∧ length entries = 12%nat) as [-> Hlen].
  { vm_compute in Hgen. by injection Hgen as <- _ <-. }
  destruct (generateFullSchedule_burst_before_regular config id _ _ sp entries e
              eq_refl ltac:(simpl; lia) ltac:(simpl; lia) Hvalid Hgen)
    as (secs & regular & Hentries & _).
  exists entries, e, secs, regular.
  split; [reflexivity|]. split; [exact Hentries|exact Hlen].
Defined.

End FullScheduleOrderFacts.

(** ** The delivery loop over several runs *)

Module DeliveryLoopFacts.
Import Delivery DeliveryLoop DeliveryFacts.

Lemma sendNextIfDue_completed defaulted now sendOk st :
  completed st = true → sendNextIfDue defaulted now sendOk st = (st, []).
Proof. intros Hc. unfold sendNextIfDue. by rewrite Hc. Qed.

Lemma sendNextIfDue_at_end defaulted now sendOk st :
  completed st = false → schedule st !! sentCount st = None →
  sendNextIfDue defaulted now sendOk st
  = (setCompleted st true, [Write (setCompleted st true); Log "INFO" "All messages sent"]).
Proof.
  intros Hc Hnone%lookup_ge_None. unfold sendNextIfDue. rewrite Hc.
  by rewrite decide_True by lia.
Qed.

Lemma deliver_no_timers defaulted now sendOk st ev :
  timers (deliver defaulted now sendOk st ev).2 = [].
Proof. unfold deliver. by destruct (kind ev), sendOk. Qed.

Lemma deliver_sends_length defaulted now sendOk st ev :
  (length (sends (deliver defaulted now sendOk st ev).2) <= 1)%nat.
Proof. unfold deliver. destruct (kind ev), sendOk; simpl; lia. Qed.

Lemma deliver_accepted defaulted now st ev :
  sentCount (deliver defaulted now true st ev).1 = S (sentCount st)
  ∧ ∀ j m, (j, m) ∈ sends (deliver defaulted now true st ev).2 → j = sentCount st.
Proof.
  unfold deliver. destruct (kind ev); simpl; (split; [done|]); intros j m Hin.
  all: try (apply list_elem_of_singleton in Hin; by injection Hin as -> _).
  by apply elem_of_nil in Hin.
Qed.

(** A run that arms no timer leaves the state completed. *)
Lemma sendNextIfDue_rearms_or_completes defaulted now sendOk st :
  (completed (sendNextIfDue defaulted now sendOk st).1 = true
   ∧ timers (sendNextIfDue defaulted now sendOk st).2 = [])
  ∨ (completed (sendNextIfDue defaulted now sendOk st).1 = false
     ∧ ∃ ms, timers (sendNextIfDue defaulted now sendOk st).2 = [ms] ∧ 1 <= ms <= 5000
             ∧ (ms ≠ 1000 → sends (sendNextIfDue defaulted now sendOk st).2 = [])).
Proof.
  destruct (completed st) eqn:Hc.
  { rewrite sendNextIfDue_completed by done. by left. }
  destruct (schedule st !! sentCount st) as [item|] eqn:Hitem.
  2:{ rewrite sendNextIfDue_at_end by done. by left. }
  destruct (sendNextIfDue_shape defaulted now sendOk st item Hc Hitem)
    as (st1 & tr1 & Hss & _ & Hcases).
  pose proof (skipEffects_no_timers _ _ (ss_effects _ _ _ _ Hss)) as Hnt.
  pose proof (skipEffects_no_sends _ _ (ss_effects _ _ _ _ Hss)) as Hns.
  destruct Hcases as [(_ & Hdone & _ & ->)
                     |(Hc1 & item1 & ev1 & _ & _ & _ & _ & _ & _ & [[_ ->]|[Hwait ->]])];
    simpl.
  - by left.
  - right. destruct (deliver_state defaulted now sendOk st1 ev1) as (_ & _ & _ & Hcd & _).
    split; [by rewrite Hcd|]. exists 1000.
    rewrite !timers_app, Hnt, deliver_no_timers. split; [done|]. split; [lia|done].
  - right. split; [done|]. exists (Z.min (itemAt item1 - now) 5000).
    rewrite timers_app, Hnt. split; [done|]. split; [lia|].
    intros _. by rewrite sends_app, Hns.
Qed.


(** X13. At the end of every run of [sendNextIfDue] the state in memory is
    the state last written to the state file in that run, or the state
    the run started with when it wrote nothing. *)
Theorem sendNextIfDue_memory_is_last_write
    (defaulted : Config) (now : Z) (sendOk : bool) (st : State) :
  last (st :: writes (sendNextIfDue defaulted now sendOk st).2)
  = Some (sendNextIfDue defaulted now sendOk st).1.
Proof.
  destruct (completed st) eqn:Hc.
  { by rewrite sendNextIfDue_completed by done. }
  destruct (schedule st !! sentCount st) as [item|] eqn:Hitem.
  2:{ by rewrite sendNextIfDue_at_end by done. }
  destruct (sendNextIfDue_shape defaulted now sendOk st item Hc Hitem)
    as (st1 & tr1 & Hss & _ & Hcases).
  pose proof (ss_last _ _ _ _ Hss) as Hlast.
  destruct Hcases as [(_ & _ & _ & ->)
                     |(_ & item1 & ev1 & _ & _ & _ & _ & _ & _ & [[_ ->]|[_ ->]])];
    simpl.
  - done.
  - rewrite !writes_app. simpl. rewrite app_nil_r.
    destruct (deliver_state defaulted now sendOk st1 ev1)
      as (_ & _ & _ & _ & _ & _ & [[-> ->] | ->]).
    + by rewrite app_nil_r.
    + change (st :: writes tr1 ++ [(deliver defaulted now sendOk st1 ev1).1])
        with ((st :: writes tr1) ++ [(deliver defaulted now sendOk st1 ev1).1]).
      apply last_snoc.
  - rewrite writes_app. simpl. by rewrite app_nil_r.
Qed.

Lemma sendNextIfDue_sends_length defaulted now sendOk st :
  (length (sends (sendNextIfDue defaulted now sendOk st).2) <= 1)%nat.
Proof.
  destruct (completed st) eqn:Hc.
  { rewrite sendNextIfDue_completed by done. simpl. lia. }
  destruct (schedule st !! sentCount st) as [item|] eqn:Hitem.
  2:{ rewrite sendNextIfDue_at_end by done. simpl. lia. }
  destruct (sendNextIfDue_shape defaulted now sendOk st item Hc Hitem)
    as (st1 & tr1 & Hss & _ & Hcases).
  pose proof (skipEffects_no_sends _ _ (ss_effects _ _ _ _ Hss)) as Hns.
  destruct Hcases as [(_ & _ & _ & ->)
                     |(_ & item1 & ev1 & _ & _ & _ & _ & _ & _ & [[_ ->]|[_ ->]])];
    simpl.
  - rewrite Hns. simpl. lia.
  - rewrite !sends_app, Hns. simpl. rewrite app_nil_r. apply deliver_sends_length.
  - rewrite sends_app, Hns. simpl. lia.
Qed.

(** A run in which the notifier accepted the entry of index [j] leaves
    the cursor just after it. *)
Lemma sendNextIfDue_accepted defaulted now st j m :
  (j, m) ∈ sends (sendNextIfDue defaulted now true st).2 →
  sentCount (sendNextIfDue defaulted now true st).1 = S j.
Proof.
  destruct (completed st) eqn:Hc.
  { rewrite sendNextIfDue_completed by done. by intros ?%elem_of_nil. }
  destruct (schedule st !! sentCount st) as [item|] eqn:Hitem.
  2:{ rewrite sendNextIfDue_at_end by done. by intros ?%elem_of_nil. }
  destruct (sendNextIfDue_shape defaulted now true st item Hc Hitem)
    as (st1 & tr1 & Hss & _ & Hcases).
  pose proof (skipEffects_no_sends _ _ (ss_effects _ _ _ _ Hss)) as Hns.
  destruct Hcases as [(_ & _ & _ & ->)
                     |(_ & item1 & ev1 & _ & _ & _ & _ & _ & _ & [[_ ->]|[_ ->]])];
    simpl.
  - rewrite Hns. by intros ?%elem_of_nil.
  - rewrite !sends_app, Hns. simpl. rewrite app_nil_r. intros Hin.
    destruct (deliver_accepted defaulted now st1 ev1) as [Hcnt Hidx].
    by rewrite Hcnt, (Hidx j m Hin).
  - rewrite sends_app, Hns. by intros ?%elem_of_nil.
Qed.

(** The chain of runs calls the notifier only for entries at or after
    the cursor it starts with. *)
Lemma sendLoop_send_index defaulted ticks st j m :
  (j, m) ∈ sends (sendLoop defaulted ticks st).2 → (sentCount st <= j)%nat.
Proof.
  revert st. induction ticks as [|[now sendOk] ticks IH]; intros st; simpl.
  { by intros ?%elem_of_nil. }
  pose proof (sendNextIfDue_send_index defaulted now sendOk st j m) as Hfirst.
  pose proof (sendNextIfDue_cursor_mono defaulted now sendOk st) as Hmono.
  destruct (sendNextIfDue defaulted now sendOk st) as [st1 tr1]. simpl in *.
  destruct (timers tr1); [done|].
  specialize (IH st1). destruct (sendLoop defaulted ticks st1) as [st2 tr2].
  simpl in *. rewrite sends_app, elem_of_app. intros [Hin|Hin]; [by apply Hfirst|].
  specialize (IH Hin). lia.
Qed.

(** X14. A run of [sendNextIfDue] calls the notifier at most once, and an
    entry the notifier has accepted is not handed to it again: in the
    runs that follow, whatever their times and their outcomes, no call
    is made for that entry. *)
Theorem sendLoop_accepted_entry_not_sent_again
    (defaulted : Config) (now : Z) (st : State) (ticks : list (Z * bool))
    (j : nat) (m : Message) :
  (j, m) ∈ sends (sendNextIfDue defaulted now true st).2 →
  sends (sendNextIfDue defaulted now true st).2 = [(j, m)]
  ∧ ∀ m', (j, m') ∉ sends (sendLoop defaulted ticks
                              (sendNextIfDue defaulted now true st).1).2.
Proof.
  intros Hin. split.
  - pose proof (sendNextIfDue_sends_length defaulted now true st) as Hlen.
    destruct (sends (sendNextIfDue defaulted now true st).2) as [|x [|y l]];
      [by apply elem_of_nil in Hin| |simpl in Hlen; lia].
    by apply list_elem_of_singleton in Hin as ->.
  - intros m' Hagain. apply sendLoop_send_index in Hagain.
    rewrite (sendNextIfDue_accepted _ _ _ _ _ Hin) in Hagain. lia.
Qed.

(** The first buy of [twoBuys], due at instant 0, is accepted; the runs
    at 100 s, of which the first fails, concern the second buy only. *)
Lemma sendLoop_accepted_entry_not_sent_again_witness :
  ∃ m, (0%nat, m) ∈ sends (sendNextIfDue Examples.smallConfig 0 true Examples.twoBuys).2
       ∧ (fst <$> sends (sendLoop Examples.smallConfig [(100000, false); (100000, true)]
                           (sendNextIfDue Examples.smallConfig 0 true Examples.twoBuys).1).2)
         = [1%nat; 1%nat]
       ∧ ∀ m', (0%nat, m') ∉
               sends (sendLoop Examples.smallConfig [(100000, false); (100000, true)]
                        (sendNextIfDue Examples.smallConfig 0 true Examples.twoBuys).1).2.
Proof.
  eexists. split; [left|]. split; [reflexivity|].
  refine (proj2 (sendLoop_accepted_entry_not_sent_again Examples.smallConfig 0
                   Examples.twoBuys [(100000, false); (100000, true)] 0 _ _)).
  left.
Defined.

(** A run on an entry that is due, with a notifier that accepts, moves
    the cursor forward. *)
Lemma sendNextIfDue_progress defaulted now st :
  completed st = false →
  (sentCount st < length (schedule st))%nat →
  allDue now st →
  (sentCount st < sentCount (sendNextIfDue defaulted now true st).1)%nat.
Proof.
  intros Hc Hlt Hdue.
  destruct (lookup_lt_is_Some_2 _ _ Hlt) as [item Hitem].
  destruct (sendNextIfDue_shape defaulted now true st item Hc Hitem)
    as (st1 & tr1 & Hss & _ & Hcases).
  pose proof (ss_count _ _ _ _ Hss) as Hcount.
  destruct Hcases as [(Hend & _ & _ & ->)
                     |(_ & item1 & ev1 & Hitem1 & _ & _ & _ & _ & _ & [[_ ->]|[Hwait _]])];
    simpl.
  - lia.
  - destruct (deliver_accepted defaulted now st1 ev1) as [-> _]. lia.
  - unfold allDue in Hdue. rewrite Forall_forall in Hdue.
    specialize (Hdue item1 (list_elem_of_lookup_2 _ _ _ Hitem1)). lia.
Qed.

Lemma sendLoop_completes_from defaulted ticks st :
  cursorOk st →
  Forall (λ tick, tick.2 = true ∧ allDue tick.1 st) ticks →
  (length (schedule st) - sentCount st < length ticks)%nat →
  completed (sendLoop defaulted ticks st).1 = true
  ∧ cursorOk (sendLoop defaulted ticks st).1
  ∧ schedule (sendLoop defaulted ticks st).1 = schedule st.
Proof.
  revert st. induction ticks as [|[now sendOk] ticks IH]; intros st Hok Hticks Hlen;
    [simpl in Hlen; lia|].
  apply Forall_cons in Hticks as [[Hsend Hdue] Hticks]. simpl in Hsend, Hdue. subst sendOk.
  simpl.
  destruct (sendNextIfDue_invariant defaulted now true st Hok) as (Hok1 & Hsched1 & _).
  pose proof (sendNextIfDue_rearms_or_completes defaulted now true st) as Hrearm.
  destruct (completed st) eqn:Hc.
  { rewrite sendNextIfDue_completed by done. simpl. done. }
  destruct (decide (sentCount st < length (schedule st))%nat) as [Hlt|Hge].
  2:{ rewrite sendNextIfDue_at_end by (done || apply lookup_ge_None; lia). simpl.
      split; [done|]. split; [|done]. destruct Hok as [Hle _]. split; simpl; [done|].
      intros _. lia. }
  pose proof (sendNextIfDue_progress defaulted now st Hc Hlt Hdue) as Hprog.
  destruct (sendNextIfDue defaulted now true st) as [st1 tr1]. simpl in *.
  destruct (timers tr1) as [|ms l] eqn:Htimers.
  - simpl. split; [|done]. destruct Hrearm as [[? _]|[_ (ms & Hms & _)]]; done.
  - assert (Forall (λ tick, tick.2 = true ∧ allDue tick.1 st1) ticks) as Hticks1.
    { eapply Forall_impl; [exact Hticks|]. unfold allDue. intros tick [? ?].
      by rewrite Hsched1. }
    specialize (IH st1 Hok1 Hticks1 ltac:(rewrite Hsched1; lia)).
    destruct (sendLoop defaulted ticks st1) as [st2 tr2]. simpl in *.
    destruct IH as (? & ? & ->). done.
Qed.


(** X15. Once every entry still to come is due and the notifier accepts
    what it is given, the chain of runs ends with the schedule
    completed: from a state whose cursor is within the schedule, one
    run more than there are entries left is enough to reach the end
    of the schedule and set the flag, the schedule itself unchanged. *)
Theorem sendLoop_completes
    (defaulted : Config) (ticks : list (Z * bool)) (st : State) :
  cursorOk st →
  Forall (λ tick, tick.2 = true ∧ allDue tick.1 st) ticks →
  (length (schedule st) - sentCount st < length ticks)%nat →
  completed (sendLoop defaulted ticks st).1 = true
  ∧ sentCount (sendLoop defaulted ticks st).1 = length (schedule st)
  ∧ schedule (sendLoop defaulted ticks st).1 = schedule st.
Proof.
  intros Hok Hticks Hlen.
  destruct (sendLoop_completes_from defaulted ticks st Hok Hticks Hlen)
    as (Hc & [_ Hend] & Hsched).
  split; [done|]. split; [|done]. rewrite <- Hsched. by apply Hend.
Qed.

(** Three runs at 100 s on [twoBuys]: the first buy is skipped as stale
    and the second delivered, then the end is seen and the flag set. *)
Lemma sendLoop_completes_witness :
  cursorOk Examples.twoBuys
  ∧ completed (sendLoop Examples.smallConfig
                 [(100000, true); (100000, true); (100000, true)] Examples.twoBuys).1
    = true.
Proof.
  assert (cursorOk Examples.twoBuys) as Hok by (split; [simpl; lia|done]).
  split; [exact Hok|].
  refine (proj1 (sendLoop_completes Examples.smallConfig
                   [(100000, true); (100000, true); (100000, true)]
                   Examples.twoBuys Hok _ _)).
  - repeat (apply Forall_cons; split; [split; [reflexivity|]|]); try by constructor.
    all: unfold allDue; simpl; repeat (apply Forall_cons; split; [simpl; lia|]);
      by constructor.
  - simpl. lia.
Defined.

(** X16. The text and the image of a countdown or start message are those
    of the entry the run found under the cursor when it began, while
    the kind is that of the entry the message is sent for; when that
    first entry has no text and the message is a start, the text is the
    built-in launch text.  The two entries differ when stale entries
    were skipped in the run: the entry reached is then announced with
    the text and image of the first entry skipped. *)
Theorem sendNextIfDue_text_and_image_of_first_head
    (defaulted : Config) (now : Z) (sendOk : bool) (st : State) (item : Item)
    (j : nat) (k : Kind) (msg : option Text) (img : option string) :
  completed st = false →
  schedule st !! sentCount st = Some item →
  (j, TextMessage k msg img) ∈ sends (sendNextIfDue defaulted now sendOk st).2 →
  img = image (itemEvent item)
  ∧ msg = match text (itemEvent item), k with
          | None, KStart => Some LaunchText
          | t, _ => t
          end
  ∧ (sentCount st <= j)%nat
  ∧ ∃ target, schedule st !! j = Some target ∧ k = kind (itemEvent target).
Proof.
  intros Hc Hitem.
  destruct (sendNextIfDue_shape defaulted now sendOk st item Hc Hitem)
    as (st1 & tr1 & Hss & _ & Hcases).
  pose proof (skipEffects_no_sends _ _ (ss_effects _ _ _ _ Hss)) as Hns.
  pose proof (ss_count _ _ _ _ Hss) as Hcount.
  destruct Hcases as [(_ & _ & _ & ->)
                     |(_ & item1 & ev1 & Hitem1 & _ & _ & Hkind & Htext & Himage
                       & [[_ ->]|[_ ->]])];
    simpl.
  - rewrite Hns. by intros ?%elem_of_nil.
  - rewrite !sends_app, Hns. simpl. rewrite app_nil_r.
    rewrite <- Htext, <- Himage.
    unfold deliver. destruct (kind ev1) eqn:Hk, (text ev1) eqn:Ht, sendOk; simpl;
      intros Hin; try (by apply elem_of_nil in Hin);
      apply list_elem_of_singleton in Hin; try discriminate Hin;
      injection Hin as -> -> -> ->.
    all: split; [done|]; split; [done|]; split; [lia|]; by exists item1.
  - rewrite sends_app, Hns. by intros ?%elem_of_nil.
Qed.

(** At 100 s the countdown entry of [countdownThenStart] is stale and
    the start entry due: the start is announced with the text and the
    image of the countdown. *)
Lemma sendNextIfDue_text_and_image_of_first_head_witness :
  completed Examples.countdownThenStart = false
  ∧ (1%nat, TextMessage KStart (Some (CountdownText 1)) (Some "1.png"%string))
    ∈ sends (sendNextIfDue Examples.smallConfig 100000 true Examples.countdownThenStart).2
  ∧ Some "1.png"%string
    = image (itemEvent (ItemEvent (FullSchedule.countdownEvent 60000 (1, "1.png"%string)))).
Proof.
  split; [reflexivity|].
  assert ((1%nat, TextMessage KStart (Some (CountdownText 1)) (Some "1.png"%string))
          ∈ sends (sendNextIfDue Examples.smallConfig 100000 true
                     Examples.countdownThenStart).2) as Hin by left.
  split; [exact Hin|].
  exact (proj1 (sendNextIfDue_text_and_image_of_first_head Examples.smallConfig 100000
                  true Examples.countdownThenStart _ 1 KStart _ _ eq_refl eq_refl Hin)).
Defined.

Lemma filter_twice {A} (P : A → Prop) `{∀ x, Decision (P x)} (l : list A) :
  filter P (filter P l) = filter P l.
Proof.
  apply filter_all, Forall_forall. intros x Hx. by apply list_elem_of_filter in Hx as [? _].
Qed.

Lemma hardStop_twice defaulted st :
  hardStop defaulted (hardStop defaulted st).1
  = ((hardStop defaulted st).1,
     if enforceHardStopAtEnd defaulted then [Write (hardStop defaulted st).1] else []).
Proof.
  unfold hardStop. destruct (enforceHardStopAtEnd defaulted); [|done].
  destruct st as [sig sched e n total c]. unfold setSchedule. simpl.
  by rewrite filter_twice.
Qed.

(** X17. Restarting right after a startup changes nothing.  Whatever the
    state file held at the first startup, the state that startup leaves
    is taken back as it is by the next startup under the same
    configuration (the same signature string): no schedule is generated
    (no random number is drawn), the hard stop removes nothing more,
    and the only thing written, when the hard stop is on, is that same
    state. *)
Theorem startup_after_startup_keeps_state
    (configSig : Signature) (defaulted : Config) (shuffle : list nat → list nat)
    (persistedState : option State) (rng rng' : Random.Rng)
    (st : State) (tr : list Effect) :
  startup configSig defaulted shuffle persistedState rng = Some ((st, tr), rng') →
  ∀ rng2,
    startup configSig defaulted shuffle (Some st) rng2
    = Some ((st, if enforceHardStopAtEnd defaulted then [Write st] else []), rng2).
Proof.
  unfold startup. unfold Random.bind at 1.
  destruct (loadOrGenerate configSig defaulted shuffle persistedState rng)
    as [[[st0 tr0] r]|] eqn:Hload; [|done].
  assert (configSignature st0 = configSig) as Hsig.
  { unfold loadOrGenerate in Hload.
    assert (Random.bind (FullSchedule.generateFullSchedule defaulted shuffle)
              (λ '(entries, effectiveEnd),
                 Random.ret (freshState configSig defaulted entries effectiveEnd,
                             [Write (freshState configSig defaulted entries effectiveEnd);
                              Log "INFO" "Planned schedule"])) rng
            = Some ((st0, tr0), r) →
            configSignature st0 = configSig) as Hfresh.
    { unfold Random.bind.
      destruct (FullSchedule.generateFullSchedule defaulted shuffle rng)
        as [[[entries e] r0]|]; [|done].
      unfold Random.ret. by intros [= <- _ _]. }
    destruct persistedState as [s|]; [|by apply Hfresh].
    destruct (decide (configSignature s = configSig)) as [Heq|Hne].
    - rewrite bool_decide_false in Hload by (by intros ?).
      unfold Random.ret in Hload. by injection Hload as <- _ _.
    - rewrite bool_decide_true in Hload by done. by apply Hfresh. }
  pose proof (hardStop_twice defaulted st0) as Htwice.
  destruct (hardStop_fields defaulted st0) as (Hsame & _).
  destruct (hardStop defaulted st0) as [st1 tr1]. simpl in *.
  unfold Random.ret. intros [= <- _ _] rng2.
  unfold Random.bind, loadOrGenerate.
  rewrite bool_decide_false by (rewrite Hsame; by intros ?).
  unfold Random.ret. by rewrite Htwice.
Qed.

(** A first startup without a state file on [countdownConfig], then a
    second one that finds the state the first one left. *)
Lemma startup_after_startup_keeps_state_witness :
  ∃ st tr,
    startup "countdown" Examples.countdownConfig id None Examples.countdownDraws
    = Some ((st, tr), [])
    ∧ startup "countdown" Examples.countdownConfig id (Some st) [] = Some ((st, []), []).
Proof.
  destruct (startup "countdown" Examples.countdownConfig id None Examples.countdownDraws)
    as [[[st tr] r]|] eqn:Hrun; [|by vm_compute in Hrun].
  assert (r = []) as -> by (vm_compute in Hrun; by injection Hrun as _ _ <-).
  exists st, tr. split; [reflexivity|].
  exact (startup_after_startup_keeps_state "countdown" Examples.countdownConfig id None
           _ _ st tr Hrun []).
Defined.

End DeliveryLoopFacts.

(** ** The merged configuration *)

Module ConfigMergeFacts.
Import ConfigMerge.

Lemma envConfig_NoDup Number env : NoDup (envConfig Number env).*1.
Proof.
  change ((envConfig Number env).*1)
    with [ "BOT_TOKEN"; "TARGET_CHANNEL_ID"; "startTimeUtc"; "endTimeUtc";
           "targetTotalUsd"; "amountPerMessageUsd"; "tokensPerHundred";
           "startRaisedUsd"; "minPerHour"; "maxPerHour"; "enforceHardStopAtEnd" ]%string.
  apply (bool_decide_unpack _). by vm_compute.
Qed.

Lemma envConfig_unique Number env key v v' :
  (key, v) ∈ envConfig Number env → (key, v') ∈ envConfig Number env → v = v'.
Proof.
  intros H1 H2. pose proof (envConfig_NoDup Number env) as Hnd.
  apply (elem_of_list_to_map_1 (M := gmap string) _ _ _ Hnd) in H1, H2. congruence.
Qed.

(** A property of [merged] that [envConfig] has: the value of the
    environment unless it is undefined, and then that of the file. *)
Lemma merged_prop Number env fileConfig key v :
  (key, v) ∈ envConfig Number env →
  prop (merged Number env fileConfig) key
  = if defined v then v else prop fileConfig key.
Proof.
  intros Hin. unfold prop, merged, cleanEnvConfig.
  destruct (defined v) eqn:Hdef.
  - erewrite lookup_union_Some_l; [done|].
    apply elem_of_list_to_map_1'.
    + intros y [_ Hy]%list_elem_of_filter. by eapply envConfig_unique.
    + apply list_elem_of_filter. by split.
  - rewrite lookup_union_r; [done|].
    apply not_elem_of_list_to_map_1.
    intros ([k y] & -> & [Hy Hin']%list_elem_of_filter)%list_elem_of_fmap.
    simpl in *. rewrite (envConfig_unique _ _ _ _ _ Hin Hin') in Hdef. congruence.
Qed.

(** A property that [envConfig] does not have comes from the file. *)
Lemma merged_prop_file Number env fileConfig key :
  key ∉ (envConfig Number env).*1 →
  prop (merged Number env fileConfig) key = prop fileConfig key.
Proof.
  intros Hnot. unfold prop, merged, cleanEnvConfig.
  rewrite lookup_union_r; [done|]. apply not_elem_of_list_to_map_1.
  intros ([k y] & -> & [_ Hin]%list_elem_of_filter)%list_elem_of_fmap.
  apply Hnot, list_elem_of_fmap. by exists (k, y).
Qed.

Ltac in_envConfig :=
  unfold envConfig; repeat (first [by left | right]).

Lemma merged_number Number env fileConfig envName key builtin :
  (key, envNumber Number env envName) ∈ envConfig Number env →
  nullish (prop (merged Number env fileConfig) key) (VNumber builtin)
  = numberOption Number env fileConfig envName key builtin.
Proof.
  intros Hin. rewrite (merged_prop _ _ _ _ _ Hin).
  unfold envNumber, envVar, numberOption.
  destruct (env !! envName) as [s|]; simpl; [|done].
  destruct (decide (s = ""%string)) as [->|Hne].
  - by rewrite bool_decide_false by (by intros ?).
  - rewrite bool_decide_true, (bool_decide_false (s = ""%string)) by done.
    by destruct (Number s).
Qed.

(** X18. Every numeric option of [defaulted] follows one rule: the
    environment variable when it is set to a non-empty string (through
    [Number], so possibly NaN), else the value of the configuration
    file unless it is absent or null, else the built-in value.  An
    environment variable set to the empty string counts as not set. *)
Theorem defaulted_numeric_options
    (Number : string → option Q) (env : gmap string string) (fileConfig : JsObject) :
  let d := defaulted Number env fileConfig in
  let option := numberOption Number env fileConfig in
  targetTotalUsd d = option "TARGET_TOTAL_USD" "targetTotalUsd" 1400000%Q
  ∧ amountPerMessageUsd d = option "AMOUNT_PER_MESSAGE_USD" "amountPerMessageUsd" 100%Q
  ∧ minPerHour d = option "MIN_PER_HOUR" "minPerHour" 30%Q
  ∧ maxPerHour d = option "MAX_PER_HOUR" "maxPerHour" 60%Q
  ∧ tokensPerHundred d = option "TOKENS_PER_HUNDRED" "tokensPerHundred" 714.28%Q
  ∧ startRaisedUsd d = option "START_RAISED_USD" "startRaisedUsd" 0%Q.
Proof.
  cbv zeta. unfold defaulted. simpl.
  repeat split; apply merged_number; in_envConfig.
Qed.

Lemma merged_instant Number env fileConfig envName key builtin :
  (key, envVar env envName) ∈ envConfig Number env →
  or_ (prop (merged Number env fileConfig) key) (VString builtin)
  = instantOption env fileConfig envName key builtin.
Proof.
  intros Hin. rewrite (merged_prop _ _ _ _ _ Hin).
  unfold envVar, instantOption.
  destruct (env !! envName) as [s|]; simpl; [|done].
  unfold or_. simpl. destruct (decide (s = ""%string)) as [->|Hne].
  - by rewrite bool_decide_false by (by intros ?).
  - by rewrite bool_decide_true, (bool_decide_false (s = ""%string)) by done.
Qed.

(** X19. The two instants and the two credentials of [defaulted] take the
    environment variable whenever it is set, even to the empty string,
    and the value of the configuration file only when it is not set.
    So an empty [START_TIME_UTC] or [END_TIME_UTC] hides the value of
    the file and gives the built-in instant, and an empty [BOT_TOKEN] or
    [TARGET_CHANNEL_ID] hides the credential of the file and makes
    [main] stop with the request for the credentials; [main] goes on
    only when both credentials are non-empty. *)
Theorem defaulted_instants_and_credentials
    (Number : string → option Q) (env : gmap string string) (fileConfig : JsObject) :
  let d := defaulted Number env fileConfig in
  startTimeUtc d
  = instantOption env fileConfig "START_TIME_UTC" "startTimeUtc" "2025-08-08T17:45:00Z"
  ∧ endTimeUtc d
    = instantOption env fileConfig "END_TIME_UTC" "endTimeUtc" "2025-08-16T12:00:00Z"
  ∧ BOT_TOKEN d = credential env fileConfig "BOT_TOKEN"
  ∧ TARGET_CHANNEL_ID d = credential env fileConfig "TARGET_CHANNEL_ID"
  ∧ (env !! "BOT_TOKEN"%string = Some ""%string
     ∨ env !! "TARGET_CHANNEL_ID"%string = Some ""%string →
     credentialsMissing Number env fileConfig = true)
  ∧ (credentialsMissing Number env fileConfig = false ↔
     truthy (credential env fileConfig "BOT_TOKEN") = true
     ∧ truthy (credential env fileConfig "TARGET_CHANNEL_ID") = true).
Proof.
  cbv zeta.
  assert (∀ name, (name, envVar env name) ∈ envConfig Number env →
            prop (merged Number env fileConfig) name = credential env fileConfig name)
    as Hcred.
  { intros name Hin. rewrite (merged_prop _ _ _ _ _ Hin).
    unfold envVar, credential. by destruct (env !! name). }
  assert (BOT_TOKEN (defaulted Number env fileConfig)
          = credential env fileConfig "BOT_TOKEN") as Htoken
    by (apply Hcred; in_envConfig).
  assert (TARGET_CHANNEL_ID (defaulted Number env fileConfig)
          = credential env fileConfig "TARGET_CHANNEL_ID") as Hchannel
    by (apply Hcred; in_envConfig).
  split; [apply merged_instant; in_envConfig|].
  split; [apply merged_instant; in_envConfig|].
  split; [done|]. split; [done|].
  unfold credentialsMissing. rewrite Htoken, Hchannel. split.
  - unfold credential. intros [->| ->]; simpl; [done|]. apply orb_true_r.
  - destruct (truthy (credential env fileConfig "BOT_TOKEN")),
             (truthy (credential env fileConfig "TARGET_CHANNEL_ID")); simpl; intuition.
Qed.

(** X20. [defaulted.enforceHardStopAtEnd] is true exactly when the
    environment variable [ENFORCE_HARD_STOP] is the string [true]: the
    entry of the environment is never undefined, so the value of the
    configuration file is never used, and neither is the built-in
    value. *)
Theorem defaulted_enforceHardStopAtEnd_from_environment_only
    (Number : string → option Q) (env : gmap string string) (fileConfig : JsObject) :
  enforceHardStopAtEnd (defaulted Number env fileConfig)
  = VBool (bool_decide (env !! "ENFORCE_HARD_STOP"%string = Some "true"%string)).
Proof.
  unfold defaulted. simpl.
  rewrite (merged_prop Number env fileConfig "enforceHardStopAtEnd"
             (VBool (bool_decide (env !! "ENFORCE_HARD_STOP"%string = Some "true"%string))))
    by in_envConfig.
  done.
Qed.

End ConfigMergeFacts.

(** ** The figures of the purchase embed *)

Module EmbedFacts.
Import Embed.

Lemma hundredth_le (a b : Q) : (a <= b)%Q → (a / 100 <= b / 100)%Q.
Proof. intros Hle. apply Qmult_le_compat_r; [done|]. by vm_compute. Qed.

Lemma totalInvestors_le (a b : Q) :
  (a <= b)%Q → totalInvestors a <= totalInvestors b.
Proof. intros Hle. by apply Qfloor_resp_le, hundredth_le. Qed.

(** X21. The figures [buildDiscordMessage] shows, as functions of the
    total raised.  The spots remaining are never negative, and they
    never grow when the total grows, while the investors counted never
    shrink; up to the cap of 1,400,000 USD the investors counted and
    the spots remaining add up to 14,000; from the cap on no spot
    remains, and the investors counted are 14,000 or more. *)
Theorem buildDiscordMessage_figures (a b : Q) :
  0 <= spotsRemaining a
  ∧ ((a <= b)%Q →
     totalInvestors a <= totalInvestors b ∧ spotsRemaining b <= spotsRemaining a)
  ∧ ((0 <= a)%Q → (a <= 1400000)%Q → totalInvestors a + spotsRemaining a = 14000)
  ∧ ((1400000 <= a)%Q → spotsRemaining a = 0 ∧ 14000 <= totalInvestors a).
Proof.
  split; [unfold spotsRemaining; lia|].
  split.
  { intros Hle. pose proof (totalInvestors_le a b Hle). unfold spotsRemaining. lia. }
  split.
  { intros H0 Hcap. pose proof (totalInvestors_le 0 a H0) as Hlow.
    pose proof (totalInvestors_le a 1400000 Hcap) as Hup.
    change (totalInvestors 0) with 0 in Hlow.
    change (totalInvestors 1400000) with 14000 in Hup.
    unfold spotsRemaining. lia. }
  intros Hcap. pose proof (totalInvestors_le 1400000 a Hcap) as Hlow.
  change (totalInvestors 1400000) with 14000 in Hlow.
  unfold spotsRemaining. lia.
Qed.

(** 250 USD raised: two investors counted and 13,998 spots left. *)
Lemma buildDiscordMessage_figures_witness :
  (0 <= 250)%Q ∧ (250 <= 1400000)%Q
  ∧ totalInvestors 250 + spotsRemaining 250 = 14000.
Proof.
  assert (0 <= 250)%Q as H0 by (by vm_compute).
  assert (250 <= 1400000)%Q as Hcap by (by vm_compute).
  split; [exact H0|]. split; [exact Hcap|].
  exact (proj1 (proj2 (proj2 (buildDiscordMessage_figures 250 250))) H0 Hcap).
Defined.

End EmbedFacts.

(** ** The status endpoint *)

Module StatusFacts.
Import Delivery Status.

Lemma startsWith_append (searchString rest : string) :
  startsWith (searchString +:+ rest) searchString = true.
Proof.
  unfold startsWith. induction searchString as [|c s IH]; simpl.
  - by destruct rest.
  - destruct (Ascii.ascii_dec c c); [done|congruence].
Qed.

(** X22. In every state the delivery loop can be in, a GET request whose
    URL begins with [/status] is answered with code 200 and figures
    that agree with one another: the entries sent and the entries
    remaining add up to the length of the schedule, [nextAt] is the
    instant of the entry under the cursor and is null exactly when
    nothing remains, and a completed schedule has nothing remaining. *)
Theorem status_of_running_state
    (configSig : Signature) (defaulted : Config) (st : State) (rest : string) :
  running configSig defaulted st →
  ∃ resp,
    handleRequest defaulted st "GET" (Some ("/status" +:+ rest))
    = mkResponse 200 (StatusJson resp)
    ∧ respSentCount resp = sentCount st
    ∧ Z.of_nat (respSentCount resp) + remaining resp = Z.of_nat (length (schedule st))
    ∧ (nextAt resp = None ↔ remaining resp = 0)
    ∧ (∀ item, schedule st !! sentCount st = Some item →
         nextAt resp = Some (itemAt item))
    ∧ (respCompleted resp = true → remaining resp = 0 ∧ nextAt resp = None).
Proof.
  intros Hrun.
  destruct (proj1 (proj2 (DeliveryFacts.runs_invariant configSig defaulted)) st Hrun)
    as [[Hle Hdone] _].
  unfold handleRequest.
  rewrite bool_decide_false by done. rewrite bool_decide_true by done.
  rewrite bool_decide_true by done. rewrite (startsWith_append "/status" rest).
  simpl andb. cbv iota. eexists. split; [reflexivity|]. simpl.
  split; [done|]. split; [lia|].
  case_decide as Hlt.
  - destruct (lookup_lt_is_Some_2 _ _ Hlt) as [item Hitem]. rewrite Hitem.
    split; [split; [done|lia]|]. split; [by intros ? [= ->]|].
    intros Hc. specialize (Hdone Hc). lia.
  - split; [split; [lia|done]|]. split.
    + intros item Hitem%lookup_lt_Some. lia.
    + intros _. split; [lia|done].
Qed.

(** [twoBuys] as generated, before any run: two entries remain and the
    next one is at instant 0. *)
Lemma status_of_running_state_witness :
  running Examples.smallSig Examples.smallConfig Examples.twoBuys
  ∧ ∃ resp,
      handleRequest Examples.smallConfig Examples.twoBuys "GET" (Some "/status?x=1"%string)
      = mkResponse 200 (StatusJson resp)
      ∧ remaining resp = 2 ∧ nextAt resp = Some 0.
Proof.
  assert (running Examples.smallSig Examples.smallConfig Examples.twoBuys) as Hrun.
  { exact (running_start Examples.smallSig Examples.smallConfig Examples.twoBuys
             (loaded_fresh Examples.smallSig Examples.smallConfig _ _)). }
  split; [exact Hrun|].
  destruct (status_of_running_state Examples.smallSig Examples.smallConfig
              Examples.twoBuys "?x=1"%string Hrun)
    as (resp & Hresp & _).
  exists resp. split; [exact Hresp|].
  injection Hresp as <-. split; reflexivity.
Defined.

End StatusFacts.

(** ** The notifier *)

Module NotifierFacts.
Import Notifier.

#[local] Set Warnings "-clear-no-such-hyp".

(** X23. [sendDiscordMessage] calls [channel.send] at most once, with the
    content as given and with [embeds] and [files] only when they are
    not empty, and it returns normally exactly when that call was made
    and succeeded.  Otherwise it throws again the error it caught,
    after logging one error line as the last line: no call is made
    when the channel cannot be fetched, is null, or is a guild channel
    whose permissions resolve to null. *)
Theorem sendDiscordMessage_returns_iff_sent
    {Content Embed File : Type} (fetched : Fetch Content Embed File)
    (content : Content) (embeds : list Embed) (files : list File) :
  let run := sendDiscordMessage fetched content embeds files in
  let options :=
    mkMessageOptions content
      (match embeds with [] => None | _ :: _ => Some embeds end)
      (match files with [] => None | _ :: _ => Some files end) in
  (sent run.1 = [] ∨ sent run.1 = [options])
  ∧ (run.2 = Resolved ↔
     ∃ channel, fetched = FetchResolves (Some channel)
                ∧ guild channel ≠ Some None
                ∧ send channel options = None
                ∧ sent run.1 = [options])
  ∧ (run.2 = Resolved → errorLines run.1 = [])
  ∧ (∀ error, run.2 = Rejected error →
       errorLines run.1 = ["Failed to send Discord message"%string]
       ∧ last run.1 = Some (Log "ERROR" "Failed to send Discord message")
       ∧ (sent run.1 = [options] →
          ∃ channel e, fetched = FetchResolves (Some channel)
                       ∧ send channel options = Some e ∧ error = Thrown e))
  ∧ (match fetched with
     | FetchRejects _ | FetchResolves None => sent run.1 = []
     | FetchResolves (Some channel) => guild channel = Some None → sent run.1 = []
     end).
Proof.
  cbv zeta. unfold sendDiscordMessage.
  destruct fetched as [e|[[g snd]|]]; simpl; [naive_solver| |naive_solver].
  set (options := mkMessageOptions content _ _).
  destruct g as [[perms|]|]; simpl; [|naive_solver|];
    destruct (snd options) as [e|] eqn:Hsend; simpl; naive_solver.
Qed.

End NotifierFacts.

(** ** Reading what was written *)

Module JsonFileFacts.
Import Fs JsonFile.

Lemma substring_all (s : string) : String.substring 0 (String.length s) s = s.
Proof. induction s as [|c s IH]; simpl; [done|]. by rewrite IH. Qed.

Lemma stripBom_mark (s : string) : stripBom (BOM +:+ s) = s.
Proof.
  unfold stripBom.
  assert (String.prefix BOM (BOM +:+ s) = true) as -> by (by destruct s).
  change (String.length (BOM +:+ s) - 3)%nat with (String.length s - 0)%nat.
  rewrite Nat.sub_0_r. simpl. apply substring_all.
Qed.

(** X24. [readJsonFile] gives back what [writeJsonFile] stored: after a
    text that parses and does not begin with a byte order mark has been
    written to a path, reading that path gives the parsed value, and
    the other paths read as before.  A file that holds the same text
    behind one byte order mark reads as the same value.  A path that
    does not exist, or a text that does not parse, reads as the
    fallback. *)
Theorem readJsonFile_after_writeJsonFile
    {J : Type} (parse : string → option J) (fs : Files)
    (filePath other json : string) (value fallback : J) :
  String.prefix BOM json = false →
  parse json = Some value →
  let written := foldl (flip runOp) fs (writeJsonFile filePath json) in
  readJsonFile parse written filePath fallback = value
  ∧ (other ≠ filePath →
     readJsonFile parse written other fallback = readJsonFile parse fs other fallback)
  ∧ (fs !! other = Some (BOM +:+ json) → readJsonFile parse fs other fallback = value)
  ∧ (fs !! other = None → readJsonFile parse fs other fallback = fallback)
  ∧ (∀ raw, fs !! other = Some raw → parse (stripBom raw) = None →
       readJsonFile parse fs other fallback = fallback).
Proof.
  intros Hmark Hparse written. unfold written, writeJsonFile, readJsonFile. simpl.
  rewrite lookup_insert_eq.
  split; [unfold stripBom; by rewrite Hmark, Hparse|].
  split; [intros Hne; by rewrite lookup_insert_ne by done|].
  split; [intros ->; by rewrite stripBom_mark, Hparse|].
  split; [by intros ->|]. by intros raw -> ->.
Qed.

(** A text that parses to 7, written to the state file and read back. *)
Lemma readJsonFile_after_writeJsonFile_witness :
  let parse := λ s : string, if bool_decide (s = "7"%string) then Some 7 else None in
  String.prefix BOM "7" = false
  ∧ parse "7"%string = Some 7
  ∧ readJsonFile parse (foldl (flip runOp) filesBefore (writeJsonFile stateFile "7"))
      stateFile 0 = 7.
Proof.
  intros parse. split; [reflexivity|]. split; [reflexivity|].
  exact (proj1 (readJsonFile_after_writeJsonFile parse filesBefore stateFile
                  stateFile "7" 7 0 eq_refl eq_refl)).
Defined.

End JsonFileFacts.

(** ** What the runs account for *)

Module DeliveryTotalsFacts.
Import Delivery DeliveryLoop DeliveryTotals DeliveryFacts.

Lemma buyTotals_app tr1 tr2 : buyTotals (tr1 ++ tr2) = buyTotals tr1 ++ buyTotals tr2.
Proof. unfold buyTotals. by rewrite sends_app, omap_app. Qed.

Lemma buyTotals_no_sends tr : sends tr = [] → buyTotals tr = [].
Proof. unfold buyTotals. by intros ->. Qed.

(** A run in which the notifier accepts what it is given: either no buy
    is announced and the total stays, or one buy is announced with the
    total plus the amount of a message, which becomes the total. *)
Lemma sendNextIfDue_buy_total defaulted now st :
  (buyTotals (sendNextIfDue defaulted now true st).2 = []
   ∧ totalUsdRaised (sendNextIfDue defaulted now true st).1 = totalUsdRaised st)
  ∨ (buyTotals (sendNextIfDue defaulted now true st).2
     = [(totalUsdRaised st + amountPerMessageUsd defaulted)%Q]
     ∧ totalUsdRaised (sendNextIfDue defaulted now true st).1
       = (totalUsdRaised st + amountPerMessageUsd defaulted)%Q).
Proof.
  destruct (completed st) eqn:Hc.
  { rewrite DeliveryLoopFacts.sendNextIfDue_completed by done. by left. }
  destruct (schedule st !! sentCount st) as [item|] eqn:Hitem.
  2:{ rewrite DeliveryLoopFacts.sendNextIfDue_at_end by done. by left. }
  destruct (sendNextIfDue_shape defaulted now true st item Hc Hitem)
    as (st1 & tr1 & Hss & _ & Hcases).
  pose proof (skipEffects_no_sends _ _ (ss_effects _ _ _ _ Hss)) as Hns.
  destruct (ss_data _ _ _ _ Hss) as (_ & _ & _ & Htotal).
  destruct Hcases as [(_ & _ & _ & ->)
                     |(_ & item1 & ev1 & _ & _ & _ & _ & _ & _ & [[_ ->]|[_ ->]])];
    simpl.
  - left. by rewrite buyTotals_no_sends.
  - rewrite !buyTotals_app, (buyTotals_no_sends tr1) by done. simpl.
    rewrite <- Htotal. unfold deliver. destruct (kind ev1); simpl; auto.
  - left. rewrite buyTotals_app, (buyTotals_no_sends tr1) by done. done.
Qed.

(** X25. While the notifier accepts what it is given, the buy messages
    of a chain of runs show running totals: the first shows the total
    the chain started with plus the amount of one message, and each
    later one the total shown by the one before plus the amount, the
    sum being the one addition the code makes for a buy.  The total the
    chain ends with is the total of the last buy message, or the
    starting total when no buy was sent.  Entries skipped as stale add
    nothing. *)
Theorem sendLoop_buy_totals
    (defaulted : Config) (ticks : list (Z * bool)) (st : State) :
  Forall (λ tick, tick.2 = true) ticks →
  let run := sendLoop defaulted ticks st in
  let totals := buyTotals run.2 in
  totals = runningTotals (totalUsdRaised st) (amountPerMessageUsd defaulted)
             (length totals)
  ∧ last (totalUsdRaised st :: totals) = Some (totalUsdRaised run.1).
Proof.
  set (a := amountPerMessageUsd defaulted). cbv zeta.
  revert st. induction ticks as [|[now sendOk] ticks IH]; intros st Hok; simpl; [done|].
  apply Forall_cons in Hok as [Hsend Hok]. simpl in Hsend. subst sendOk.
  pose proof (sendNextIfDue_buy_total defaulted now st) as Hrun. fold a in Hrun.
  destruct (sendNextIfDue defaulted now true st) as [st1 tr1]. simpl in Hrun.
  destruct (timers tr1).
  - simpl. by destruct Hrun as [[-> ->]|[-> ->]].
  - specialize (IH st1 Hok). destruct (sendLoop defaulted ticks st1) as [st2 tr2].
    simpl in *. destruct IH as [IHtotals IHlast]. rewrite buyTotals_app.
    destruct Hrun as [[-> Htotal]|[-> Htotal]]; rewrite Htotal in IHtotals, IHlast.
    + done.
    + simpl. split; [by rewrite <- IHtotals|]. exact IHlast.
Qed.

(** Two runs on [twoBuys], each at the instant of a buy: the messages
    show 100 and 200, and 200 is the total at the end. *)
Lemma sendLoop_buy_totals_witness :
  let ticks : list (Z * bool) := [(0, true); (100000, true)] in
  Forall (λ tick : Z * bool, tick.2 = true) ticks
  ∧ buyTotals (sendLoop Examples.smallConfig ticks Examples.twoBuys).2
    = [(0 + 100)%Q; (0 + 100 + 100)%Q]
  ∧ totalUsdRaised (sendLoop Examples.smallConfig ticks Examples.twoBuys).1
    = (0 + 100 + 100)%Q.
Proof.
  intros ticks.
  assert (Forall (λ tick : Z * bool, tick.2 = true) ticks) as Hok
    by (by repeat constructor).
  split; [exact Hok|]. split; [reflexivity|].
  pose proof (proj2 (sendLoop_buy_totals Examples.smallConfig ticks Examples.twoBuys Hok))
    as Hlast.
  apply (inj Some). rewrite <- Hlast. reflexivity.
Defined.

(** X26. In a schedule whose entries all have one of the kinds
    [countdown], [start] and [buy], as every generated schedule has, a
    run of [sendNextIfDue] moves the cursor past an entry only in two
    ways: the entry was more than 30 seconds late at the time of the
    run, or it is the one entry the run handed to the notifier, which
    accepted it.  No entry is passed over silently. *)
Theorem sendNextIfDue_passes_only_stale_or_accepted
    (defaulted : Config) (now : Z) (sendOk : bool) (st : State) (j : nat) :
  knownKinds st →
  (sentCount st <= j < sentCount (sendNextIfDue defaulted now sendOk st).1)%nat →
  (∃ item, schedule st !! j = Some item ∧ stale now item)
  ∨ (sendOk = true
     ∧ sentCount (sendNextIfDue defaulted now sendOk st).1 = S j
     ∧ ∃ m, sends (sendNextIfDue defaulted now sendOk st).2 = [(j, m)]).
Proof.
  intros Hknown.
  destruct (completed st) eqn:Hc.
  { rewrite DeliveryLoopFacts.sendNextIfDue_completed by done. simpl. lia. }
  destruct (schedule st !! sentCount st) as [item|] eqn:Hitem.
  2:{ rewrite DeliveryLoopFacts.sendNextIfDue_at_end by done. simpl. lia. }
  destruct (sendNextIfDue_shape defaulted now sendOk st item Hc Hitem)
    as (st1 & tr1 & Hss & _ & Hcases).
  pose proof (skipEffects_no_sends _ _ (ss_effects _ _ _ _ Hss)) as Hns.
  pose proof (ss_count _ _ _ _ Hss) as Hcount.
  assert ((sentCount st <= j < sentCount st1)%nat →
          ∃ item, schedule st !! j = Some item ∧ stale now item) as Hskipped.
  { intros Hj. destruct (lookup_lt_is_Some_2 (schedule st) j ltac:(lia)) as [x Hx].
    exists x. split; [done|]. by apply (ss_skipped _ _ _ _ Hss j). }
  destruct Hcases as [(_ & _ & _ & ->)
                     |(_ & item1 & ev1 & Hitem1 & _ & _ & Hkind & _ & _
                       & [[_ ->]|[_ ->]])];
    simpl.
  - intros Hj. left. by apply Hskipped.
  - intros Hj. destruct (decide (j < sentCount st1)%nat) as [Hlt|Hge].
    { left. apply Hskipped. lia. }
    right.
    assert (knownKind (kind ev1)) as Hk.
    { rewrite Hkind. unfold knownKinds in Hknown. rewrite Forall_forall in Hknown.
      apply Hknown. by eapply list_elem_of_lookup_2. }
    destruct (deliver_known_sends defaulted now sendOk st1 ev1 Hk) as [m Hd].
    destruct (deliver_state defaulted now sendOk st1 ev1) as (_ & _ & _ & _ & Hcnt & _).
    destruct sendOk.
    + destruct (DeliveryLoopFacts.deliver_accepted defaulted now st1 ev1) as [Hs _].
      rewrite Hs in Hj |- *. assert (j = sentCount st1) as -> by lia.
      split; [done|]. split; [done|]. exists m.
      rewrite !sends_app, Hns, Hd. done.
    + destruct (deliver_failed defaulted now st1 ev1) as [Hsame|Hno]; [|done].
      rewrite Hsame in Hj. lia.
  - intros Hj. left. by apply Hskipped.
Qed.

(** On [twoBuys] at 100 s the first buy is passed as stale and the
    second as accepted. *)
Lemma sendNextIfDue_passes_only_stale_or_accepted_witness :
  knownKinds Examples.twoBuys
  ∧ (sentCount Examples.twoBuys <= 1
     < sentCount (sendNextIfDue Examples.smallConfig 100000 true Examples.twoBuys).1)%nat
  ∧ ((∃ item, schedule Examples.twoBuys !! 1%nat = Some item ∧ stale 100000 item)
     ∨ (true = true
        ∧ sentCount (sendNextIfDue Examples.smallConfig 100000 true Examples.twoBuys).1
          = 2%nat
        ∧ ∃ m, sends (sendNextIfDue Examples.smallConfig 100000 true Examples.twoBuys).2
               = [(1%nat, m)])).
Proof.
  assert (knownKinds Examples.twoBuys) as Hknown by (by repeat constructor).
  assert (sentCount Examples.twoBuys <= 1
          < sentCount (sendNextIfDue Examples.smallConfig 100000 true
                         Examples.twoBuys).1)%nat as Hj by (simpl; lia).
  split; [exact Hknown|]. split; [exact Hj|].
  exact (sendNextIfDue_passes_only_stale_or_accepted Examples.smallConfig 100000 true
           Examples.twoBuys 1 Hknown Hj).
Defined.

End DeliveryTotalsFacts.
